(* ===== verification/_CoqProject ===== *)
-Q . S2P
Prelude.v
Net.v
Format.v
Session.v
Outbound.v
WriteLoop.v
ReadLoop.v
StreamConfig.v
Driver.v
Server.v
ServerThreads.v
CommandLine.v
System.v
Logging.v
