(* ===== verification/Prelude.v ===== *)
(** * beast_test: a verified model of the Beast idle-timeout reproduction

    The repository is a WebSocket client (src/beast_issue_client.cpp) and an
    echo server (src/beast_issue_server.cpp) built on Boost.Beast, written to
    reproduce an idle timeout: the client sends bursts of "userMsg:<n>"
    messages while reading the echoes; the server sleeps 12 s after its 11th
    message so that the client's 6 s idle timeout fires.  Data flows from
    the client's [main] into the session's outbound queue, over the wire to
    the server's handler thread, back over the wire into the session's read
    loop, and [main] watches the receive counter.

    ** Files (in dependency order) and what they model

    - [Prelude] (this file): transition-system closures ([star], the
      labelled [lstar] and [lstar_simulation]), counting and removal on lists
      (the multiset of pending operations), the [beast] hint databases, the
      tactics [invc], [in_list], [simpl_counts], the C [int] range and
      [exit_status].
    - [Net]: what the code observes of Asio/Beast: [error_code], the
      asynchronous operations of a client session ([AsyncOp]), the stream
      state the code sets or reads ([WsStream]), frames, and [writes_of].
    - [Format]: the payload "userMsg:<n>" (client lines 325-328) and its
      parser.
    - [Session], [Module WebsocketSession]: the class [WebsocketSession]
      (client lines 42-253).  Its members are the fields of the record
      [Session]; three more fields hold run-time state the object depends on:
      [pending] (the asynchronous operations in flight, each holding
      [shared_from_this()]), [issued] (every operation ever started: the
      wire-level history) and [log] (what is printed, without timestamps).
      Every member function ([run], [on_resolve], [on_connect],
      [on_handshake], [on_read], [sendMessage], [doSend], [on_write],
      [close], [on_close], [fail], the getters, the destructor [destroy]) is
      one Rocq function, with its guards and early returns; the undefined
      [pop_front] of an empty [std::list] is [None].  The event loop is the
      relation [complete]: the environment completes any pending operation
      with any error code (or tears the stream down), which retires it and
      runs its handler; [api_call] is what [main] calls; [session_step] is
      either.
    - [Outbound]: the abstract contract of the outbound queue,
      [FifoSpec] (delivered messages plus a backlog), the abstraction
      function [abs] and the refinement theorem for executions.
    - [WriteLoop]: the chain of writes driven by [on_write], run to
      completion ([drain]) with arbitrary error codes.
    - [ReadLoop]: the read side of the session: the buffer cleared before
      each read, the messages printed ([received]) and [recvCount_].
    - [StreamConfig]: the configuration [on_connect] installs on the stream
      and the invariant that it is in force whenever the stream is used.
    - [Driver]: [main] of the client (lines 255-360).  The typeclass
      [ClientApi] is the interface [main] uses and [ClientApiLaws] what its
      generic theorems need; the stage machine [main_switch] and the loop
      [main_step] are written against the class, and
      [websocket_api]/[websocket_laws] instantiate it with the session;
      [main_exit] is the [return] that destroys the session.  [rand() % 5]
      is an input in [0, 4]; [ioc.stopped()] is "no work guard and no
      pending operation".
    - [Server], [Module EchoServer]: [do_session] (server lines 22-87) as a
      [Fixpoint] over the peer's script of [Incoming] events; the
      process-wide [static bool hasSleep] is threaded in and out; [serve]
      runs handlers one after another.
    - [ServerThreads], [Module EchoThreads]: the detached handler threads of
      the server's [main] (lines 114-132) interleaved at their accesses to
      [hasSleep] ([thread_step], [proc_step]), and the process that ends
      with [EXIT_FAILURE] when [accept] throws ([server_step]).
    - [CommandLine]: the argument checks of both [main]s, [std::atoi] and the
      [unsigned short] narrowing of the server's port; [make_address] and the
      acceptor's bind are the [Context] of a section; [server_process] is
      the server's [main] as a whole: a start-up return or the accept loop
      of [ServerThreads].
    - [System]: one client connected to one server handler: the session's
      completions labelled with what they put on or take off the wire
      ([lcomplete], equivalent to [complete]), the server thread fed with the
      client's delivered messages, the echoes travelling back ([sys_step]).
    - [Logging]: what the programs print: [show_current_time] (client lines
      29-38) as [std::put_time(.., "%F %T")] of a [struct tm], every output
      statement of the session as the text of its [LogLine]
      ([client_line]), the server handler's lines with the thread id
      ([server_line]), and [leading_timestamp], a reader of the time in
      front of a line.

    ** What is proved (claims C1-C39 of PROJECT.json)

    - Outbound queue: submitted messages are a prefix of the queued ones in
      order (C1); executions refine [FifoSpec] (C2); one write in flight
      and it is the front (C4); the write loop terminates after one
      completion per queued message, whatever the errors (C8); [pop_front]
      is never reached on an empty queue (C10); a stream closed under a
      queued message stalls the queue for ever (C11, a finding); the queue
      itself is unbounded (C13).
    - End to end (System): the client prints only echoes of its own
      messages, in order (C3); [recvCount_] never exceeds the number of
      messages written (C17).
    - Session: one close frame iff [hasClose_] (C5); one
      resolve/connect/handshake/read at a time (C9); each recv line prints
      exactly the message read and [recvCount_] counts them (C15, C16); the
      stream configuration is in force whenever the stream is used (C18);
      the behaviour of [on_read], [sendMessage] and [on_write] on every
      branch (C26, C29, C30).
    - Client loop: the wire carries userMsg:1, userMsg:2, ... without gap
      (C7), every message of the spec's form and pairwise distinct (C39);
      [messageNo] overflows [int] when the peer never answers (C12); one
      close frame exactly in [kStageClosing] (C22); stages never regress
      (C23); [canQuit] only when drained (C24); a failed connection loops
      for ever (C25).
    - Server: echoes are byte-identical (C6) in the previous message's mode
      (C19); the stall follows the 11th echo (C20) and never comes back
      once [hasSleep] is set (C21); a graceful close is never logged (C27).
      Threads: two concurrent handlers can both stall (C31); no handler
      stalls twice (C32); a handler's [int count] overflows on a long
      connection (C14, a finding).
    - Command lines and exit: the port is [atoi] modulo 2^16 (C33); the
      server returns at start-up exactly in its failure cases, and every
      end of the process returns [EXIT_FAILURE] (C34); a port without
      digits listens on port 0 (C35); the two usage checks differ (C36).
    - Output: every client diagnostic starts with a timestamp that parses
      back to the clock reading, and no other client line has one (C37);
      the timestamp is 19 characters wide for four-digit years (C38); the
      server's error lines carry no timestamp (C28, a finding).

    ** Bounds, inputs and witnesses

    Loops are structural: the server loop recurses on the finite script of
    the peer (a script that runs out leaves the handler [Blocked] in a read),
    the burst on its count [rand() % 5 + 1], [drain] on its list of error
    codes, whose length is the queue's (the variant of the write loop).
    Executions are finite sequences of steps ([star]); every property holds
    for all of them.  Counters are [Z] with the [int] range [INT_MIN,
    INT_MAX] stated where overflow matters ([messageNo], C12; the
    server's [count], C14; [recvCount_], C17); the port is narrowed modulo 2^16 as C++ converts to
    [unsigned short]; timestamps are checked for every valid [struct tm]
    and their width for the years 1000-9999.  Witnesses run concrete
    executions by evaluation:
    scenario A (connect, 21 echoes, close, quit: [Driver.demo_quit]), one
    message echoed end to end ([System.demo_echoed]), the interleaving of
    two handlers that both stall ([EchoThreads.race_schedule]).

    ** Not modelled

    Name resolution, TCP and the WebSocket protocol (Beast and Asio): only
    their outcomes are inputs.  The idle-timeout monitor is Beast's: it
    shows as a completion with [ec_timeout] and a teardown of the stream.
    The wall clock and [std::localtime] (the broken-down time is an input
    of [show_current_time]), [ec.message()] and [ec.value()] (parameters),
    the 10 ms sleep and the clocks [t1]/[t2] of the client's loop (they only
    pace it).  The server's [accept connect] line and the [std Error] line
    of its [catch (std::exception)] have no event in the handler model.  [make_address] and the acceptor's bind are inputs.  Threads
    interleave at the granularity of the accesses to [hasSleep]; the rest of
    a loop iteration touches only the thread's own socket and locals, so
    finer interleavings do not change what can be observed.  The composed
    system connects one client to one handler over a wire that delivers the
    echo of every message whose write succeeded; a lossy wire and several
    clients are left out. *)

From stdpp Require Import base list.
From Stdlib Require Import ZArith Lia.

(** ** Transition systems: reflexive-transitive closure *)

Section Star.
Context {A : Type} (R : A -> A -> Prop).

Inductive star : A -> A -> Prop :=
| star_refl a : star a a
| star_step a b c : R a b -> star b c -> star a c.

Lemma star_one a b : R a b -> star a b.
Proof. eauto using star. Qed.

Lemma star_trans a b c : star a b -> star b c -> star a c.
Proof. induction 1; eauto using star. Qed.

Lemma star_right a b c : star a b -> R b c -> star a c.
Proof. eauto using star_trans, star_one. Qed.

(** The induction principle every invariant proof of the development uses. *)
Lemma star_invariant (P : A -> Prop) :
  (forall a b, P a -> R a b -> P b) -> forall a b, star a b -> P a -> P b.
Proof. intros Hstep a b Hs. induction Hs; eauto. Qed.
End Star.

(** Labelled transitions: each step may emit one observable label; an
    execution collects the labels in order. *)
Definition label_list {L} (l : option L) : list L :=
  match l with Some x => [x] | None => [] end.

Section LStar.
Context {A L : Type} (R : A -> option L -> A -> Prop).

Inductive lstar : A -> list L -> A -> Prop :=
| lstar_refl a : lstar a [] a
| lstar_step a l b ls c : R a l b -> lstar b ls c -> lstar a (label_list l ++ ls) c.

(** Simulation: a relation [abs] between the states of [R] and those of
    [R'] that is carried along every labelled step carries along executions. *)
Lemma lstar_simulation {B} (R' : B -> option L -> B -> Prop) (lstar' : B -> list L -> B -> Prop)
    (P : A -> Prop) (f : A -> B) :
  (forall b, lstar' b [] b) ->
  (forall b l b1 ls b2, R' b l b1 -> lstar' b1 ls b2 -> lstar' b (label_list l ++ ls) b2) ->
  (forall a l a', P a -> R a l a' -> P a' /\ R' (f a) l (f a')) ->
  forall a ls a', lstar a ls a' -> P a -> lstar' (f a) ls (f a') /\ P a'.
Proof.
  intros Hrefl Hstep Hsim a ls a' Hs. induction Hs as [a|a l b ls c Hab Hbc IH]; intros Ha.
  - auto.
  - destruct (Hsim a l b Ha Hab) as [Hb Hr]. destruct (IH Hb) as [Hl Hc]. eauto.
Qed.
End LStar.

Declare Scope beast_scope.
Delimit Scope beast_scope with beast.
Notation "a '-[' R ']->*' b" := (star R a b)
  (at level 70, R at level 200, format "a  -[ R ]->*  b") : beast_scope.

(** ** Counting and removing elements of lists (pending-operation multisets) *)

Section CountIf.
Context {A : Type}.

Fixpoint count_if (f : A -> bool) (l : list A) : nat :=
  match l with
  | [] => 0
  | x :: l' => (if f x then 1 else 0) + count_if f l'
  end.

Lemma count_if_app f l1 l2 :
  count_if f (l1 ++ l2) = count_if f l1 + count_if f l2.
Proof. induction l1 as [|x l1 IH]; simpl; [done|]. rewrite IH. lia. Qed.

Lemma count_if_pos f x l : x ∈ l -> f x = true -> 1 <= count_if f l.
Proof.
  induction 1 as [x l|x y l _ IH]; intros Hf; simpl;
    [rewrite Hf; lia | specialize (IH Hf); lia].
Qed.

Lemma count_if_zero f x l : count_if f l = 0 -> x ∈ l -> f x = false.
Proof.
  intros H0 Hin. destruct (f x) eqn:Hf; [|done].
  pose proof (count_if_pos f x l Hin Hf). lia.
Qed.

Context `{EqDecision A}.

(** Retiring one completed operation from the set of pending ones. *)
Fixpoint remove_one (x : A) (l : list A) : list A :=
  match l with
  | [] => []
  | y :: l' => if decide (x = y) then l' else y :: remove_one x l'
  end.

Lemma count_if_remove_one f x l :
  x ∈ l -> count_if f l = (if f x then 1 else 0) + count_if f (remove_one x l).
Proof.
  induction l as [|y l IH]; simpl; intros Hin; [by apply elem_of_nil in Hin|].
  case_decide as Heq; [by subst|].
  apply elem_of_cons in Hin as [->|Hin]; [done|]. simpl. rewrite (IH Hin). lia.
Qed.

Lemma count_if_remove_one_le f x l :
  count_if f (remove_one x l) <= count_if f l.
Proof.
  induction l as [|y l IH]; simpl; [lia|]. case_decide; simpl; lia.
Qed.

Lemma elem_of_remove_one y x l : y ∈ remove_one x l -> y ∈ l.
Proof.
  induction l as [|z l IH]; simpl; [done|].
  case_decide; rewrite ?elem_of_cons; [auto|]. intros [->|Hy]; auto.
Qed.
End CountIf.

Create HintDb beast discriminated.
Create Rewrite HintDb beast_rw.
#[export] Hint Rewrite @count_if_app : beast_rw.
#[export] Hint Resolve count_if_remove_one_le elem_of_remove_one : beast.

(** ** Development tactics *)

(** Invert a hypothesis and clean up the equations it produces. *)
Ltac invc H := inversion H; subst; clear H.

(** Membership in a concrete list, by evaluation. *)
Ltac in_list := apply list_elem_of_In; vm_compute; tauto.

(** Simplify counts, [if]s on booleans and record projections. *)
Ltac simpl_counts :=
  repeat (simpl in *; autorewrite with beast_rw in *).

(** ** C [int] *)

Definition INT_MAX : Z := 2 ^ 31 - 1.
Definition INT_MIN : Z := - 2 ^ 31.
Definition int_range (z : Z) : Prop := (INT_MIN <= z <= INT_MAX)%Z.

(** [EXIT_SUCCESS] and [EXIT_FAILURE] of [<cstdlib>]. *)
Inductive exit_status := EXIT_SUCCESS | EXIT_FAILURE.
