(* ===== verification/Net.v ===== *)
(** * The Boost.Asio / Boost.Beast environment the program runs against

    Neither src/beast_issue_client.cpp nor src/beast_issue_server.cpp
    implements the network: they call Boost.Asio and Boost.Beast.  This file
    holds the data through which the modelled code observes those libraries:
    [beast::error_code] (only the distinctions the code tests), the
    asynchronous operations a client handler can start (each one owns a copy of
    [shared_from_this()] until its completion handler runs), the part of
    [websocket::stream] state the code reads or sets, and WebSocket frames. *)

From stdpp Require Import base list strings.
From Stdlib Require Import ZArith.
From S2P Require Import Prelude.

(** [beast::error_code], as far as the code distinguishes values:
    success (its [operator bool] is false), [beast::error::timeout],
    [websocket::error::closed] (graceful close by the peer),
    [websocket::error::message_too_big] (a message over [read_message_max])
    and any other code.  *)
Inductive error_code :=
| ec_success
| ec_timeout
| ec_closed
| ec_message_too_big
| ec_other (value : Z).

#[export] Instance error_code_eq_dec : EqDecision error_code.
Proof. solve_decision. Defined.

(** [if (ec)]: the conversion of an error code to [bool]. *)
Definition failed (ec : error_code) : bool :=
  match ec with ec_success => false | _ => true end.

(** [websocket::close_code]: the client only uses [normal]. *)
Inductive close_code := close_normal | close_going_away | close_protocol_error.

#[export] Instance close_code_eq_dec : EqDecision close_code.
Proof. solve_decision. Defined.

(** The asynchronous operations of [WebsocketSession], each identified by
    the completion handler it will call. *)
Inductive AsyncOp :=
| OpResolve (host port : string)        (* resolver_.async_resolve -> on_resolve *)
| OpConnect                             (* async_connect           -> on_connect *)
| OpHandshake (host target : string)    (* ws_.async_handshake     -> on_handshake *)
| OpRead                                (* ws_.async_read          -> on_read *)
| OpWrite (msg : string)                (* ws_.async_write         -> on_write *)
| OpClose (code : close_code).          (* ws_.async_close         -> on_close *)

#[export] Instance AsyncOp_eq_dec : EqDecision AsyncOp.
Proof. solve_decision. Defined.

Definition is_write (o : AsyncOp) : bool :=
  match o with OpWrite _ => true | _ => false end.
Definition is_close (o : AsyncOp) : bool :=
  match o with OpClose _ => true | _ => false end.
(** The operations of the connect-and-read chain: resolve, connect,
    handshake and the reads, each started by the completion of the previous. *)
Definition is_chain (o : AsyncOp) : bool :=
  match o with OpWrite _ | OpClose _ => false | _ => true end.

(** The payloads of the writes among a list of operations, in order: applied
    to the history of a session, the messages submitted to the transport. *)
Fixpoint writes_of (l : list AsyncOp) : list string :=
  match l with
  | [] => []
  | OpWrite m :: l' => m :: writes_of l'
  | _ :: l' => writes_of l'
  end.

(** [websocket::stream_base::timeout]. *)
Record TimeoutOpt := {
  handshake_timeout : Z;   (* seconds *)
  idle_timeout : Z;        (* seconds *)
  keep_alive_pings : bool
}.

(** The state of [websocket::stream<beast::tcp_stream>] the code sets or
    reads: [is_open()], [text()], [read_message_max()], the timeout option,
    the expiry of the underlying [tcp_stream] ([None] = [expires_never]) and
    whether the handshake decorator is installed. *)
Record WsStream := {
  ws_open : bool;
  ws_text : bool;
  ws_read_max : Z;
  ws_timeout : option TimeoutOpt;
  tcp_expiry : option Z;
  ws_decorated : bool
}.

(** A freshly constructed stream: not open until a handshake succeeds. *)
Definition ws_init : WsStream :=
  {| ws_open := false; ws_text := false; ws_read_max := 16 * 1024 * 1024;
     ws_timeout := None; tcp_expiry := None; ws_decorated := false |}.

Definition ws_set_open (b : bool) (w : WsStream) : WsStream :=
  {| ws_open := b; ws_text := ws_text w; ws_read_max := ws_read_max w;
     ws_timeout := ws_timeout w; tcp_expiry := tcp_expiry w;
     ws_decorated := ws_decorated w |}.

(** A WebSocket message: its payload and its text/binary flag. *)
Record Frame := { payload : string; is_text : bool }.

#[export] Instance Frame_eq_dec : EqDecision Frame.
Proof. solve_decision. Defined.

Lemma writes_of_app l1 l2 : writes_of (l1 ++ l2) = writes_of l1 ++ writes_of l2.
Proof. induction l1 as [|o l1 IH]; [done|]. destruct o; simpl; by rewrite IH. Qed.

Lemma writes_of_non_write l o : is_write o = false -> writes_of (l ++ [o]) = writes_of l.
Proof. intros Ho. rewrite writes_of_app. destruct o; simpl in *; by rewrite ?app_nil_r. Qed.

#[export] Hint Rewrite writes_of_app : beast_rw.
