(* ===== verification/Format.v ===== *)
(** * The client's message payloads

    [main] (src/beast_issue_client.cpp, lines 325-328) formats every message
    with a [std::stringstream]: [msg << "userMsg:" << messageNo].  The
    decimal rendering of an [int] by [operator<<] is [int_to_string]: an
    optional minus sign and the digits without leading zeros.  The file
    proves that the payload can be parsed back ([userMsg_roundtrip]), hence
    that distinct sequence numbers give distinct payloads. *)

From Stdlib Require Import ZArith String Ascii DecimalString DecimalZ DecimalPos.
From S2P Require Import Prelude.

Local Open Scope string_scope.

(** [std::ostream << int]. *)
Definition int_to_string (z : Z) : string := NilZero.string_of_int (Z.to_int z).

(** The inverse reading of a decimal [int]. *)
Definition string_to_int (s : string) : option Z :=
  match NilZero.int_of_string s with
  | Some d => Some (Z.of_int d)
  | None => None
  end.

Definition userMsg_prefix : string := "userMsg:".

(** The payload of message number [n] (lines 326-327). *)
Definition userMsg (n : Z) : string := userMsg_prefix ++ int_to_string n.

Fixpoint strip_prefix (p s : string) : option string :=
  match p, s with
  | EmptyString, _ => Some s
  | String c p', String d s' => if Ascii.eqb c d then strip_prefix p' s' else None
  | String _ _, EmptyString => None
  end.

(** Reading a payload back: the number after [[userMsg:]]. *)
Definition parse_userMsg (s : string) : option Z :=
  match strip_prefix userMsg_prefix s with
  | Some r => string_to_int r
  | None => None
  end.

Lemma strip_prefix_append p s : strip_prefix p (p ++ s) = Some s.
Proof. induction p as [|c p IH]; simpl; [reflexivity|]. now rewrite Ascii.eqb_refl. Qed.

Lemma to_int_nonnil z : Z.to_int z <> Decimal.Pos Decimal.Nil /\ Z.to_int z <> Decimal.Neg Decimal.Nil.
Proof.
  destruct z as [|p|p]; simpl; split; try discriminate;
    intros [= E]; now apply (Unsigned.to_uint_nonnil p).
Qed.

Lemma int_to_string_roundtrip z : string_to_int (int_to_string z) = Some z.
Proof.
  unfold string_to_int, int_to_string. destruct (to_int_nonnil z) as [H1 H2].
  rewrite (NilZero.isi _ H1 H2). now rewrite DecimalZ.of_to.
Qed.

(** Round trip of the message format: the number of every payload
    [main] sends can be read back from it. *)
Theorem userMsg_roundtrip n : parse_userMsg (userMsg n) = Some n.
Proof.
  unfold parse_userMsg, userMsg. rewrite strip_prefix_append. apply int_to_string_roundtrip.
Qed.

Lemma userMsg_inj n m : userMsg n = userMsg m -> n = m.
Proof.
  intros E. pose proof (f_equal (fun t => strip_prefix userMsg_prefix t) E) as E'.
  unfold userMsg in E'. rewrite !strip_prefix_append in E'. injection E' as E'.
  pose proof (f_equal string_to_int E') as E''.
  rewrite !int_to_string_roundtrip in E''. congruence.
Qed.

Example userMsg_12 : userMsg 12 = "userMsg:12".
Proof. reflexivity. Qed.
