(* ===== verification/Session.v ===== *)
(** * The client's [WebsocketSession] (src/beast_issue_client.cpp, lines 48-253)

    The session is an object shared between the event loop and the
    completion handlers of its outstanding asynchronous operations.  It is
    modelled as a record of its members plus three pieces of run-time state the
    C++ object does not name but the program's behaviour depends on:
    - [pending]: the asynchronous operations started and not yet completed
      (each owns a [shared_ptr] to the session, so the session lives exactly
      as long as [pending] is non-empty or [main] holds it);
    - [issued]: every operation ever started, in order: the wire-level
      history (writes submitted to the transport, the close frame);
    - [log]: what the session prints, without timestamps.
    Each member function is one Rocq function from session to session.  The
    completion of an operation, chosen by the environment, is the relation
    [complete]: it retires the operation and runs its handler. *)

From stdpp Require Import base list sets strings.
From Stdlib Require Import ZArith Lia.
From S2P Require Import Prelude Net.
Local Open Scope beast_scope.

Module WebsocketSession.

(** What the session prints (timestamps dropped).  [LogFail what ec] is
    [fail(ec, what)]: a line on [std::cerr]. *)
Inductive LogLine :=
| LogRunStart                         (* [run start] *)
| LogFail (what : string) (ec : error_code)
| LogIdleTimeoutRead                  (* [idle timeout when read] *)
| LogIdleTimeoutWrite                 (* [ idle timeout when write] *)
| LogRecv (msg : string) (total : Z)  (* [recv:<msg> |total recv:<n>] *)
| LogCloseDone                        (* [close websocket] *)
| LogDestruct.                        (* [WebsocketSession de construct] *)

Record Session := mkSession {
  ws_ : WsStream;
  buffer_ : string;
  host_ : string;
  port_ : string;
  sendMessageQueue_ : list string;
  hasClose_ : bool;
  recvCount_ : Z;
  isConnected_ : bool;
  pending : list AsyncOp;
  issued : list AsyncOp;
  log : list LogLine
}.

(** The constructor: [hasClose_(false), recvCount_(0), isConnected_(false)]. *)
Definition create : Session :=
  {| ws_ := ws_init; buffer_ := EmptyString; host_ := EmptyString; port_ := EmptyString;
     sendMessageQueue_ := []; hasClose_ := false; recvCount_ := 0;
     isConnected_ := false; pending := []; issued := []; log := [] |}.

(** Field updates. *)
Definition set_ws w s :=
  {| ws_ := w; buffer_ := buffer_ s; host_ := host_ s; port_ := port_ s;
     sendMessageQueue_ := sendMessageQueue_ s; hasClose_ := hasClose_ s;
     recvCount_ := recvCount_ s; isConnected_ := isConnected_ s;
     pending := pending s; issued := issued s; log := log s |}.
Definition set_buffer b s :=
  {| ws_ := ws_ s; buffer_ := b; host_ := host_ s; port_ := port_ s;
     sendMessageQueue_ := sendMessageQueue_ s; hasClose_ := hasClose_ s;
     recvCount_ := recvCount_ s; isConnected_ := isConnected_ s;
     pending := pending s; issued := issued s; log := log s |}.
Definition set_endpoint h p s :=
  {| ws_ := ws_ s; buffer_ := buffer_ s; host_ := h; port_ := p;
     sendMessageQueue_ := sendMessageQueue_ s; hasClose_ := hasClose_ s;
     recvCount_ := recvCount_ s; isConnected_ := isConnected_ s;
     pending := pending s; issued := issued s; log := log s |}.
Definition set_queue q s :=
  {| ws_ := ws_ s; buffer_ := buffer_ s; host_ := host_ s; port_ := port_ s;
     sendMessageQueue_ := q; hasClose_ := hasClose_ s;
     recvCount_ := recvCount_ s; isConnected_ := isConnected_ s;
     pending := pending s; issued := issued s; log := log s |}.
Definition set_hasClose b s :=
  {| ws_ := ws_ s; buffer_ := buffer_ s; host_ := host_ s; port_ := port_ s;
     sendMessageQueue_ := sendMessageQueue_ s; hasClose_ := b;
     recvCount_ := recvCount_ s; isConnected_ := isConnected_ s;
     pending := pending s; issued := issued s; log := log s |}.
Definition set_recvCount n s :=
  {| ws_ := ws_ s; buffer_ := buffer_ s; host_ := host_ s; port_ := port_ s;
     sendMessageQueue_ := sendMessageQueue_ s; hasClose_ := hasClose_ s;
     recvCount_ := n; isConnected_ := isConnected_ s;
     pending := pending s; issued := issued s; log := log s |}.
Definition set_isConnected b s :=
  {| ws_ := ws_ s; buffer_ := buffer_ s; host_ := host_ s; port_ := port_ s;
     sendMessageQueue_ := sendMessageQueue_ s; hasClose_ := hasClose_ s;
     recvCount_ := recvCount_ s; isConnected_ := b;
     pending := pending s; issued := issued s; log := log s |}.
Definition push_log l s :=
  {| ws_ := ws_ s; buffer_ := buffer_ s; host_ := host_ s; port_ := port_ s;
     sendMessageQueue_ := sendMessageQueue_ s; hasClose_ := hasClose_ s;
     recvCount_ := recvCount_ s; isConnected_ := isConnected_ s;
     pending := pending s; issued := issued s; log := log s ++ [l] |}.

(** Starting an asynchronous operation: it joins the pending set (holding
    [shared_from_this()]) and the history. *)
Definition issue (o : AsyncOp) s :=
  {| ws_ := ws_ s; buffer_ := buffer_ s; host_ := host_ s; port_ := port_ s;
     sendMessageQueue_ := sendMessageQueue_ s; hasClose_ := hasClose_ s;
     recvCount_ := recvCount_ s; isConnected_ := isConnected_ s;
     pending := o :: pending s; issued := issued s ++ [o]; log := log s |}.

(** The library retires a completed operation before calling its handler. *)
Definition retire (o : AsyncOp) s :=
  {| ws_ := ws_ s; buffer_ := buffer_ s; host_ := host_ s; port_ := port_ s;
     sendMessageQueue_ := sendMessageQueue_ s; hasClose_ := hasClose_ s;
     recvCount_ := recvCount_ s; isConnected_ := isConnected_ s;
     pending := remove_one o (pending s); issued := issued s; log := log s |}.

(** [fail(ec, what)] (lines 42-45). *)
Definition fail (ec : error_code) (what : string) s := push_log (LogFail what ec) s.

(** [run(host, port)] (lines 72-82): remember the endpoint, print, and start
    resolving. *)
Definition run (host port : string) s :=
  issue (OpResolve host port) (push_log LogRunStart (set_endpoint host port s)).

(** [on_resolve] (lines 84-95): on success, arm the 30 s TCP timeout and
    connect. *)
Definition on_resolve (ec : error_code) s :=
  if failed ec then fail ec "resolve" s
  else
    let w := ws_ s in
    issue OpConnect
      (set_ws {| ws_open := ws_open w; ws_text := ws_text w;
                 ws_read_max := ws_read_max w; ws_timeout := ws_timeout w;
                 tcp_expiry := Some 30%Z; ws_decorated := ws_decorated w |} s).

(** The websocket configuration of [on_connect] (lines 106-124): text mode,
    [expires_never] on the TCP layer, 1 MiB read limit, the timeout option
    {handshake 20 s, idle 6 s, ping when idle} and the user-agent decorator. *)
Definition client_timeout : TimeoutOpt :=
  {| handshake_timeout := 20; idle_timeout := 6; keep_alive_pings := true |}.

Definition configure_stream (w : WsStream) : WsStream :=
  {| ws_open := ws_open w; ws_text := true; ws_read_max := 1 * 1024 * 1024;
     ws_timeout := Some client_timeout; tcp_expiry := None;
     ws_decorated := true |}.

(** [on_connect] (lines 98-128). *)
Definition on_connect (ec : error_code) s :=
  if failed ec then fail ec "connect" s
  else issue (OpHandshake (host_ s) "/") (set_ws (configure_stream (ws_ s)) s).

(** [on_handshake] (lines 130-140): mark the session connected, clear the
    buffer and arm the first read. *)
Definition on_handshake (ec : error_code) s :=
  if failed ec then fail ec "handshake" s
  else issue OpRead (set_buffer EmptyString (set_isConnected true s)).

(** [on_read] (lines 142-167): log an error (and a timeout specially), or
    count and print the message; then re-arm the read while the stream is
    open. *)
Definition on_read (ec : error_code) s :=
  let s1 :=
    if failed ec then
      let s' := fail ec "read" s in
      if decide (ec = ec_timeout) then push_log LogIdleTimeoutRead s' else s'
    else
      let s' := set_recvCount (recvCount_ s + 1)%Z s in
      push_log (LogRecv (buffer_ s') (recvCount_ s')) s'
  in
  if ws_open (ws_ s1) then issue OpRead (set_buffer EmptyString s1) else s1.

(** [doSend] (lines 181-189): start the write only when the stream is open;
    otherwise return with nothing started. *)
Definition doSend (msg : string) s :=
  if negb (ws_open (ws_ s)) then s else issue (OpWrite msg) s.

(** [sendMessage] (lines 169-179): append, and send the front when the queue
    had been empty ([size() <= 1] after the push). *)
Definition sendMessage (msg : string) s :=
  let s1 := set_queue (sendMessageQueue_ s ++ [msg]) s in
  if (length (sendMessageQueue_ s1) <=? 1)%nat then
    match sendMessageQueue_ s1 with
    | frontMsg :: _ => doSend frontMsg s1
    | [] => s1
    end
  else s1.

(** [std::list::pop_front]: undefined behaviour on an empty list, [None]. *)
Definition pop_front {A} (l : list A) : option (list A) :=
  match l with [] => None | _ :: l' => Some l' end.

(** [on_write] (lines 191-212): pop the front unconditionally, log an
    error, and send the next message if any.  [None] is the undefined
    behaviour of [pop_front] on an empty queue. *)
Definition on_write (ec : error_code) s : option Session :=
  match pop_front (sendMessageQueue_ s) with
  | None => None
  | Some q =>
      let s1 := set_queue q s in
      let s2 :=
        if failed ec then
          let s' := fail ec "write" s1 in
          if decide (ec = ec_timeout) then push_log LogIdleTimeoutWrite s' else s'
        else s1 in
      Some (match sendMessageQueue_ s2 with
            | frontMsg :: _ => doSend frontMsg s2
            | [] => s2
            end)
  end.

(** [getRecvCount] and [isConnected] (lines 214-222). *)
Definition getRecvCount s : Z := recvCount_ s.
Definition isConnected s : bool := isConnected_ s.

(** [close] (lines 230-240): only the first call starts the close
    handshake. *)
Definition close s :=
  if hasClose_ s then s
  else issue (OpClose close_normal) (set_hasClose true s).

(** [on_close] (lines 242-250). *)
Definition on_close (ec : error_code) s :=
  if failed ec then fail ec "close" s else push_log LogCloseDone s.

(** The destructor [~WebsocketSession] (lines 224-227): it prints a line.
    It runs when the last [shared_ptr] to the session is released. *)
Definition destroy s := push_log LogDestruct s.

(** The stream's [is_open()] as the library changes it: opened by a
    successful handshake, closed by a completed close or by a teardown
    (idle timeout, peer close, network error). *)
Definition set_open (b : bool) s := set_ws (ws_set_open b (ws_ s)) s.

(** The completion of one pending operation, chosen by the environment,
    followed by its handler; and the library tearing the stream down.  Error
    codes are arbitrary: the model covers every outcome the library may
    report. *)
Inductive complete : Session -> Session -> Prop :=
| cpl_resolve s h p ec :
    OpResolve h p ∈ pending s ->
    complete s (on_resolve ec (retire (OpResolve h p) s))
| cpl_connect s ec :
    OpConnect ∈ pending s ->
    complete s (on_connect ec (retire OpConnect s))
| cpl_handshake s h t ec :
    OpHandshake h t ∈ pending s ->
    complete s (on_handshake ec
                  (set_open (negb (failed ec) || ws_open (ws_ s))
                     (retire (OpHandshake h t) s)))
| cpl_read_ok s data :
    OpRead ∈ pending s ->
    complete s (on_read ec_success
                  (set_buffer (buffer_ s +:+ data) (retire OpRead s)))
| cpl_read_err s ec :
    OpRead ∈ pending s -> failed ec = true ->
    complete s (on_read ec (retire OpRead s))
| cpl_write s m ec s' :
    OpWrite m ∈ pending s ->
    on_write ec (retire (OpWrite m) s) = Some s' ->
    complete s s'
| cpl_close s c ec :
    OpClose c ∈ pending s ->
    complete s (on_close ec (set_open false (retire (OpClose c) s)))
| env_teardown s :
    complete s (set_open false s).

(** The calls [main] makes on the session.  [run] is called once, on a
    session that has started nothing yet. *)
Inductive api_call : Session -> Session -> Prop :=
| call_run s h p : issued s = [] -> api_call s (run h p s)
| call_send s m : api_call s (sendMessage m s)
| call_close s : api_call s (close s).

(** One step of the session: a call from [main] or a completion. *)
Definition session_step (s s' : Session) : Prop := api_call s s' \/ complete s s'.

(** The states a session can reach from its construction. *)
Definition reachable (s : Session) : Prop := star session_step create s.

(** The session invariant.
    - at most one operation of the connect/read chain is pending: one
      resolve, connect, handshake or read at a time;
    - at most one write is pending, and it writes the front of the queue;
    - exactly one close operation has been started iff [hasClose_];
    - nothing is pending before anything was started. *)
Record inv (s : Session) : Prop := {
  inv_chain : count_if is_chain (pending s) <= 1;
  inv_write : count_if is_write (pending s) <= 1;
  inv_write_front : forall m, OpWrite m ∈ pending s ->
                      head (sendMessageQueue_ s) = Some m;
  inv_close : count_if is_close (issued s) = if hasClose_ s then 1 else 0;
  inv_fresh : issued s = [] -> pending s = []
}.

(** [s'] differs from [s] only outside the outbound path: same queue, same
    number of pending writes, same messages submitted to the transport. *)
Definition outbound_frame (s s' : Session) : Prop :=
  sendMessageQueue_ s' = sendMessageQueue_ s /\
  count_if is_write (pending s') = count_if is_write (pending s) /\
  writes_of (issued s') = writes_of (issued s).

(** A stalled outbound queue: messages are waiting but no write is pending,
    so nothing will ever start one (see [doSend]). *)
Definition stalled (s : Session) : Prop :=
  sendMessageQueue_ s <> [] /\ count_if is_write (pending s) = 0.

(** A concrete run: start, resolve, connect and handshake successfully,
    then queue two messages. *)
Definition demo_run := run "localhost" "8080" create.
Definition demo_resolved := on_resolve ec_success (retire (OpResolve "localhost" "8080") demo_run).
Definition demo_connected := on_connect ec_success (retire OpConnect demo_resolved).
Definition demo_open :=
  on_handshake ec_success
    (set_open (negb (failed ec_success) || ws_open (ws_ demo_connected))
       (retire (OpHandshake "localhost" "/") demo_connected)).
Definition demo_sent1 := sendMessage "userMsg:1" demo_open.
Definition demo_sent2 := sendMessage "userMsg:2" demo_sent1.

(** The demo connection torn down (an idle timeout) before the first
    message is queued. *)
Definition demo_stalled := sendMessage "userMsg:1" (set_open false demo_open).

(** Unfold the field updates and compute the projections. *)
Ltac unfold_session :=
  unfold issue, retire, set_ws, set_buffer, set_endpoint, set_queue, set_hasClose,
    set_recvCount, set_isConnected, push_log, set_open, fail in *; cbn in *.

Section Invariant.

(** The invariant only reads the pending set, the history, the queue and the
    close flag. *)
Lemma inv_ext s s' :
  pending s' = pending s -> issued s' = issued s ->
  sendMessageQueue_ s' = sendMessageQueue_ s -> hasClose_ s' = hasClose_ s ->
  inv s -> inv s'.
Proof.
  intros Hp Hi Hq Hc [H1 H2 H3 H4 H5]. split; rewrite ?Hp, ?Hi, ?Hq, ?Hc; done.
Qed.

Local Ltac ext := intros Hs; match goal with |- inv ?t => eapply (inv_ext _ t); [..|exact Hs]; reflexivity end.

Lemma inv_set_ws s w : inv s -> inv (set_ws w s). Proof. ext. Qed.
Lemma inv_set_buffer s b : inv s -> inv (set_buffer b s). Proof. ext. Qed.
Lemma inv_set_endpoint s h p : inv s -> inv (set_endpoint h p s). Proof. ext. Qed.
Lemma inv_set_recvCount s n : inv s -> inv (set_recvCount n s). Proof. ext. Qed.
Lemma inv_set_isConnected s b : inv s -> inv (set_isConnected b s). Proof. ext. Qed.
Lemma inv_push_log s l : inv s -> inv (push_log l s). Proof. ext. Qed.
Lemma inv_set_open s b : inv s -> inv (set_open b s). Proof. ext. Qed.
Lemma inv_fail s ec w : inv s -> inv (fail ec w s). Proof. ext. Qed.

End Invariant.

#[export] Hint Resolve inv_set_ws inv_set_buffer inv_set_endpoint inv_set_recvCount
  inv_set_isConnected inv_push_log inv_set_open inv_fail : beast.

Section Preservation.

Lemma count_if_no_write l :
  (forall m, OpWrite m ∉ l) -> count_if is_write l = 0.
Proof.
  induction l as [|o l IH]; intros Hno; simpl; [done|].
  destruct o; simpl; try (apply IH; intros m Hm; apply (Hno m); set_solver).
  exfalso. apply (Hno msg). set_solver.
Qed.

Lemma write_of_count_zero l m : count_if is_write l = 0 -> OpWrite m ∉ l.
Proof. intros H0 Hin. by pose proof (count_if_zero _ _ _ H0 Hin). Qed.

(** Retiring a pending operation keeps the invariant and frees its slot. *)
Lemma inv_retire s o :
  inv s -> o ∈ pending s ->
  inv (retire o s) /\
  (is_chain o = true -> count_if is_chain (pending (retire o s)) = 0) /\
  (is_write o = true -> count_if is_write (pending (retire o s)) = 0).
Proof.
  intros [Hc Hw Hf Hcl Hfr] Hin.
  pose proof (count_if_remove_one is_chain o _ Hin) as Ec.
  pose proof (count_if_remove_one is_write o _ Hin) as Ew.
  split; [|split]; [split|intros Ho|intros Ho]; simpl.
  - lia.
  - lia.
  - intros m Hm. by apply Hf, (elem_of_remove_one _ o).
  - done.
  - intros Hnil. by rewrite (Hfr Hnil).
  - rewrite Ho in Ec. lia.
  - rewrite Ho in Ew. lia.
Qed.

(** Starting an operation of the chain when none is pending. *)
Lemma inv_issue_chain s o :
  inv s -> is_chain o = true -> count_if is_chain (pending s) = 0 ->
  inv (issue o s).
Proof.
  intros [Hc Hw Hf Hcl Hfr] Ho H0.
  split; simpl; rewrite ?count_if_app; simpl; rewrite ?Ho.
  - lia.
  - destruct o; simpl in *; lia.
  - intros m [Heq|Hm]%elem_of_cons; [by subst o|auto].
  - destruct o; simpl in *; try done; lia.
  - intros Hnil. destruct (issued s); discriminate.
Qed.

(** Starting a write of the front of the queue when no write is pending. *)
Lemma inv_issue_write s m :
  inv s -> count_if is_write (pending s) = 0 ->
  head (sendMessageQueue_ s) = Some m ->
  inv (issue (OpWrite m) s).
Proof.
  intros [Hc Hw Hf Hcl Hfr] H0 Hhd.
  split; simpl; rewrite ?count_if_app; simpl; try lia.
  - intros m' [Heq|Hm]%elem_of_cons; [by simplify_eq|auto].
  - intros Hnil. destruct (issued s); discriminate.
Qed.

Lemma inv_doSend s m :
  inv s -> count_if is_write (pending s) = 0 ->
  head (sendMessageQueue_ s) = Some m -> inv (doSend m s).
Proof.
  unfold doSend. intros. destruct (negb _); [done|]. by apply inv_issue_write.
Qed.

End Preservation.

Section Handlers.

Local Ltac chain_handler :=
  intros Hs H0; repeat (case_match || case_decide);
  first [ apply inv_issue_chain; [auto with beast|done|simpl; exact H0]
        | auto with beast ].

Lemma inv_on_resolve s ec :
  inv s -> count_if is_chain (pending s) = 0 -> inv (on_resolve ec s).
Proof. unfold on_resolve. chain_handler. Qed.

Lemma inv_on_connect s ec :
  inv s -> count_if is_chain (pending s) = 0 -> inv (on_connect ec s).
Proof. unfold on_connect. chain_handler. Qed.

Lemma inv_on_handshake s ec :
  inv s -> count_if is_chain (pending s) = 0 -> inv (on_handshake ec s).
Proof. unfold on_handshake. chain_handler. Qed.

Lemma inv_on_read s ec :
  inv s -> count_if is_chain (pending s) = 0 -> inv (on_read ec s).
Proof. unfold on_read. chain_handler. Qed.

Lemma inv_on_close s ec : inv s -> inv (on_close ec s).
Proof. unfold on_close. intros Hs. case_match; auto with beast. Qed.

Lemma inv_run s h p : inv s -> issued s = [] -> inv (run h p s).
Proof.
  intros Hs Hnil. apply inv_issue_chain; [auto with beast|done|].
  simpl. by rewrite (inv_fresh _ Hs Hnil).
Qed.

Lemma inv_close_call s : inv s -> inv (close s).
Proof.
  unfold close. intros Hs. destruct (hasClose_ s) eqn:E; [done|]. destruct Hs as [Hc Hw Hf Hcl Hfr]. rewrite E in Hcl.
  split; simpl; rewrite ?count_if_app; simpl; try lia.
  - intros m [Heq|Hm]%elem_of_cons; [done|auto].
  - intros Hnil. destruct (issued s); discriminate.
Qed.

Lemma inv_sendMessage s m : inv s -> inv (sendMessage m s).
Proof.
  intros Hs. pose proof Hs as [Hc Hw Hf Hcl Hfr]. unfold sendMessage. simpl.
  destruct (sendMessageQueue_ s) as [|x q] eqn:Eq; simpl.
  - assert (Hnw : count_if is_write (pending s) = 0).
    { apply count_if_no_write. intros m' Hm'. specialize (Hf m' Hm').
      done. }
    apply inv_doSend; [|exact Hnw|done].
    split; simpl; try done. intros m' Hm'. by destruct (write_of_count_zero _ m' Hnw).
  - rewrite length_app. simpl. destruct (_ <=? _)%nat eqn:Hl; try (apply Nat.leb_le in Hl; lia).
    split; simpl; done.
Qed.

(** [on_write], run when no write is pending, keeps the invariant. *)
Lemma inv_on_write s ec s' :
  inv s -> count_if is_write (pending s) = 0 -> on_write ec s = Some s' -> inv s'.
Proof.
  intros Hs H0. unfold on_write.
  destruct (sendMessageQueue_ s) as [|x q] eqn:Eq; simpl; [done|].
  intros [= <-].
  assert (Hq : inv (set_queue q s)).
  { destruct Hs as [Hc Hw Hf Hcl Hfr]. split; simpl; try done.
    intros m' Hm'. by destruct (write_of_count_zero _ m' H0). }
  assert (Hs2 : forall s2, inv s2 -> pending s2 = pending s ->
                  sendMessageQueue_ s2 = q ->
                  inv match sendMessageQueue_ s2 with
                      | frontMsg :: _ => doSend frontMsg s2 | [] => s2 end).
  { intros s2 Hi Hp Hq2. rewrite Hq2. destruct q; [done|].
    apply inv_doSend; [done|by rewrite Hp|by rewrite Hq2]. }
  destruct (failed ec); [case_decide|]; apply Hs2; auto with beast.
Qed.

(** [pop_front] is never reached with an empty queue: a pending write
    guarantees a front element. *)
Lemma on_write_defined s ec m :
  inv s -> OpWrite m ∈ pending s -> exists s', on_write ec (retire (OpWrite m) s) = Some s'.
Proof.
  intros Hs Hin. pose proof (inv_write_front _ Hs m Hin) as Hhd.
  unfold on_write. simpl. destruct (sendMessageQueue_ s); [done|]. by eexists.
Qed.

End Handlers.

Section Reachable.

Lemma inv_create : inv create.
Proof. split; simpl; try done; try lia. intros m Hm. by apply elem_of_nil in Hm. Qed.

Lemma complete_preserves_inv s s' : inv s -> complete s s' -> inv s'.
Proof.
  intros Hs Hc. destruct Hc as [s h p ec Hin|s ec Hin|s h t ec Hin|s data Hin
                                 |s ec Hin _|s m ec s' Hin Hw|s c ec Hin|s].
  - destruct (inv_retire _ _ Hs Hin) as (Hr & Hc0 & _). by apply inv_on_resolve, Hc0.
  - destruct (inv_retire _ _ Hs Hin) as (Hr & Hc0 & _). by apply inv_on_connect, Hc0.
  - destruct (inv_retire _ _ Hs Hin) as (Hr & Hc0 & _).
    apply inv_on_handshake; [auto with beast|]. simpl. by apply Hc0.
  - destruct (inv_retire _ _ Hs Hin) as (Hr & Hc0 & _).
    apply inv_on_read; [auto with beast|]. simpl. by apply Hc0.
  - destruct (inv_retire _ _ Hs Hin) as (Hr & Hc0 & _). by apply inv_on_read, Hc0.
  - destruct (inv_retire _ _ Hs Hin) as (Hr & _ & Hw0).
    by eapply inv_on_write; [exact Hr|apply Hw0|].
  - destruct (inv_retire _ _ Hs Hin) as (Hr & _). auto using inv_on_close with beast.
  - auto with beast.
Qed.

Lemma api_preserves_inv s s' : inv s -> api_call s s' -> inv s'.
Proof.
  intros Hs Ha. destruct Ha as [s h p Hnil|s m|s].
  - by apply inv_run.
  - by apply inv_sendMessage.
  - by apply inv_close_call.
Qed.

Lemma step_preserves_inv s s' : inv s -> session_step s s' -> inv s'.
Proof.
  intros Hs [Ha|Hc]; eauto using api_preserves_inv, complete_preserves_inv.
Qed.

Lemma reachable_inv s : reachable s -> inv s.
Proof.
  intros Hr. apply (star_invariant _ inv step_preserves_inv create); [done|].
  exact inv_create.
Qed.

End Reachable.

Section Demo.


Lemma demo_sent2_reachable : reachable demo_sent2.
Proof.
  apply (star_step _ _ demo_run); [left; apply call_run; reflexivity|].
  apply (star_step _ _ demo_resolved);
    [right; apply (cpl_resolve demo_run "localhost" "8080" ec_success); in_list|].
  apply (star_step _ _ demo_connected);
    [right; apply (cpl_connect demo_resolved ec_success); in_list|].
  apply (star_step _ _ demo_open);
    [right; apply (cpl_handshake demo_connected "localhost" "/" ec_success); in_list|].
  apply (star_step _ _ demo_sent1); [left; apply call_send|].
  apply star_one. left; apply call_send.
Qed.

Lemma demo_sent2_state :
  pending demo_sent2 = [OpWrite "userMsg:1"; OpRead] /\
  sendMessageQueue_ demo_sent2 = ["userMsg:1"; "userMsg:2"] /\
  isConnected_ demo_sent2 = true.
Proof. vm_compute. auto. Qed.

End Demo.

Section Frame.

Lemma frame_refl s : outbound_frame s s.
Proof. done. Qed.

Lemma frame_trans s1 s2 s3 :
  outbound_frame s1 s2 -> outbound_frame s2 s3 -> outbound_frame s1 s3.
Proof. intros (?&?&?) (?&?&?). split_and!; congruence. Qed.

Local Ltac frame_tac :=
  repeat (case_match || case_decide); split_and!; simpl;
  autorewrite with beast_rw; simpl; rewrite ?app_nil_r; done.

Lemma frame_on_resolve s ec : outbound_frame s (on_resolve ec s).
Proof. unfold on_resolve, fail. frame_tac. Qed.
Lemma frame_on_connect s ec : outbound_frame s (on_connect ec s).
Proof. unfold on_connect, fail. frame_tac. Qed.
Lemma frame_on_handshake s ec : outbound_frame s (on_handshake ec s).
Proof. unfold on_handshake, fail. frame_tac. Qed.
Lemma frame_on_read s ec : outbound_frame s (on_read ec s).
Proof. unfold on_read, fail. frame_tac. Qed.
Lemma frame_on_close s ec : outbound_frame s (on_close ec s).
Proof. unfold on_close, fail. frame_tac. Qed.
Lemma frame_close s : outbound_frame s (close s).
Proof. unfold close. frame_tac. Qed.
Lemma frame_run s h p : outbound_frame s (run h p s).
Proof. unfold run. frame_tac. Qed.
Lemma frame_set_open s b : outbound_frame s (set_open b s).
Proof. frame_tac. Qed.
Lemma frame_set_buffer s b : outbound_frame s (set_buffer b s).
Proof. frame_tac. Qed.

Lemma frame_retire s o :
  o ∈ pending s -> is_write o = false -> outbound_frame s (retire o s).
Proof.
  intros Hin Ho. split_and!; simpl; [done| |done].
  rewrite (count_if_remove_one is_write o _ Hin), Ho. lia.
Qed.

Lemma sendMessage_nonempty s m :
  sendMessageQueue_ s <> [] -> sendMessage m s = set_queue (sendMessageQueue_ s ++ [m]) s.
Proof.
  intros Hq. unfold sendMessage. unfold_session.
  destruct (sendMessageQueue_ s) as [|x q]; [done|].
  rewrite length_app. simpl. by rewrite Nat.add_comm.
Qed.

Lemma sendMessage_empty s m :
  sendMessageQueue_ s = [] -> sendMessage m s = doSend m (set_queue [m] s).
Proof. intros Hq. unfold sendMessage. unfold_session. by rewrite Hq. Qed.

(** [sendMessage] appends and touches no counter. *)
Lemma sendMessage_fields s m :
  sendMessageQueue_ (sendMessage m s) = sendMessageQueue_ s ++ [m] /\
  recvCount_ (sendMessage m s) = recvCount_ s.
Proof. unfold sendMessage, doSend. repeat case_match; by unfold_session. Qed.

(** [on_write] on a queue [m :: q]: the popped state [s2] (with the error
    logged) followed by the send of the next front. *)
Lemma on_write_cons s ec m q :
  sendMessageQueue_ s = m :: q ->
  exists s2, sendMessageQueue_ s2 = q /\ pending s2 = pending s /\
    issued s2 = issued s /\ ws_ s2 = ws_ s /\
    on_write ec s = Some (match q with m' :: _ => doSend m' s2 | [] => s2 end).
Proof.
  intros Hq. unfold on_write. rewrite Hq. simpl.
  destruct (failed ec); [case_decide|];
    [exists (push_log LogIdleTimeoutWrite (fail ec "write" (set_queue q s)))
    |exists (fail ec "write" (set_queue q s))
    |exists (set_queue q s)]; by unfold_session.
Qed.

(** Completions never touch the close flag. *)
Lemma complete_hasClose s s' : complete s s' -> hasClose_ s' = hasClose_ s.
Proof.
  destruct 1 as [| | | | |s m ec s' Hin Hw| |];
    [| | | | |unfold on_write, doSend in Hw| |];
    unfold on_resolve, on_connect, on_handshake, on_read, on_close, fail in *;
    repeat (case_match || case_decide); simplify_eq; unfold_session; auto.
Qed.

(** With nothing pending, the only event is a teardown of the stream. *)
Lemma complete_idle s s' : pending s = [] -> complete s s' -> s' = set_open false s.
Proof.
  intros Hnil Hc.
  destruct Hc as [s h p ec Hin|s ec Hin|s h t ec Hin|s data Hin|s ec Hin _
                 |s m ec s' Hin _|s c ec Hin|s];
    try (rewrite Hnil in Hin; by apply elem_of_nil in Hin). done.
Qed.

End Frame.

#[export] Hint Resolve frame_refl frame_on_resolve frame_on_connect frame_on_handshake
  frame_on_read frame_on_close frame_close frame_run frame_set_open frame_set_buffer : beast.

(** A completion is either a write's, running [on_write], or leaves the
    outbound path alone. *)
Lemma complete_cases s s' :
  complete s s' ->
  outbound_frame s s' \/
  exists m ec, OpWrite m ∈ pending s /\ on_write ec (retire (OpWrite m) s) = Some s'.
Proof.
  intros Hc.
  destruct Hc as [s h p ec Hin|s ec Hin|s h t ec Hin|s data Hin
                 |s ec Hin _|s m ec s' Hin Hw|s c ec Hin|s];
    [..|by right; exists m, ec| |left; auto with beast]; left;
    (eapply frame_trans; [apply frame_retire; [exact Hin|done]|]);
    repeat (eapply frame_trans; [|first [ apply frame_on_resolve | apply frame_on_connect
      | apply frame_on_handshake | apply frame_on_read | apply frame_on_close ]]);
    auto with beast.
Qed.

Lemma frame_complete_non_write s s' :
  complete s s' -> (forall m, OpWrite m ∉ pending s) -> outbound_frame s s'.
Proof.
  intros Hc Hnw. destruct (complete_cases s s' Hc) as [|(m & ec & Hin & _)]; [done|].
  by destruct (Hnw m Hin).
Qed.

Section Properties.

(** C4: In every reachable state of a session at most one write is
    pending, and the pending write carries the message at the front of
    [sendMessageQueue_]: the queue serialises the writes. *)
Theorem single_write_in_flight s :
  reachable s ->
  count_if is_write (pending s) <= 1 /\
  (forall m, OpWrite m ∈ pending s -> head (sendMessageQueue_ s) = Some m).
Proof. intros Hr. destruct (reachable_inv s Hr). auto. Qed.

(** Witness on the demo run: two messages queued, one write pending. *)
Lemma single_write_in_flight_witness :
  reachable demo_sent2 /\ count_if is_write (pending demo_sent2) <= 1.
Proof.
  split; [exact demo_sent2_reachable|].
  apply (single_write_in_flight demo_sent2 demo_sent2_reachable).
Defined.

(** C9: In every reachable state at most one operation of the
    resolve/connect/handshake/read chain is pending; in particular there is
    never more than one outstanding read. *)
Theorem single_chain_op_in_flight s :
  reachable s -> count_if is_chain (pending s) <= 1.
Proof. intros Hr. apply (inv_chain _ (reachable_inv s Hr)). Qed.

Lemma single_chain_op_in_flight_witness :
  reachable demo_sent2 /\ count_if is_chain (pending demo_sent2) <= 1.
Proof.
  split; [exact demo_sent2_reachable|].
  apply (single_chain_op_in_flight demo_sent2 demo_sent2_reachable).
Defined.

(** C5: In every reachable state the session has started exactly one close
    handshake if [hasClose_] is set and none otherwise: however often
    [close()] is called, at most one close frame is sent. *)
Theorem close_frame_once s :
  reachable s -> count_if is_close (issued s) = if hasClose_ s then 1 else 0.
Proof. intros Hr. apply (inv_close _ (reachable_inv s Hr)). Qed.

Lemma close_frame_once_witness :
  reachable (close (close demo_sent2)) /\
  count_if is_close (issued (close (close demo_sent2))) = 1.
Proof.
  assert (Hr : reachable (close (close demo_sent2))).
  { eapply star_trans; [exact demo_sent2_reachable|].
    eapply star_step; [left; apply call_close|].
    eapply star_step; [left; apply call_close|]. apply star_refl. }
  split; [exact Hr|]. rewrite (close_frame_once _ Hr). reflexivity.
Defined.

(** [close()] is idempotent: a second call changes nothing, neither
    the session's state nor the operations started. *)
Theorem close_idempotent s : close (close s) = close s.
Proof. unfold close. destruct (hasClose_ s) eqn:E; [by rewrite E|done]. Qed.

(** C10: When a write completes, its handler's [pop_front] always finds a
    message: [on_write] never reaches the undefined behaviour of popping an
    empty [std::list]. *)
Theorem on_write_never_ub s m ec :
  reachable s -> OpWrite m ∈ pending s ->
  exists s', on_write ec (retire (OpWrite m) s) = Some s'.
Proof. intros Hr Hin. exact (on_write_defined s ec m (reachable_inv s Hr) Hin). Qed.

Lemma on_write_never_ub_witness :
  exists s', on_write ec_timeout (retire (OpWrite "userMsg:1") demo_sent2) = Some s'.
Proof.
  apply (on_write_never_ub demo_sent2 "userMsg:1" ec_timeout demo_sent2_reachable).
  apply list_elem_of_In. vm_compute. tauto.
Defined.

End Properties.

Section Behaviour.

(** [isConnected_] is an [ever connected] flag: once set, no call and
    no completion clears it. *)
Theorem isConnected_monotone s s' :
  session_step s s' -> isConnected_ s = true -> isConnected_ s' = true.
Proof.
  intros [Ha|Hc] Hs.
  - destruct Ha; unfold run, sendMessage, close, doSend;
      repeat (case_match || case_decide); simpl in *; auto.
  - destruct Hc as [| | | | |s0 m ec s1 Hin Hw| |];
      unfold on_resolve, on_connect, on_handshake, on_read, on_close, fail in *;
      [| | | | |unfold on_write, doSend in Hw| |];
      repeat (case_match || case_decide); simplify_eq; simpl in *; auto.
Qed.

Lemma isConnected_monotone_witness :
  session_step demo_sent1 demo_sent2 /\ isConnected_ demo_sent2 = true.
Proof.
  assert (Hst : session_step demo_sent1 demo_sent2) by (left; apply call_send).
  split; [exact Hst|]. apply (isConnected_monotone demo_sent1); [exact Hst|reflexivity].
Defined.

(** C26: [on_read] on every branch: an error is logged (a timeout with the
    extra idle-timeout line) and leaves the count alone, a message
    increments [recvCount_] and is printed with the new total; in both cases
    a new read is started exactly when the stream is still open. *)
Theorem on_read_spec s ec :
  let s' := on_read ec s in
  recvCount_ s' = (if failed ec then recvCount_ s else recvCount_ s + 1)%Z /\
  log s' = log s ++
    (if failed ec then
       LogFail "read" ec :: (if decide (ec = ec_timeout) then [LogIdleTimeoutRead] else [])
     else [LogRecv (buffer_ s) (recvCount_ s + 1)%Z]) /\
  pending s' = (if ws_open (ws_ s) then OpRead :: pending s else pending s) /\
  sendMessageQueue_ s' = sendMessageQueue_ s.
Proof.
  unfold on_read. destruct (failed ec); [case_decide|]; unfold_session;
    destruct (ws_open (ws_ s)); cbn; rewrite <-?app_assoc; done.
Qed.

(** C29: [sendMessage] appends the message to the queue, and starts a write
    (of that message) exactly when the queue was empty and the stream is
    open. *)
Theorem sendMessage_spec s m :
  let s' := sendMessage m s in
  sendMessageQueue_ s' = sendMessageQueue_ s ++ [m] /\
  pending s' = (if bool_decide (sendMessageQueue_ s = []) && ws_open (ws_ s)
                then OpWrite m :: pending s else pending s) /\
  issued s' = (if bool_decide (sendMessageQueue_ s = []) && ws_open (ws_ s)
               then issued s ++ [OpWrite m] else issued s).
Proof.
  unfold sendMessage, doSend. simpl.
  destruct (sendMessageQueue_ s) as [|x q]; simpl;
    [|rewrite length_app; simpl; destruct (_ <=? _)%nat eqn:Hl; [apply Nat.leb_le in Hl; lia|]];
    destruct (ws_open (ws_ s)); done.
Qed.

(** C30: [on_write] pops the front of the queue whatever the outcome of the
    write (a failed message is dropped, never retried), and starts the write
    of the next message when there is one and the stream is open. *)
Theorem on_write_spec s ec m q :
  sendMessageQueue_ s = m :: q ->
  exists s', on_write ec s = Some s' /\
    sendMessageQueue_ s' = q /\
    pending s' = (match q with m' :: _ => if ws_open (ws_ s) then OpWrite m' :: pending s
                                         else pending s
                              | [] => pending s end).
Proof.
  intros Hq. unfold on_write, doSend, fail. rewrite Hq. simpl. eexists. split; [done|].
  destruct (failed ec); [case_decide|]; destruct q; simpl; try done;
    destruct (ws_open (ws_ s)); done.
Qed.

Lemma on_write_spec_witness :
  sendMessageQueue_ demo_sent2 = ["userMsg:1"; "userMsg:2"] /\
  exists s', on_write ec_success demo_sent2 = Some s' /\
    sendMessageQueue_ s' = ["userMsg:2"] /\
    pending s' = (if ws_open (ws_ demo_sent2) then OpWrite "userMsg:2" :: pending demo_sent2
                  else pending demo_sent2).
Proof.
  split; [reflexivity|].
  apply (on_write_spec demo_sent2 ec_success "userMsg:1" ["userMsg:2"]). reflexivity.
Defined.

End Behaviour.

Section Stall.

Lemma stalled_step s s' :
  stalled s -> session_step s s' ->
  stalled s' /\ writes_of (issued s') = writes_of (issued s).
Proof.
  intros [Hq H0] Hst.
  assert (Hfr : outbound_frame s s' -> stalled s' /\ writes_of (issued s') = writes_of (issued s)).
  { intros (E1 & E2 & E3). split; [split|]; congruence. }
  destruct Hst as [Ha|Hc].
  - destruct Ha as [s h p _|s m|s]; [apply Hfr; auto with beast| |apply Hfr; auto with beast].
    rewrite (sendMessage_nonempty s m Hq). unfold_session.
    split; [split|]; [by destruct (sendMessageQueue_ s)|done|done].
  - apply Hfr, frame_complete_non_write; [exact Hc|].
    intros m. by apply write_of_count_zero.
Qed.

(** C11: Once the queue is stalled (messages waiting, no write pending),
    which happens when [doSend] finds the stream closed, no later call or
    completion ever submits another message: [sendMessage] only appends
    behind the stuck front, and the stream never reopens the queue.  The
    messages are silently kept forever. *)
Theorem stalled_queue_never_sends s s' :
  stalled s -> s -[session_step]->* s' ->
  stalled s' /\ writes_of (issued s') = writes_of (issued s).
Proof.
  intros Hs Hst. revert Hs. induction Hst as [a|a b c Hab Hbc IH]; intros Ha; [done|].
  destruct (stalled_step a b Ha Hab) as [Hb Eb].
  destruct (IH Hb) as [Hc Ec]. split; [done|congruence].
Qed.

Lemma stalled_queue_never_sends_witness :
  stalled demo_stalled /\
  writes_of (issued (sendMessage "userMsg:2" demo_stalled)) = writes_of (issued demo_stalled).
Proof.
  assert (Hs : stalled demo_stalled) by (split; vm_compute; [discriminate|reflexivity]).
  split; [exact Hs|].
  refine (proj2 (stalled_queue_never_sends demo_stalled _ Hs _)).
  apply star_one. left. apply call_send.
Defined.

End Stall.

End WebsocketSession.
