(* ===== verification/Outbound.v ===== *)
(** * The outbound queue refines a FIFO channel

    The spec (§4.3) promises that [sendMessage] and [on_write] together
    deliver the application's messages to the transport in the order they
    were queued, one write at a time.  [FifoSpec] states that contract as an
    abstract channel: a list of messages already handed to the transport and
    a backlog; the application appends to the backlog, the transport takes
    its head.  The abstraction function [abs] maps a session to the channel:
    delivered = the payloads of every [async_write] started so far
    ([writes_of issued]); backlog = the queue without the message whose write
    is in flight.  [outbound_refinement] shows that every step of the session
    is matched by steps of the channel with the same label, so every
    execution of the session is one of the channel, and [fifo_order] follows:
    the messages submitted to the transport are a prefix of the messages
    queued, in queue order. *)

From stdpp Require Import base list sets strings.
From Stdlib Require Import ZArith Lia.
From S2P Require Import Prelude Net Session.
Local Open Scope beast_scope.
Import WebsocketSession.

Module FifoSpec.

Record chan := mkChan { delivered : list string; backlog : list string }.

(** The application queues a message. *)
Definition enqueue (m : string) (c : chan) : chan := mkChan (delivered c) (backlog c ++ [m]).

(** The transport takes the oldest queued message. *)
Inductive transmit : chan -> chan -> Prop :=
| transmit_head c m b : backlog c = m :: b -> transmit c (mkChan (delivered c ++ [m]) b).

(** A labelled step: [Some m] queues [m] and then lets the transport work;
    [None] only lets the transport work. *)
Definition lstep (c : chan) (l : option string) (c' : chan) : Prop :=
  match l with
  | Some m => star transmit (enqueue m c) c'
  | None => star transmit c c'
  end.

Definition content (c : chan) : list string := delivered c ++ backlog c.

End FifoSpec.

(** The queued messages not yet handed to the transport. *)
Definition unsent (s : Session) : list string :=
  if (0 <? count_if is_write (pending s))%nat then tail (sendMessageQueue_ s)
  else sendMessageQueue_ s.

Definition abs (s : Session) : FifoSpec.chan :=
  FifoSpec.mkChan (writes_of (issued s)) (unsent s).

(** The session's steps labelled with the message [main] queues, if any. *)
Inductive lstep : Session -> option string -> Session -> Prop :=
| lstep_send s m : lstep s (Some m) (sendMessage m s)
| lstep_run s h p : issued s = [] -> lstep s None (run h p s)
| lstep_close s : lstep s None (close s)
| lstep_complete s s' : complete s s' -> lstep s None s'.

Section Spec.

Lemma transmit_content c c' : FifoSpec.transmit c c' -> FifoSpec.content c' = FifoSpec.content c.
Proof.
  intros [c0 m b Hb]. unfold FifoSpec.content. simpl. rewrite Hb, <-app_assoc. done.
Qed.

Lemma transmits_content c c' :
  star FifoSpec.transmit c c' -> FifoSpec.content c' = FifoSpec.content c.
Proof. induction 1 as [|a b c Hab _ IH]; [done|]. rewrite IH. by apply transmit_content. Qed.

Lemma transmits_delivered c c' :
  star FifoSpec.transmit c c' -> FifoSpec.delivered c `prefix_of` FifoSpec.delivered c'.
Proof.
  induction 1 as [|a b c [a0 m b0 _] _ IH]; [done|].
  etrans; [|exact IH]. simpl. by apply prefix_app_r.
Qed.

(** The channel only ever appends what the application queues. *)
Lemma spec_lstep_content c l c' :
  FifoSpec.lstep c l c' -> FifoSpec.content c' = FifoSpec.content c ++ label_list l.
Proof.
  destruct l as [m|]; simpl; intros H; apply transmits_content in H; rewrite H;
    unfold FifoSpec.content; simpl; rewrite ?app_assoc, ?app_nil_r; done.
Qed.

Lemma spec_lstar_content c ls c' :
  lstar FifoSpec.lstep c ls c' -> FifoSpec.content c' = FifoSpec.content c ++ ls.
Proof.
  induction 1 as [|a l b ls c Hab _ IH]; [by rewrite app_nil_r|].
  rewrite IH, (spec_lstep_content _ _ _ Hab), app_assoc. done.
Qed.

Lemma spec_lstar_delivered c ls c' :
  lstar FifoSpec.lstep c ls c' -> FifoSpec.delivered c `prefix_of` FifoSpec.delivered c'.
Proof.
  induction 1 as [|a l b ls c Hab _ IH]; [done|]. etrans; [|exact IH].
  destruct l; simpl in Hab; apply transmits_delivered in Hab; [|done]. done.
Qed.

End Spec.

Section Refinement.

Lemma abs_frame s s' : outbound_frame s s' -> abs s' = abs s.
Proof. intros (Eq & Ew & Ei). unfold abs, unsent. by rewrite Eq, Ew, Ei. Qed.

(** Under the invariant the backlog is the queue minus its front exactly when
    a write is pending. *)
Lemma write_count_one s m :
  inv s -> OpWrite m ∈ pending s -> count_if is_write (pending s) = 1.
Proof.
  intros Hs Hin. pose proof (inv_write _ Hs). pose proof (count_if_pos is_write _ _ Hin eq_refl). lia.
Qed.

Lemma write_count_empty_queue s :
  inv s -> sendMessageQueue_ s = [] -> count_if is_write (pending s) = 0.
Proof.
  intros Hs Hq. apply count_if_no_write. intros m Hm.
  pose proof (inv_write_front _ Hs m Hm) as Hh. by rewrite Hq in Hh.
Qed.

Lemma abs_doSend_open s m q :
  ws_open (ws_ s) = true -> count_if is_write (pending s) = 0 -> sendMessageQueue_ s = m :: q ->
  abs (doSend m s) = FifoSpec.mkChan (writes_of (issued s) ++ [m]) q.
Proof.
  intros Ho H0 Hq. unfold doSend. rewrite Ho. simpl. unfold abs, unsent. unfold_session.
  by rewrite Hq, writes_of_app.
Qed.

Lemma abs_doSend_closed s m :
  ws_open (ws_ s) = false -> doSend m s = s.
Proof. intros Ho. unfold doSend. by rewrite Ho. Qed.

Lemma refine_sendMessage s m :
  inv s -> FifoSpec.lstep (abs s) (Some m) (abs (sendMessage m s)).
Proof.
  intros Hs. simpl. destruct (sendMessageQueue_ s) as [|x q] eqn:Eq.
  - pose proof (write_count_empty_queue s Hs Eq) as H0.
    rewrite (sendMessage_empty s m Eq).
    assert (Habs : abs s = FifoSpec.mkChan (writes_of (issued s)) []).
    { unfold abs, unsent. by rewrite H0, Eq. }
    rewrite Habs. destruct (ws_open (ws_ s)) eqn:Eo.
    + rewrite (abs_doSend_open _ m []); [|done|by unfold_session|by unfold_session].
      apply star_one. unfold set_queue, FifoSpec.enqueue. cbn.
      by apply (FifoSpec.transmit_head (FifoSpec.mkChan (writes_of (issued s)) [m]) m []).
    + rewrite abs_doSend_closed; [|by unfold_session].
      unfold abs, unsent. unfold_session. rewrite H0. apply star_refl.
  - rewrite (sendMessage_nonempty s m); [|by rewrite Eq].
    replace (abs (set_queue _ s)) with (FifoSpec.enqueue m (abs s)); [apply star_refl|].
    unfold abs, unsent, FifoSpec.enqueue. unfold_session. rewrite Eq. simpl.
    by case_match.
Qed.

Lemma refine_on_write s m ec s' :
  inv s -> OpWrite m ∈ pending s -> on_write ec (retire (OpWrite m) s) = Some s' ->
  star FifoSpec.transmit (abs s) (abs s').
Proof.
  intros Hs Hin Hw.
  destruct (sendMessageQueue_ s) as [|x q] eqn:Eq;
    [by pose proof (inv_write_front _ Hs m Hin) as Hh; rewrite Eq in Hh|].
  pose proof (inv_write_front _ Hs m Hin) as Hh. rewrite Eq in Hh. injection Hh as ->.
  destruct (inv_retire s (OpWrite m) Hs Hin) as (_ & _ & Hr0). specialize (Hr0 eq_refl).
  destruct (on_write_cons (retire (OpWrite m) s) ec m q) as (s2 & Hq2 & Hp2 & Hi2 & Hw2 & E);
    [by unfold_session|].
  rewrite E in Hw. injection Hw as <-.
  assert (Habs : abs s = FifoSpec.mkChan (writes_of (issued s)) q).
  { unfold abs, unsent. by rewrite (write_count_one s m Hs Hin), Eq. }
  rewrite Habs. destruct q as [|m' q'].
  - replace (abs s2) with (FifoSpec.mkChan (writes_of (issued s)) []); [apply star_refl|].
    unfold abs, unsent. rewrite Hp2, Hi2, Hq2. unfold_session. by rewrite Hr0.
  - destruct (ws_open (ws_ s2)) eqn:Eo.
    + rewrite (abs_doSend_open _ m' q'); [|done|by rewrite Hp2; unfold_session|done].
      rewrite Hi2. apply star_one. unfold retire. cbn.
      by apply (FifoSpec.transmit_head (FifoSpec.mkChan _ (m' :: q')) m' q').
    + rewrite abs_doSend_closed; [|done].
      replace (abs s2) with (FifoSpec.mkChan (writes_of (issued s)) (m' :: q')); [apply star_refl|].
      unfold abs, unsent. rewrite Hp2, Hi2, Hq2. unfold_session. by rewrite Hr0.
Qed.

End Refinement.

Section Properties.

(** Every step of a session that satisfies the invariant keeps the invariant
    and is matched, through [abs], by steps of [FifoSpec] with the same
    label: [sendMessage m] queues [m] (and possibly hands it to the transport
    at once), a write completion hands over at most the next message, and
    every other call or completion leaves the channel unchanged. *)
Lemma refine_step s l s' :
  inv s -> lstep s l s' -> inv s' /\ FifoSpec.lstep (abs s) l (abs s').
Proof.
  intros Hs Hst. destruct Hst as [s m|s h p Hnil|s|s s' Hc].
  - split; [by apply inv_sendMessage|by apply refine_sendMessage].
  - split; [by apply inv_run|]. simpl. rewrite (abs_frame _ _ (frame_run s h p)). apply star_refl.
  - split; [by apply inv_close_call|]. simpl. rewrite (abs_frame _ _ (frame_close s)). apply star_refl.
  - split; [by apply (complete_preserves_inv s)|]. simpl.
    destruct (complete_cases s s' Hc) as [Hf|(m & ec & Hin & Hw)].
    + rewrite (abs_frame _ _ Hf). apply star_refl.
    + by apply (refine_on_write s m ec).
Qed.

(** C2: Refinement of the FIFO channel.  Every execution of a session
    from a state satisfying the invariant, in which [main] queues the
    messages [ms], is mapped by [abs] to an execution of [FifoSpec] with the
    same messages queued, ending in the image of the final state, and the
    invariant holds at the end. *)
Theorem outbound_refinement s ms s' :
  inv s -> lstar lstep s ms s' ->
  lstar FifoSpec.lstep (abs s) ms (abs s') /\ inv s'.
Proof.
  intros Hs Hx.
  exact (lstar_simulation lstep FifoSpec.lstep (lstar FifoSpec.lstep) inv abs
           (lstar_refl _) (lstar_step _) refine_step s ms s' Hx Hs).
Qed.

Lemma outbound_refinement_witness :
  inv demo_sent1 /\
  lstar FifoSpec.lstep (abs demo_sent1) ["userMsg:2"] (abs demo_sent2).
Proof.
  assert (Hi : inv demo_sent1).
  { apply reachable_inv. eapply star_right; [|left; apply call_send].
    eapply star_step; [left; apply call_run; reflexivity|].
    eapply star_step; [right; apply (cpl_resolve demo_run "localhost" "8080" ec_success); in_list|].
    eapply star_step; [right; apply (cpl_connect demo_resolved ec_success); in_list|].
    eapply star_step; [right; apply (cpl_handshake demo_connected "localhost" "/" ec_success); in_list|].
    apply star_refl. }
  split; [exact Hi|].
  refine (proj1 (outbound_refinement demo_sent1 ["userMsg:2"] demo_sent2 Hi _)).
  apply (lstar_step _ _ (Some "userMsg:2") _ _ _ (lstep_send demo_sent1 "userMsg:2")).
  apply lstar_refl.
Defined.

(** C1: FIFO order.  Along any execution of a session from its
    construction in which [main] queues the messages [ms] (in that order),
    the messages submitted to the transport followed by those still waiting
    are exactly [ms]; in particular the submitted messages are a prefix of
    [ms]: nothing is reordered, duplicated or invented. *)
Theorem fifo_order ms s :
  lstar lstep create ms s ->
  writes_of (issued s) ++ unsent s = ms /\ writes_of (issued s) `prefix_of` ms.
Proof.
  intros Hx.
  destruct (lstar_simulation lstep FifoSpec.lstep (lstar FifoSpec.lstep) inv abs
              (lstar_refl _) (lstar_step _) refine_step create ms s Hx inv_create)
    as [Hspec _].
  pose proof (spec_lstar_content _ _ _ Hspec) as Hc.
  unfold FifoSpec.content in Hc. simpl in Hc.
  split; [exact Hc|]. rewrite <-Hc. by apply prefix_app_r.
Qed.

Lemma demo_lexec : lstar lstep create ["userMsg:1"; "userMsg:2"] demo_sent2.
Proof.
  apply (lstar_step _ _ None _ _ _ (lstep_run create "localhost" "8080" eq_refl)).
  apply (lstar_step _ _ None _ _ _ (lstep_complete _ demo_resolved
           (cpl_resolve demo_run "localhost" "8080" ec_success ltac:(in_list)))).
  apply (lstar_step _ _ None _ _ _ (lstep_complete _ demo_connected
           (cpl_connect demo_resolved ec_success ltac:(in_list)))).
  apply (lstar_step _ _ None _ _ _ (lstep_complete _ demo_open
           (cpl_handshake demo_connected "localhost" "/" ec_success ltac:(in_list)))).
  apply (lstar_step _ _ (Some "userMsg:1") _ _ _ (lstep_send demo_open "userMsg:1")).
  apply (lstar_step _ _ (Some "userMsg:2") _ _ _ (lstep_send demo_sent1 "userMsg:2")).
  apply lstar_refl.
Qed.

Lemma fifo_order_witness :
  lstar lstep create ["userMsg:1"; "userMsg:2"] demo_sent2 /\
  writes_of (issued demo_sent2) ++ unsent demo_sent2 = ["userMsg:1"; "userMsg:2"].
Proof.
  split; [exact demo_lexec|].
  exact (proj1 (fifo_order _ _ demo_lexec)).
Defined.

End Properties.
