(* ===== verification/WriteLoop.v ===== *)
(** * Termination of the write loop

    [sendMessage] starts a write only for the first message of an empty
    queue; every later message is sent by [on_write] of the previous one
    (src/beast_issue_client.cpp, lines 169-212).  The loop of writes
    therefore lives in the completions: here the library completes the write
    in flight [length queue] times in a row, each time with an arbitrary
    error code ([drain]).  While the stream stays open the queue empties in
    exactly that many completions, whatever the codes: the length of the
    queue is the variant, one per completion, since [on_write] pops the
    front even when the write failed (no retry).  The transport receives the
    rest of the queue in order. *)

From stdpp Require Import base list sets strings.
From Stdlib Require Import ZArith Lia.
From S2P Require Import Prelude Net Session Outbound.
Local Open Scope beast_scope.

Import WebsocketSession.

(** The library completes the pending write (the front of the queue) with
    the first code of [ecs], runs [on_write], and so on. *)
Fixpoint drain (ecs : list error_code) (s : Session) : option Session :=
  match ecs with
  | [] => Some s
  | ec :: ecs' =>
      match sendMessageQueue_ s with
      | m :: _ =>
          match on_write ec (retire (OpWrite m) s) with
          | Some s' => drain ecs' s'
          | None => None
          end
      | [] => None
      end
  end.

(** The front of the queue is being written (the queue is not stalled). *)
Definition front_in_flight (s : Session) : Prop :=
  forall m, head (sendMessageQueue_ s) = Some m -> OpWrite m ∈ pending s.

Section Drain.

(** One completion of the front's write on an open stream: the queue loses
    its front, the next message is submitted, nothing else of the outbound
    path changes. *)
Lemma write_completion s ec m q :
  inv s -> ws_open (ws_ s) = true -> sendMessageQueue_ s = m :: q -> OpWrite m ∈ pending s ->
  exists s', on_write ec (retire (OpWrite m) s) = Some s' /\ complete s s' /\ inv s' /\
    sendMessageQueue_ s' = q /\ ws_open (ws_ s') = true /\ front_in_flight s' /\
    writes_of (issued s') = writes_of (issued s) ++ take 1 q.
Proof.
  intros Hs Ho Hq Hin.
  destruct (on_write_cons (retire (OpWrite m) s) ec m q Hq) as (s2 & Hq2 & Hp2 & Hi2 & Hw2 & Hw).
  assert (Hc : complete s (match q with m' :: _ => doSend m' s2 | [] => s2 end))
    by (eapply cpl_write; [exact Hin|exact Hw]).
  eexists. split; [exact Hw|]. split; [exact Hc|]. split; [exact (complete_preserves_inv _ _ Hs Hc)|].
  destruct q as [|m' q']; unfold doSend; simpl in *; rewrite ?Hw2, ?Ho; simpl.
  - split_and!; [done|done| |by rewrite Hi2, app_nil_r]. intros x Hx. by rewrite Hq2 in Hx.
  - split_and!; [by rewrite Hq2|by rewrite Hw2| |].
    + intros x Hx. unfold issue in Hx. simpl in Hx. rewrite Hq2 in Hx. injection Hx as <-. apply elem_of_cons. by left.
    + by rewrite writes_of_app, Hi2.
Qed.

End Drain.

(** C8: Termination of the write loop: from any invariant state whose
    front is being written, as long as the stream stays open, the queue is
    empty after exactly as many write completions as it holds messages,
    whatever error codes the writes complete with; no write is then in
    flight, and the transport has received the rest of the queue in
    order. *)
Theorem write_loop_drains s ecs :
  inv s -> ws_open (ws_ s) = true -> front_in_flight s ->
  length ecs = length (sendMessageQueue_ s) ->
  exists s', drain ecs s = Some s' /\ star complete s s' /\
    sendMessageQueue_ s' = [] /\ count_if is_write (pending s') = 0 /\
    writes_of (issued s') = writes_of (issued s) ++ tail (sendMessageQueue_ s).
Proof.
  revert s. induction ecs as [|ec ecs IH]; intros s Hs Ho Hf Hl.
  - destruct (sendMessageQueue_ s) as [|x q] eqn:Hq; [|discriminate].
    exists s. split_and!; [done|apply star_refl|done| |by rewrite app_nil_r].
    apply count_if_no_write. intros m Hm. pose proof (inv_write_front _ Hs m Hm) as Hh.
    by rewrite Hq in Hh.
  - destruct (sendMessageQueue_ s) as [|m q] eqn:Hq; [discriminate|].
    assert (Hin : OpWrite m ∈ pending s) by (apply Hf; by rewrite Hq).
    destruct (write_completion s ec m q Hs Ho Hq Hin)
      as (s1 & Hw & Hc & Hs1 & Hq1 & Ho1 & Hf1 & Hwr1).
    simpl in Hl. injection Hl as Hl.
    destruct (IH s1 Hs1 Ho1 Hf1 ltac:(by rewrite Hq1)) as (s' & Hd & Hst & Hq' & Hnw & Hwr').
    exists s'. simpl. rewrite Hq, Hw. split_and!; [exact Hd|eapply star_step; eauto|done|done|].
    rewrite Hwr', Hwr1, Hq1, <-app_assoc. simpl. f_equal. by destruct q.
Qed.

Lemma write_loop_drains_witness :
  exists s', drain [ec_success; ec_timeout] demo_sent2 = Some s' /\
             sendMessageQueue_ s' = [].
Proof.
  destruct (write_loop_drains demo_sent2 [ec_success; ec_timeout]
              (reachable_inv _ demo_sent2_reachable) ltac:(vm_compute; reflexivity)
              ltac:(intros m Hm; vm_compute in Hm; injection Hm as <-; in_list)
              ltac:(vm_compute; reflexivity))
    as (s' & Hd & _ & Hq & _).
  exists s'. split; [exact Hd|exact Hq].
Defined.
