(* ===== verification/ReadLoop.v ===== *)
(** * The client's read loop: buffer and receive counter

    [on_handshake] and [on_read] (src/beast_issue_client.cpp, lines
    130-167) clear [buffer_] before every [async_read], and [on_read]
    increments [recvCount_] and prints the buffer with the new total for
    every message.  [read_inv] states what this buys: whenever a read is in
    flight the buffer is empty, and [recvCount_] is the number of
    ["recv:"] lines printed.  So every line prints exactly the message just
    read ([recv_line_is_frame]) and [getRecvCount()] counts the messages
    received ([recvCount_counts_lines]).  Every other handler leaves the
    buffer, the counter and the printed messages alone ([read_frame]). *)

From stdpp Require Import base list sets strings.
From Stdlib Require Import ZArith Lia.
From S2P Require Import Prelude Net Session.
Local Open Scope beast_scope.

Import WebsocketSession.

(** The messages printed by [on_read], in order. *)
Definition recv_payload (l : LogLine) : option string :=
  match l with LogRecv m _ => Some m | _ => None end.
Definition received (s : Session) : list string := omap recv_payload (log s).

Definition read_inv (s : Session) : Prop :=
  (OpRead ∈ pending s -> buffer_ s = EmptyString) /\
  recvCount_ s = Z.of_nat (length (received s)).

(** [s'] leaves the read side of [s] alone. *)
Definition read_frame (s s' : Session) : Prop :=
  received s' = received s /\ recvCount_ s' = recvCount_ s /\ buffer_ s' = buffer_ s /\
  (OpRead ∈ pending s' -> OpRead ∈ pending s).

Section ReadFrame.

Lemma read_frame_refl s : read_frame s s.
Proof. done. Qed.

Lemma read_frame_trans s1 s2 s3 : read_frame s1 s2 -> read_frame s2 s3 -> read_frame s1 s3.
Proof. intros (?&?&?&?) (?&?&?&?). split_and!; auto; congruence. Qed.

Lemma read_frame_push_log s l : recv_payload l = None -> read_frame s (push_log l s).
Proof.
  intros Hl. unfold read_frame, received. unfold_session.
  rewrite omap_app. simpl. rewrite Hl. split_and!; [by rewrite app_nil_r|done|done|done].
Qed.

Lemma read_frame_fail s ec w : read_frame s (fail ec w s).
Proof. by apply read_frame_push_log. Qed.

Lemma read_frame_issue s o : o <> OpRead -> read_frame s (issue o s).
Proof.
  intros Ho. split_and!; try done. unfold issue; simpl. intros [E|H]%elem_of_cons; [by subst|done].
Qed.

Lemma read_frame_retire s o : read_frame s (retire o s).
Proof. split_and!; try done. apply elem_of_remove_one. Qed.

Lemma read_frame_doSend s m : read_frame s (doSend m s).
Proof. unfold doSend. case_match; [apply read_frame_refl|by apply read_frame_issue]. Qed.

Local Ltac rf_tac :=
  repeat first
    [ apply read_frame_refl | apply read_frame_fail | apply read_frame_doSend
    | apply read_frame_retire
    | (eapply read_frame_trans; [|apply read_frame_push_log; done])
    | (eapply read_frame_trans; [|apply read_frame_fail])
    | (eapply read_frame_trans; [|apply read_frame_issue; done])
    | (eapply read_frame_trans; [|apply read_frame_doSend])
    | (eapply read_frame_trans; [|apply read_frame_retire])
    | (split_and!; unfold_session; done) ].

Lemma read_frame_run s h p : read_frame s (run h p s).
Proof. unfold run. rf_tac. Qed.
Lemma read_frame_on_resolve s ec : read_frame s (on_resolve ec s).
Proof. unfold on_resolve. case_match; rf_tac. Qed.
Lemma read_frame_on_connect s ec : read_frame s (on_connect ec s).
Proof. unfold on_connect. case_match; rf_tac. Qed.
Lemma read_frame_sendMessage s m : read_frame s (sendMessage m s).
Proof. unfold sendMessage. repeat case_match; rf_tac. Qed.
Lemma read_frame_on_write s ec s' : on_write ec s = Some s' -> read_frame s s'.
Proof. unfold on_write. repeat (case_match || case_decide); intros [= <-]; rf_tac. Qed.
Lemma read_frame_close s : read_frame s (close s).
Proof. unfold close. case_match; rf_tac. Qed.
Lemma read_frame_on_close s ec : read_frame s (on_close ec s).
Proof. unfold on_close. case_match; rf_tac. Qed.
Lemma read_frame_set_open s b : read_frame s (set_open b s).
Proof. rf_tac. Qed.

(** A handler run after the library retired its operation. *)
Lemma read_frame_after s o s' : read_frame (retire o s) s' -> read_frame s s'.
Proof. apply read_frame_trans, read_frame_retire. Qed.

Lemma read_frame_after_open s o b s' :
  read_frame (set_open b (retire o s)) s' -> read_frame s s'.
Proof. intros H. apply (read_frame_after _ o). eapply read_frame_trans; [|exact H]. apply read_frame_set_open. Qed.

End ReadFrame.

#[export] Hint Resolve read_frame_refl read_frame_fail read_frame_retire read_frame_doSend
  read_frame_run read_frame_on_resolve read_frame_on_connect read_frame_sendMessage
  read_frame_close read_frame_on_close read_frame_set_open : beast.

Section ReadInv.

Lemma read_inv_frame s s' : read_inv s -> read_frame s s' -> read_inv s'.
Proof.
  intros [Hb Hc] (Hr & Hc' & Hb' & Hp). split; [intros H; rewrite Hb'; auto|by rewrite Hc', Hr].
Qed.

(** Retiring the one read in flight leaves none. *)
Lemma retire_read_none s : inv s -> OpRead ∈ pending s -> OpRead ∉ pending (retire OpRead s).
Proof.
  intros Hs Hin Hin'. pose proof (inv_chain _ Hs) as Hc.
  rewrite (count_if_remove_one is_chain OpRead _ Hin) in Hc. simpl in Hc.
  pose proof (count_if_pos is_chain OpRead _ Hin' eq_refl). simpl in *. lia.
Qed.

(** [on_read] on a state with no read in flight: it prints the buffer when
    the read succeeded, and the read it re-arms finds an empty buffer. *)
Lemma on_read_read_side t ec :
  OpRead ∉ pending t ->
  (OpRead ∈ pending (on_read ec t) -> buffer_ (on_read ec t) = EmptyString) /\
  received (on_read ec t) = received t ++ (if failed ec then [] else [buffer_ t]) /\
  recvCount_ (on_read ec t) = (if failed ec then recvCount_ t else recvCount_ t + 1)%Z.
Proof.
  intros Hno. unfold on_read, received.
  destruct (failed ec); [case_decide|]; destruct (ws_open _) eqn:Ho; unfold_session;
    rewrite ?Ho; cbn; rewrite ?omap_app; cbn; rewrite ?app_nil_r, <-?app_assoc;
    split_and!; auto; intros Hin; exfalso; apply Hno; exact Hin.
Qed.

Lemma read_inv_complete s s' : inv s -> read_inv s -> complete s s' -> read_inv s'.
Proof.
  intros Hs Hr Hc. pose proof Hr as [Hb Hn].
  destruct Hc as [s h p ec Hin|s ec Hin|s h t ec Hin|s d Hin|s ec Hin Hfe
                 |s m ec s' Hin Hw|s c ec Hin|s].
  - apply (read_inv_frame _ _ Hr), (read_frame_after _ (OpResolve h p)); auto with beast.
  - apply (read_inv_frame _ _ Hr), (read_frame_after _ OpConnect); auto with beast.
  - unfold on_handshake. destruct (failed ec).
    + apply (read_inv_frame _ _ Hr), (read_frame_after_open _ (OpHandshake h t) (negb true || ws_open (ws_ s))).
      auto with beast.
    + split; [by unfold_session|]. by unfold_session.
  - pose proof (retire_read_none _ Hs Hin) as Hno.
    destruct (on_read_read_side (set_buffer (buffer_ s +:+ d) (retire OpRead s)) ec_success Hno)
      as (Hb' & Hr' & Hc'). split; [exact Hb'|]. rewrite Hc', Hr'.
    change (recvCount_ s + 1 = Z.of_nat (length (received s ++ [buffer_ s +:+ d])))%Z.
    rewrite length_app. simpl. lia.
  - pose proof (retire_read_none _ Hs Hin) as Hno.
    destruct (on_read_read_side (retire OpRead s) ec Hno) as (Hb' & Hr' & Hc').
    rewrite Hfe in Hr', Hc'. split; [exact Hb'|]. rewrite Hc', Hr', app_nil_r. exact Hn.
  - apply (read_inv_frame _ _ Hr). eapply read_frame_trans; [apply read_frame_retire|].
    by eapply read_frame_on_write.
  - apply (read_inv_frame _ _ Hr), (read_frame_after_open _ (OpClose c) false); auto with beast.
  - apply (read_inv_frame _ _ Hr). auto with beast.
Qed.

Lemma read_inv_api s s' : read_inv s -> api_call s s' -> read_inv s'.
Proof. intros Hr Hc. destruct Hc; apply (read_inv_frame _ _ Hr); auto with beast. Qed.

Lemma read_inv_reachable s : reachable s -> read_inv s.
Proof.
  intros Hreach.
  refine (proj2 (star_invariant _ (fun s => inv s /\ read_inv s) _ _ _ Hreach _)).
  - intros a b [Ha Hra] [Hab|Hab]; split.
    + exact (api_preserves_inv _ _ Ha Hab).
    + exact (read_inv_api _ _ Hra Hab).
    + exact (complete_preserves_inv _ _ Ha Hab).
    + exact (read_inv_complete _ _ Ha Hra Hab).
  - split; [exact inv_create|]. split; [intros Hin; by apply elem_of_nil in Hin|done].
Qed.

End ReadInv.

(** C15: Every ["recv:"] line prints exactly the message just read: in
    any reachable state with a read in flight, the successful completion of
    that read with data [d] appends the line [recv:d |total recv:n+1] and
    nothing else (the buffer was cleared before the read). *)
Theorem recv_line_is_frame s d :
  reachable s -> OpRead ∈ pending s ->
  log (on_read ec_success (set_buffer (buffer_ s +:+ d) (retire OpRead s))) =
  log s ++ [LogRecv d (recvCount_ s + 1)%Z].
Proof.
  intros Hr Hin. destruct (read_inv_reachable s Hr) as [Hb _].
  pose proof (on_read_spec (set_buffer (buffer_ s +:+ d) (retire OpRead s)) ec_success) as Hs.
  simpl in Hs. destruct Hs as (_ & Hl & _). rewrite Hl. unfold_session. by rewrite (Hb Hin).
Qed.

Lemma recv_line_is_frame_witness :
  log (on_read ec_success (set_buffer (buffer_ demo_sent2 +:+ "userMsg:1") (retire OpRead demo_sent2))) =
  log demo_sent2 ++ [LogRecv "userMsg:1" 1%Z].
Proof. exact (recv_line_is_frame demo_sent2 "userMsg:1" demo_sent2_reachable ltac:(in_list)). Defined.

(** C16: [getRecvCount()] is the number of messages received: in every
    reachable state [recvCount_] equals the number of ["recv:"] lines
    printed (failed reads are not counted). *)
Theorem recvCount_counts_lines s :
  reachable s -> recvCount_ s = Z.of_nat (length (received s)).
Proof. intros Hr. exact (proj2 (read_inv_reachable s Hr)). Qed.

Lemma recvCount_counts_lines_witness :
  recvCount_ demo_sent2 = Z.of_nat (length (received demo_sent2)).
Proof. exact (recvCount_counts_lines demo_sent2 demo_sent2_reachable). Defined.
