(* ===== verification/StreamConfig.v ===== *)
(** * The stream configuration is in force whenever the stream is used

    [on_resolve] arms a 30 s deadline on the TCP layer (client line 90);
    [on_connect] then replaces it by [expires_never()] and installs the
    WebSocket options: text mode, a 1 MiB read limit, the timeout option
    {handshake 20 s, idle 6 s, keep-alive pings} and the user-agent
    decorator (lines 106-124, [configure_stream]), before it starts the
    handshake.  The spec calls this the TimeoutPolicy, "installed once after
    a successful transport-level connect, before the handshake".

    [stream_inv] is the well-formedness of the session's stream: once a
    handshake has been started, the stream carries exactly that
    configuration and no name resolution can run again (which would re-arm
    the TCP deadline); the stream is open, the session connected or a read
    in flight only after a handshake has been started.  The theorem
    [stream_configured_when_used] puts them together. *)

From stdpp Require Import base list sets strings.
From Stdlib Require Import ZArith Lia.
From S2P Require Import Prelude Net Session.
Local Open Scope beast_scope.

Import WebsocketSession.

(** A handshake has been started on the session. *)
Definition handshook (s : Session) : Prop := exists h t, OpHandshake h t ∈ issued s.

(** The stream is in use: open, connected, or with a read or a write in
    flight. *)
Definition in_use (s : Session) : Prop :=
  ws_open (ws_ s) = true \/ isConnected_ s = true \/ OpRead ∈ pending s \/
  exists m, OpWrite m ∈ pending s.

(** The stream carries the configuration of [on_connect]. *)
Definition configured (w : WsStream) : Prop := configure_stream w = w.

Record stream_inv (s : Session) : Prop := {
  si_pending : forall o, o ∈ pending s -> o ∈ issued s;
  si_config : handshook s -> configured (ws_ s);
  si_no_resolve : handshook s -> forall h p, OpResolve h p ∉ pending s;
  si_used : in_use s -> handshook s
}.

Section Lemmas.

Lemma configured_configure w : configured (configure_stream w).
Proof. reflexivity. Qed.

Lemma configured_set_open b w : configured w -> configured (ws_set_open b w).
Proof.
  unfold configured. intros H. change (ws_set_open b (configure_stream w) = ws_set_open b w).
  by rewrite H.
Qed.

Lemma handshook_app s l : handshook s -> exists h t, OpHandshake h t ∈ issued s ++ l.
Proof. intros (h & t & H). exists h, t. set_solver. Qed.

(** The invariant only reads the pending set, the history, the stream and
    the connection flag. *)
Lemma stream_inv_ext s s' :
  pending s' = pending s -> issued s' = issued s -> ws_ s' = ws_ s ->
  isConnected_ s' = isConnected_ s -> stream_inv s -> stream_inv s'.
Proof.
  intros Hp Hi Hw Hc [H1 H2 H3 H4].
  split; unfold handshook, configured, in_use in *; rewrite ?Hp, ?Hi, ?Hw, ?Hc; assumption.
Qed.

Local Ltac ext := intros Hs; match goal with |- stream_inv ?t => eapply (stream_inv_ext _ t); [..|exact Hs]; reflexivity end.

Lemma si_fail s ec w : stream_inv s -> stream_inv (fail ec w s). Proof. ext. Qed.
Lemma si_push_log s l : stream_inv s -> stream_inv (push_log l s). Proof. ext. Qed.
Lemma si_set_buffer s b : stream_inv s -> stream_inv (set_buffer b s). Proof. ext. Qed.
Lemma si_set_recvCount s n : stream_inv s -> stream_inv (set_recvCount n s). Proof. ext. Qed.
Lemma si_set_queue s q : stream_inv s -> stream_inv (set_queue q s). Proof. ext. Qed.
Lemma si_set_hasClose s b : stream_inv s -> stream_inv (set_hasClose b s). Proof. ext. Qed.
Lemma si_set_endpoint s h p : stream_inv s -> stream_inv (set_endpoint h p s). Proof. ext. Qed.

Lemma si_retire s o : stream_inv s -> stream_inv (retire o s).
Proof.
  intros [H1 H2 H3 H4]. split; simpl; auto.
  - intros o' Ho'. by apply H1, (elem_of_remove_one _ o).
  - intros Hh h p Hin. by apply (H3 Hh h p), (elem_of_remove_one _ o).
  - intros Hu. apply H4. unfold in_use in *. simpl in Hu.
    destruct Hu as [Ho|[Hc|[Hr|[m Hm]]]]; [by left|by right; left| |].
    + right; right; left. by apply (elem_of_remove_one _ o).
    + right; right; right. exists m. by apply (elem_of_remove_one _ o).
Qed.

Lemma si_set_open_false s : stream_inv s -> stream_inv (set_open false s).
Proof.
  intros [H1 H2 H3 H4]. split; simpl; auto.
  - intros Hh. apply configured_set_open, H2, Hh.
  - intros Hu. apply H4. unfold in_use in *. simpl in Hu.
    destruct Hu as [Ho|Hu]; [discriminate|by right].
Qed.

(** Starting an operation other than a resolve or a handshake, which
    needs a started handshake when it is a read or a write. *)
Lemma si_issue_other s o :
  (forall h p, o <> OpResolve h p) -> (forall h t, o <> OpHandshake h t) ->
  (o = OpRead \/ (exists m, o = OpWrite m) -> handshook s) ->
  stream_inv s -> stream_inv (issue o s).
Proof.
  intros Hr Hh Hrd [H1 H2 H3 H4]. unfold handshook in *. split; simpl.
  - intros o' [->|Ho']%elem_of_cons; set_solver.
  - intros (h & t & Hin). apply elem_of_app in Hin as [Hin|Hin%list_elem_of_singleton];
      [apply H2; eauto|by destruct (Hh h t)].
  - intros (h & t & Hin) h' p' [E|Hp]%elem_of_cons; [by destruct (Hr h' p')|].
    apply elem_of_app in Hin as [Hin|Hin%list_elem_of_singleton];
      [apply (H3 ltac:(eauto) h' p' Hp)|by destruct (Hh h t)].
  - intros Hu. apply handshook_app. unfold in_use in Hu. simpl in Hu.
    destruct Hu as [Ho|[Hc|[[E|Hp]%elem_of_cons|[m [E|Hm]%elem_of_cons]]]].
    + apply H4. by left.
    + apply H4. by right; left.
    + apply Hrd. by left.
    + apply H4. by right; right; left.
    + apply Hrd. right. by exists m.
    + apply H4. right; right; right. by exists m.
Qed.

(** Changing the stream before any handshake, keeping it closed. *)
Lemma si_set_ws_early s w :
  ~ handshook s -> ws_open w = ws_open (ws_ s) -> stream_inv s -> stream_inv (set_ws w s).
Proof.
  intros Hn Ho [H1 H2 H3 H4]. split; simpl; auto; try (intros Hh; by destruct (Hn Hh)).
  intros Hu. apply H4. unfold in_use in *. simpl in Hu. by rewrite <-Ho.
Qed.

(** Installing the configuration (keeping [is_open()]). *)
Lemma si_set_ws_config s w :
  configured w -> ws_open w = ws_open (ws_ s) -> stream_inv s -> stream_inv (set_ws w s).
Proof.
  intros Hc Ho [H1 H2 H3 H4]. split; simpl; auto.
  intros Hu. apply H4. unfold in_use in *. simpl in Hu. by rewrite <-Ho.
Qed.

Lemma si_set_open s b : handshook s -> stream_inv s -> stream_inv (set_open b s).
Proof.
  intros Hh [H1 H2 H3 H4]. split; simpl; auto. intros Hc. by apply configured_set_open, H2.
Qed.

Lemma si_set_isConnected s b : handshook s -> stream_inv s -> stream_inv (set_isConnected b s).
Proof. intros Hh [H1 H2 H3 H4]. split; simpl; auto. Qed.

(** Starting the handshake on a configured stream, with no resolve
    pending. *)
Lemma si_issue_handshake s h t :
  configured (ws_ s) -> (forall h p, OpResolve h p ∉ pending s) ->
  stream_inv s -> stream_inv (issue (OpHandshake h t) s).
Proof.
  intros Hc Hnr [H1 H2 H3 H4]. split; simpl.
  - intros o [->|Ho]%elem_of_cons; set_solver.
  - intros _. exact Hc.
  - intros _ h' p' [E|Hp]%elem_of_cons; [discriminate|exact (Hnr h' p' Hp)].
  - intros _. exists h, t. set_solver.
Qed.

Lemma handshook_in_use s : stream_inv s -> ws_open (ws_ s) = true -> handshook s.
Proof. intros Hs Ho. apply (si_used _ Hs). by left. Qed.

End Lemmas.

#[export] Hint Resolve si_fail si_push_log si_set_buffer si_set_recvCount si_set_queue
  si_set_hasClose si_set_endpoint si_retire si_set_open_false : beast.

Section Handlers.

Local Ltac other := apply si_issue_other; [done|done| |].

Lemma si_doSend s m : stream_inv s -> stream_inv (doSend m s).
Proof.
  intros Hs. unfold doSend. destruct (ws_open (ws_ s)) eqn:Ho; simpl; [|exact Hs].
  other; [intros _; by apply handshook_in_use|exact Hs].
Qed.

Lemma si_sendMessage s m : stream_inv s -> stream_inv (sendMessage m s).
Proof. intros Hs. unfold sendMessage. repeat case_match; auto using si_doSend with beast. Qed.

Lemma si_close s : stream_inv s -> stream_inv (close s).
Proof.
  intros Hs. unfold close. case_match; [exact Hs|].
  other; [by intros [?|[? ?]]|auto with beast].
Qed.

Lemma si_on_close s ec : stream_inv s -> stream_inv (on_close ec s).
Proof. intros Hs. unfold on_close. case_match; auto with beast. Qed.

Lemma si_on_write s ec s' : stream_inv s -> on_write ec s = Some s' -> stream_inv s'.
Proof.
  intros Hs. unfold on_write. repeat (case_match || case_decide); intros [= <-];
    auto using si_doSend with beast.
Qed.

Lemma si_on_read s ec : stream_inv s -> stream_inv (on_read ec s).
Proof.
  intros Hs. unfold on_read.
  assert (Hs1 : stream_inv (if failed ec
                            then (if decide (ec = ec_timeout)
                                  then push_log LogIdleTimeoutRead (fail ec "read" s)
                                  else fail ec "read" s)
                            else push_log (LogRecv (buffer_ (set_recvCount (recvCount_ s + 1) s))
                                            (recvCount_ (set_recvCount (recvCount_ s + 1) s)))
                                   (set_recvCount (recvCount_ s + 1) s)))
    by (repeat case_match; auto with beast).
  simpl. destruct (ws_open _) eqn:Ho; [|exact Hs1].
  other; [intros _; apply (handshook_in_use _ Hs1); exact Ho|auto with beast].
Qed.

Lemma si_on_handshake s ec : handshook s -> stream_inv s -> stream_inv (on_handshake ec s).
Proof.
  intros Hh Hs. unfold on_handshake. case_match; [auto with beast|].
  other; [intros _; exact Hh|]. apply si_set_buffer, si_set_isConnected; assumption.
Qed.

Lemma si_on_connect s ec :
  (forall h p, OpResolve h p ∉ pending s) -> stream_inv s -> stream_inv (on_connect ec s).
Proof.
  intros Hnr Hs. unfold on_connect. case_match; [auto with beast|].
  apply si_issue_handshake; [apply configured_configure|exact Hnr|].
  by apply si_set_ws_config; [apply configured_configure| |].
Qed.

Lemma si_on_resolve s ec : ~ handshook s -> stream_inv s -> stream_inv (on_resolve ec s).
Proof.
  intros Hn Hs. unfold on_resolve. case_match; [auto with beast|].
  other; [intros [E|[m E]]; discriminate|]. by apply si_set_ws_early.
Qed.

Lemma si_run s h p : issued s = [] -> inv s -> stream_inv s -> stream_inv (run h p s).
Proof.
  intros Hnil Hi Hs. pose proof (inv_fresh _ Hi Hnil) as Hp.
  assert (Hu0 : ~ in_use s).
  { intros Hu. destruct (si_used _ Hs Hu) as (h' & t' & Hin). rewrite Hnil in Hin. set_solver. }
  unfold in_use in Hu0. rewrite Hp in Hu0.
  unfold run; unfold_session. split; simpl; rewrite ?Hnil, ?Hp; simpl.
  - set_solver.
  - intros (h' & t' & Hin). set_solver.
  - intros (h' & t' & Hin). set_solver.
  - unfold in_use; simpl. rewrite ?Hp. intros Hu. exfalso. apply Hu0. set_solver.
Qed.

End Handlers.

Section Reachable.

(** Retiring a pending operation of the chain leaves no resolve pending. *)
Lemma no_resolve_after_retire s o :
  inv s -> o ∈ pending s -> is_chain o = true ->
  forall h p, OpResolve h p ∉ pending (retire o s).
Proof.
  intros Hs Hin Ho h p Hr. destruct (inv_retire _ _ Hs Hin) as (_ & H0 & _).
  pose proof (count_if_zero _ _ _ (H0 Ho) Hr). discriminate.
Qed.

Lemma stream_inv_complete s s' : inv s -> stream_inv s -> complete s s' -> stream_inv s'.
Proof.
  intros Hi Hs Hc.
  destruct Hc as [s h p ec Hin|s ec Hin|s h t ec Hin|s d Hin|s ec Hin _
                 |s m ec s' Hin Hw|s c ec Hin|s].
  - apply si_on_resolve; [|auto with beast].
    intros Hh. exact (si_no_resolve _ Hs Hh h p Hin).
  - apply si_on_connect; [exact (no_resolve_after_retire _ _ Hi Hin eq_refl)|auto with beast].
  - assert (Hh : handshook s) by (exists h, t; exact (si_pending _ Hs _ Hin)).
    apply si_on_handshake; [exact Hh|]. apply si_set_open; [exact Hh|auto with beast].
  - apply si_on_read. auto with beast.
  - apply si_on_read. auto with beast.
  - eapply si_on_write; [|exact Hw]. auto with beast.
  - apply si_on_close. auto with beast.
  - auto with beast.
Qed.

Lemma stream_inv_api s s' : inv s -> stream_inv s -> api_call s s' -> stream_inv s'.
Proof.
  intros Hi Hs Hc. destruct Hc as [s h p Hnil|s m|s].
  - by apply si_run.
  - by apply si_sendMessage.
  - by apply si_close.
Qed.

Lemma stream_inv_create : stream_inv create.
Proof.
  split; simpl; try (intros o Ho; by apply elem_of_nil in Ho).
  - intros (h & t & Hin). by apply elem_of_nil in Hin.
  - intros (h & t & Hin). by apply elem_of_nil in Hin.
  - intros [Ho|[Hc|[Hr|[m Hm]]]]; try discriminate; by apply elem_of_nil in Hr || apply elem_of_nil in Hm.
Qed.

Lemma stream_inv_reachable s : reachable s -> stream_inv s.
Proof.
  intros Hr.
  refine (proj2 (star_invariant _ (fun s => inv s /\ stream_inv s) _ _ _ Hr _)).
  - intros a b [Ha Hsa] [Hab|Hab]; split.
    + exact (api_preserves_inv _ _ Ha Hab).
    + exact (stream_inv_api _ _ Ha Hsa Hab).
    + exact (complete_preserves_inv _ _ Ha Hab).
    + exact (stream_inv_complete _ _ Ha Hsa Hab).
  - split; [exact inv_create|exact stream_inv_create].
Qed.

End Reachable.

(** C18: Well-formedness of the stream: in every reachable state in which
    the stream is in use (open, connected, or with a read or a write in
    flight) it carries the configuration installed by [on_connect]: text
    frames, a 1 MiB read limit, the 20 s / 6 s timeouts with keep-alive
    pings, the decorator, and no TCP-level deadline (the 30 s deadline
    of [on_resolve] is gone and cannot come back). *)
Theorem stream_configured_when_used s :
  reachable s -> in_use s ->
  ws_text (ws_ s) = true /\ ws_read_max (ws_ s) = (1 * 1024 * 1024)%Z /\
  ws_timeout (ws_ s) = Some client_timeout /\ tcp_expiry (ws_ s) = None /\
  ws_decorated (ws_ s) = true.
Proof.
  intros Hr Hu. pose proof (stream_inv_reachable s Hr) as Hs.
  pose proof (si_config _ Hs (si_used _ Hs Hu)) as Hc. unfold configured in Hc.
  rewrite <-Hc. simpl. done.
Qed.

Lemma stream_configured_when_used_witness :
  tcp_expiry (ws_ demo_sent2) = None.
Proof.
  refine (proj1 (proj2 (proj2 (proj2 (stream_configured_when_used demo_sent2 demo_sent2_reachable _))))).
  left. vm_compute. reflexivity.
Defined.
