(* ===== verification/Driver.v ===== *)
(** * The client's driving loop: [main] (src/beast_issue_client.cpp, lines 255-360)

    [main] owns the session and polls the event loop: every iteration runs
    the ready completion handlers ([ioc.poll()]) and then advances the stage
    machine [Stage] by one [switch].  The loop uses the session only through
    the calls of [ClientApi] ([run], [isConnected], [getRecvCount],
    [sendMessage], [close]) and the event loop's [stopped()], so the stage
    machine [main_switch] and the loop [main_step] are written against that
    class; [ClientApiLaws] is what the loop's generic theorems need of the
    session, and [websocket_api] / [websocket_laws] discharge it for the
    modelled [WebsocketSession].  [rand() % 5] is an input of each iteration,
    constrained to [0..4]; the 10 ms sleep is not modelled (it only paces the
    loop). *)

From stdpp Require Import base list sets strings.
From Stdlib Require Import ZArith Lia.
From S2P Require Import Prelude Net Format Session Outbound.
Local Open Scope beast_scope.

(** The calls [main] makes on a session, and the completions the event loop
    runs on it. *)
Class ClientApi (Sess : Type) := {
  api_run : string -> string -> Sess -> Sess;
  api_isConnected : Sess -> bool;
  api_getRecvCount : Sess -> Z;
  api_sendMessage : string -> Sess -> Sess;
  api_close : Sess -> Sess;
  (** no asynchronous operation outstanding *)
  api_idle : Sess -> bool;
  (** one completion handler run by [ioc.poll()] *)
  api_complete : Sess -> Sess -> Prop
}.

(** What the loop's stage machine relies on: an idle session stays idle and
    keeps its connection flag whatever the event loop does. *)
Class ClientApiLaws (Sess : Type) `{ClientApi Sess} := {
  api_idle_complete s s' :
    api_idle s = true -> api_complete s s' ->
    api_idle s' = true /\ api_isConnected s' = api_isConnected s
}.

(** [enum Stage] (lines 255-261). *)
Inductive Stage := kStageInit | kStageConnecting | kStageConnected | kStageClosing.

#[export] Instance Stage_eq_dec : EqDecision Stage.
Proof. solve_decision. Defined.

Definition stage_rank (st : Stage) : nat :=
  match st with kStageInit => 0 | kStageConnecting => 1 | kStageConnected => 2 | kStageClosing => 3 end.

(** The locals of [main] (lines 277-288): the session, the stage, the
    message counter, [canQuit], and whether the work guard [worker] is still
    held. *)
Record Main (Sess : Type) := mkMain {
  session : Sess;
  stage : Stage;
  messageNo : Z;
  canQuit : bool;
  worker : bool
}.
Arguments mkMain {Sess}.
Arguments session {Sess}.
Arguments stage {Sess}.
Arguments messageNo {Sess}.
Arguments canQuit {Sess}.
Arguments worker {Sess}.

Section Loop.
Context {Sess : Type} `{ClientApi Sess}.
Variables (host port : string).

(** The state at line 290: the new session, stage [kStageInit]. *)
Definition main_init (s : Sess) : Main Sess := mkMain s kStageInit 0 false true.

(** The burst of lines 323-329: [k] times, increment [messageNo] and send
    ["userMsg:<messageNo>"]. *)
Fixpoint send_burst (k : nat) (n : Z) (s : Sess) : Z * Sess :=
  match k with
  | O => (n, s)
  | Datatypes.S k' => send_burst k' (n + 1)%Z (api_sendMessage (userMsg (n + 1)) s)
  end.

(** [ioc.stopped()] after [ioc.poll()]: no outstanding work, neither an
    operation nor the work guard. *)
Definition ioc_stopped (m : Main Sess) : bool := negb (worker m) && api_idle (session m).

(** One pass of the [switch] (lines 296-350); [sendCntTogether] is the
    value of [rand() % 5]. *)
Definition main_switch (sendCntTogether : Z) (m : Main Sess) : Main Sess :=
  match stage m with
  | kStageInit =>
      mkMain (api_run host port (session m)) kStageConnecting (messageNo m) (canQuit m) (worker m)
  | kStageConnecting =>
      if api_isConnected (session m)
      then mkMain (session m) kStageConnected (messageNo m) (canQuit m) (worker m)
      else m
  | kStageConnected =>
      if (api_getRecvCount (session m) <=? 20)%Z then
        let '(n, s) := send_burst (Z.to_nat (sendCntTogether + 1)) (messageNo m) (session m) in
        mkMain s kStageConnected n (canQuit m) (worker m)
      else mkMain (api_close (session m)) kStageClosing (messageNo m) (canQuit m) false
  | kStageClosing =>
      if ioc_stopped m
      then mkMain (session m) kStageClosing (messageNo m) true (worker m)
      else m
  end.

(** The [while (!canQuit)] loop (lines 290-356): a completion run by
    [ioc.poll()], or a pass of the [switch]. *)
Inductive main_step : Main Sess -> Main Sess -> Prop :=
| main_poll m s' :
    canQuit m = false -> api_complete (session m) s' ->
    main_step m (mkMain s' (stage m) (messageNo m) (canQuit m) (worker m))
| main_iter m r :
    canQuit m = false -> (0 <= r < 5)%Z -> main_step m (main_switch r m).
(** [canQuit] is set only in [kStageClosing], once the work guard is
    released and the session has no outstanding operation. *)
Definition quit_ok (m : Main Sess) : Prop :=
  canQuit m = true ->
  stage m = kStageClosing /\ worker m = false /\ api_idle (session m) = true.

(** A session whose connection attempt failed: still in
    [kStageConnecting], never connected, nothing outstanding. *)
Definition connect_failed (m : Main Sess) : Prop :=
  stage m = kStageConnecting /\ api_isConnected (session m) = false /\
  api_idle (session m) = true /\ canQuit m = false.

End Loop.

(** The modelled session implements the interface. *)
#[export] Instance websocket_api : ClientApi WebsocketSession.Session := {
  api_run := WebsocketSession.run;
  api_isConnected := WebsocketSession.isConnected;
  api_getRecvCount := WebsocketSession.getRecvCount;
  api_sendMessage := WebsocketSession.sendMessage;
  api_close := WebsocketSession.close;
  api_idle s := bool_decide (WebsocketSession.pending s = []);
  api_complete := WebsocketSession.complete
}.

(** The messages [main] has queued after [n] increments of [messageNo]. *)
Definition sent_upto (n : Z) : list string :=
  map (fun i => userMsg (Z.of_nat (Datatypes.S i))) (seq 0 (Z.to_nat n)).

Import WebsocketSession.

(** [main] of the client, as modelled: a fresh [WebsocketSession]. *)
Definition client_main : Main Session := main_init create.

(** The end of [main] (lines 355-359): [return EXIT_SUCCESS] destroys the
    local [session]; it is the last owner of the object when no operation
    is pending (each pending operation holds a [shared_from_this()]), and
    the destructor runs then. *)
Definition main_exit (m : Main Session) : Session * exit_status :=
  (if bool_decide (pending (session m) = []) then destroy (session m) else session m,
   EXIT_SUCCESS).

(** The invariant of the client's loop: the session's own invariant; no
    operation before [run]; the messages queued so far are exactly
    userMsg:1 .. userMsg:messageNo, in order, across the transport and the
    queue; the close flag is set exactly in [kStageClosing]. *)
Definition dinv (m : Main Session) : Prop :=
  inv (session m) /\
  (stage m = kStageInit -> issued (session m) = []) /\
  (0 <= messageNo m)%Z /\
  FifoSpec.content (abs (session m)) = sent_upto (messageNo m) /\
  hasClose_ (session m) = bool_decide (stage m = kStageClosing).

(** A run whose name resolution fails. *)
Definition demo_main_run : Main Session := main_switch "localhost" "8080" 0 client_main.
Definition demo_main_failed : Main Session :=
  mkMain (on_resolve (ec_other 111) (retire (OpResolve "localhost" "8080") (session demo_main_run)))
         kStageConnecting 0 false true.

(** A run that connects and sends one burst of two messages. *)
Definition poll_into (s' : Session) (m : Main Session) : Main Session :=
  mkMain s' (stage m) (messageNo m) (canQuit m) (worker m).
Definition demo_m2 : Main Session :=
  poll_into (on_resolve ec_success (retire (OpResolve "localhost" "8080") (session demo_main_run)))
            demo_main_run.
Definition demo_m3 : Main Session :=
  poll_into (on_connect ec_success (retire OpConnect (session demo_m2))) demo_m2.
Definition demo_m4 : Main Session :=
  poll_into (on_handshake ec_success
               (set_open (negb (failed ec_success) || ws_open (ws_ (session demo_m3)))
                  (retire (OpHandshake "localhost" "/") (session demo_m3)))) demo_m3.
Definition demo_m5 : Main Session := main_switch "localhost" "8080" 0 demo_m4.
Definition demo_m6 : Main Session := main_switch "localhost" "8080" 1 demo_m5.

(** [k] messages echoed back and read while connected. *)
Fixpoint reads (k : nat) (m : Main Session) : Main Session :=
  match k with
  | O => m
  | Datatypes.S k' =>
      reads k' (poll_into (on_read ec_success
                             (set_buffer (buffer_ (session m) +:+ "echo")
                                (retire OpRead (session m)))) m)
  end.

(** The full scenario A: 21 echoes, [close()], the close handshake and the
    read loop ending, then [canQuit]. *)
Definition demo_m7 : Main Session := main_switch "localhost" "8080" 0 (reads 21 demo_m5).
Definition demo_m8 : Main Session :=
  poll_into (on_close ec_success (set_open false (retire (OpClose close_normal) (session demo_m7))))
            demo_m7.
Definition demo_m9 : Main Session :=
  poll_into (on_read ec_closed (retire OpRead (session demo_m8))) demo_m8.
Definition demo_quit : Main Session := main_switch "localhost" "8080" 0 demo_m9.

Section Generic.
Context {Sess : Type} `{ClientApiLaws Sess}.
Variables (host port : string).

Lemma main_switch_rank r m :
  stage_rank (stage m) <= stage_rank (stage (main_switch host port r m)).
Proof.
  unfold main_switch. destruct (stage m) eqn:E; simpl;
    repeat (case_match; simpl); rewrite ?E; simpl; lia.
Qed.

Lemma main_step_rank m m' :
  main_step host port m m' -> stage_rank (stage m) <= stage_rank (stage m').
Proof. intros [m0 s' _ _|m0 r _ _]; [simpl; lia|apply main_switch_rank]. Qed.

Lemma quit_ok_step m m' : quit_ok m -> main_step host port m m' -> quit_ok m'.
Proof.
  intros Hq [m0 s' Hc _|m0 r Hc _]; unfold quit_ok; simpl; [by rewrite Hc|].
  unfold main_switch. destruct (stage m0) eqn:E; simpl;
    repeat (case_match; simpl); try (by rewrite Hc); try congruence.
  unfold ioc_stopped in *. intros _. apply andb_prop in H1 as [Hw Hi].
  split_and!; [done|by destruct (worker m0)|done].
Qed.

Lemma quit_ok_run s0 m : star (main_step host port) (main_init s0) m -> quit_ok m.
Proof.
  intros Hr. apply (star_invariant _ quit_ok (quit_ok_step) _ _ Hr).
  unfold quit_ok. simpl. discriminate.
Qed.

Lemma connect_failed_step m m' :
  connect_failed m -> main_step host port m m' -> connect_failed m'.
Proof.
  intros Hcf Hst. destruct Hst as [m s' _ Hcpl|m r _ _];
    destruct Hcf as (Hs & Hc & Hi & Hq).
  - destruct (api_idle_complete _ _ Hi Hcpl) as [Hi' Hc']. unfold connect_failed; simpl.
    split_and!; congruence.
  - unfold main_switch. rewrite Hs, Hc. by split_and!.
Qed.
End Generic.

(** The modelled session satisfies the laws: with nothing pending, the only
    event is a teardown of the stream, which changes neither. *)
#[export] Instance websocket_laws : ClientApiLaws WebsocketSession.Session.
Proof.
  split. intros s s' Hi Hc. simpl in *. apply bool_decide_eq_true in Hi.
  rewrite (WebsocketSession.complete_idle s s' Hi Hc). simpl.
  rewrite bool_decide_eq_true. split; [exact Hi|done].
Qed.

Section GenericProperties.
Context {Sess : Type} `{ClientApiLaws Sess}.
Variables (host port : string).

(** C23: The stage machine of [main] never goes back: along any run of the
    loop the stage only advances Init -> Connecting -> Connected ->
    Closing (possibly staying put). *)
Theorem stage_monotone m m' :
  star (main_step host port) m m' -> stage_rank (stage m) <= stage_rank (stage m').
Proof.
  induction 1 as [|a b c Hab _ IH]; [lia|]. pose proof (main_step_rank host port a b Hab). lia.
Qed.

(** C24: [main] leaves its loop only in [kStageClosing], after the work
    guard has been released and the session has no outstanding
    operation. *)
Theorem quit_only_when_drained s0 m :
  star (main_step host port) (main_init s0) m -> canQuit m = true ->
  stage m = kStageClosing /\ worker m = false /\ api_idle (session m) = true.
Proof. intros Hr. apply (quit_ok_run host port s0 m Hr). Qed.

(** C25: When resolving, connecting or the handshake fails, the session
    stays unconnected with nothing outstanding, [main] stays in
    [kStageConnecting] for ever and never sets [canQuit]: the client does
    not terminate (the work guard keeps [ioc.stopped()] false as well). *)
Theorem connect_failure_never_quits m m' :
  connect_failed m -> star (main_step host port) m m' ->
  canQuit m' = false /\ stage m' = kStageConnecting.
Proof.
  intros Hf Hr. destruct (star_invariant _ connect_failed (connect_failed_step host port) _ _ Hr Hf)
    as (Hs & _ & _ & Hq). done.
Qed.
End GenericProperties.

Section ClientLoop.

Lemma sent_upto_succ n : (0 <= n)%Z -> sent_upto (n + 1) = sent_upto n ++ [userMsg (n + 1)].
Proof.
intros Hn. unfold sent_upto. rewrite Z2Nat.inj_add, Nat.add_1_r, seq_S, map_app by lia.
simpl. do 3 f_equal. lia.
Qed.

Lemma content_enqueue m c :
FifoSpec.content (FifoSpec.enqueue m c) = FifoSpec.content c ++ [m].
Proof. unfold FifoSpec.content, FifoSpec.enqueue. simpl. by rewrite app_assoc. Qed.

(** A burst keeps the session invariant and appends the next numbers. *)
Lemma send_burst_spec k n s :
inv s -> (0 <= n)%Z -> FifoSpec.content (abs s) = sent_upto n ->
let '(n', s') := send_burst k n s in
n' = (n + Z.of_nat k)%Z /\ inv s' /\ FifoSpec.content (abs s') = sent_upto n' /\
hasClose_ s' = hasClose_ s.
Proof.
revert n s. induction k as [|k IH]; intros n s Hs Hn Hc; simpl; [split_and!; done || lia|].
assert (Hc' : FifoSpec.content (abs (sendMessage (userMsg (n + 1)) s)) = sent_upto (n + 1)).
{ pose proof (refine_sendMessage s (userMsg (n + 1)) Hs) as Hr. simpl in Hr.
  rewrite (transmits_content _ _ Hr), content_enqueue, Hc, sent_upto_succ by lia. done. }
specialize (IH (n + 1)%Z _ (inv_sendMessage s _ Hs) ltac:(lia) Hc').
destruct (send_burst k _ _) as [n' s']. destruct IH as (-> & Hi & Hc2 & Hh).
split_and!; [lia|done|done|]. rewrite Hh. unfold sendMessage, doSend.
repeat case_match; by unfold_session.
Qed.

Lemma dinv_init : dinv client_main.
Proof. split_and!; try done. exact inv_create. Qed.

Lemma dinv_poll m s' : dinv m -> complete (session m) s' ->
dinv (mkMain s' (stage m) (messageNo m) (canQuit m) (worker m)).
Proof.
intros (Hi & Hf & Hn & Hc & Hh) Hcpl. unfold dinv. cbn [session stage messageNo]. split_and!.
- exact (complete_preserves_inv _ _ Hi Hcpl).
- intros Hst. specialize (Hf Hst).
  rewrite (complete_idle _ _ (inv_fresh _ Hi Hf) Hcpl). done.
- done.
- destruct (refine_step _ _ _ Hi (lstep_complete _ _ Hcpl)) as [_ Hr].
  simpl in Hr. by rewrite (transmits_content _ _ Hr).
- by rewrite (complete_hasClose _ _ Hcpl).
Qed.

Lemma dinv_switch host port r m : dinv m -> dinv (main_switch host port r m).
Proof.
intros Hd. pose proof Hd as (Hi & Hf & Hn & Hc & Hh). unfold main_switch.
destruct (stage m) eqn:Es; simpl.
- specialize (Hf eq_refl).
  split_and!; simpl;
    first [ done | by apply inv_run
          | by rewrite (abs_frame _ _ (frame_run _ host port))
          | (unfold run; unfold_session; by rewrite Hh) ].
- case_match; [|exact Hd]. split_and!; simpl; done.
- case_match.
  + pose proof (send_burst_spec (Z.to_nat (r + 1)) (messageNo m) (session m) Hi Hn Hc) as Hb.
    destruct (send_burst _ _ _) as [n' s'] eqn:Eb.
    destruct Hb as (-> & Hi' & Hc' & Hh'). split_and!; simpl; try done; [lia|].
    by rewrite Hh', Hh.
  +
    split_and!; simpl;
      first [ done | by apply inv_close_call
            | by rewrite (abs_frame _ _ (frame_close _))
            | (unfold close; rewrite Hh; by unfold_session) ].
- case_match; [|exact Hd]. split_and!; simpl; done.
Qed.

Lemma dinv_step host port m m' : dinv m -> main_step host port m m' -> dinv m'.
Proof.
intros Hd Hst. destruct Hst as [m s' _ Hcpl|m r _ _]; [by apply dinv_poll|by apply dinv_switch].
Qed.

Lemma dinv_reachable host port m : star (main_step host port) client_main m -> dinv m.
Proof. intros Hr. exact (star_invariant _ dinv (dinv_step host port) _ _ Hr dinv_init). Qed.

End ClientLoop.

Section DemoRuns.


Lemma demo_m6_reachable : star (main_step "localhost" "8080") client_main demo_m6.
Proof.
eapply star_step; [apply (main_iter _ _ client_main 0); [done|lia]|].
eapply star_step; [apply (main_poll _ _ demo_main_run); [done|]; apply cpl_resolve; in_list|].
eapply star_step; [apply (main_poll _ _ demo_m2); [done|]; apply cpl_connect; in_list|].
eapply star_step; [apply (main_poll _ _ demo_m3); [done|]; apply cpl_handshake; in_list|].
eapply star_step; [apply (main_iter _ _ demo_m4 0); [done|lia]|].
eapply star_step; [apply (main_iter _ _ demo_m5 1); [done|lia]|].
apply star_refl.
Qed.

Lemma reads_star k m :
canQuit m = false -> ws_open (ws_ (session m)) = true -> OpRead ∈ pending (session m) ->
star (main_step "localhost" "8080") m (reads k m).
Proof.
revert m. induction k as [|k IH]; intros m Hq Ho Hin; simpl; [apply star_refl|].
eapply star_step; [apply (main_poll _ _ m); [done|]; by apply cpl_read_ok|].
apply IH; unfold poll_into, on_read; simpl; [done| |];
  unfold_session; rewrite Ho; simpl; [done|]. apply elem_of_cons. by left.
Qed.

Lemma demo_m5_reachable : star (main_step "localhost" "8080") client_main demo_m5.
Proof.
apply (star_step _ _ demo_main_run); [apply main_iter; [done|lia]|].
apply (star_step _ _ demo_m2);
  [apply main_poll; [done|]; apply (cpl_resolve _ "localhost" "8080" ec_success); in_list|].
apply (star_step _ _ demo_m3);
  [apply main_poll; [done|]; apply (cpl_connect _ ec_success); in_list|].
apply (star_step _ _ demo_m4);
  [apply main_poll; [done|]; apply (cpl_handshake _ "localhost" "/" ec_success); in_list|].
apply star_one. apply main_iter; [done|lia].
Qed.

Lemma demo_quit_reachable : star (main_step "localhost" "8080") client_main demo_quit.
Proof.
apply (star_trans _ _ demo_m5); [exact demo_m5_reachable|].
apply (star_trans _ _ (reads 21 demo_m5));
  [apply (reads_star 21 demo_m5); [done|reflexivity|in_list]|].
apply (star_step _ _ demo_m7); [apply main_iter; [vm_compute; reflexivity|lia]|].
apply (star_step _ _ demo_m8);
  [apply main_poll; [vm_compute; reflexivity|];
   apply (cpl_close _ close_normal ec_success); in_list|].
apply (star_step _ _ demo_m9);
  [apply main_poll; [vm_compute; reflexivity|];
   apply (cpl_read_err _ ec_closed); [in_list|reflexivity]|].
apply star_one. apply main_iter; [vm_compute; reflexivity|lia].
Qed.

Lemma demo_m6_state :
stage demo_m6 = kStageConnected /\ messageNo demo_m6 = 2%Z /\
writes_of (issued (session demo_m6)) = ["userMsg:1"] /\
sendMessageQueue_ (session demo_m6) = ["userMsg:1"; "userMsg:2"].
Proof. vm_compute. auto. Qed.

End DemoRuns.

Section Properties.

(** C7: End to end, the client's wire order.  In every state of the
  client's loop, the messages submitted to the transport followed by those
  still queued are exactly userMsg:1, userMsg:2, ..., userMsg:messageNo:
  the transport receives the numbered messages in increasing order, with no
  gap, reordering or duplicate. *)
Theorem wire_carries_numbered_messages host port m :
star (main_step host port) client_main m ->
writes_of (issued (session m)) ++ unsent (session m) = sent_upto (messageNo m) /\
writes_of (issued (session m)) `prefix_of` sent_upto (messageNo m).
Proof.
intros Hr. destruct (dinv_reachable host port m Hr) as (_ & _ & _ & Hc & _).
unfold FifoSpec.content in Hc. simpl in Hc. split; [exact Hc|]. rewrite <-Hc.
by apply prefix_app_r.
Qed.

Lemma wire_carries_numbered_messages_witness :
writes_of (issued (session demo_m6)) ++ unsent (session demo_m6) = sent_upto (messageNo demo_m6).
Proof. exact (proj1 (wire_carries_numbered_messages _ _ _ demo_m6_reachable)). Defined.

(** C39: Every message on the wire has the form the spec gives the client's
  frames, [userMsg:<n>] with [n] the decimal sequence number in
  [1, messageNo], and no two messages are equal: in every state of the
  client's loop, the messages submitted to the transport and those still
  queued are pairwise distinct, so each echo identifies the message it
  answers. *)
Theorem wire_messages_distinct host port m :
star (main_step host port) client_main m ->
NoDup (writes_of (issued (session m)) ++ unsent (session m)) /\
Forall (fun msg => exists n, (1 <= n <= messageNo m)%Z /\ msg = "userMsg:" +:+ int_to_string n)
       (writes_of (issued (session m)) ++ unsent (session m)).
Proof.
intros Hr. destruct (dinv_reachable host port m Hr) as (_ & _ & _ & Hc & _).
unfold FifoSpec.content in Hc. simpl in Hc. rewrite Hc. unfold sent_upto. split.
- apply NoDup_ListNoDup, Finite.Injective_map_NoDup; [|apply NoDup_ListNoDup, NoDup_seq].
  intros i j E. apply userMsg_inj in E. lia.
- apply Forall_forall. intros msg Hm. apply list_elem_of_In, in_map_iff in Hm as (i & <- & Hi).
  apply in_seq in Hi. exists (Z.of_nat (Datatypes.S i)). split; [lia|reflexivity].
Qed.

Lemma wire_messages_distinct_witness :
NoDup (writes_of (issued (session demo_m6)) ++ unsent (session demo_m6)).
Proof. exact (proj1 (wire_messages_distinct _ _ _ demo_m6_reachable)). Defined.

(** C22: Scenario A/C at the level of the program: the session has started
  a close handshake exactly once if [main] has reached [kStageClosing],
  and never before. *)
Theorem close_frame_iff_closing host port m :
star (main_step host port) client_main m ->
count_if is_close (issued (session m)) = if bool_decide (stage m = kStageClosing) then 1 else 0.
Proof.
intros Hr. destruct (dinv_reachable host port m Hr) as (Hi & _ & _ & _ & Hh).
rewrite (inv_close _ Hi), Hh. done.
Qed.

Lemma close_frame_iff_closing_witness :
count_if is_close (issued (session demo_m6)) = 0.
Proof. exact (close_frame_iff_closing _ _ _ demo_m6_reachable). Defined.

Lemma stage_monotone_witness :
stage_rank (stage client_main) <= stage_rank (stage demo_m6).
Proof. exact (stage_monotone _ _ _ _ demo_m6_reachable). Defined.

Lemma quit_only_when_drained_witness :
canQuit demo_quit = true /\ stage demo_quit = kStageClosing.
Proof.
assert (Hq : canQuit demo_quit = true) by (vm_compute; reflexivity).
split; [exact Hq|].
exact (proj1 (quit_only_when_drained "localhost" "8080" create demo_quit demo_quit_reachable Hq)).
Defined.

Lemma connect_failure_never_quits_witness :
canQuit (main_switch "localhost" "8080" 3 demo_main_failed) = false.
Proof.
assert (Hf : connect_failed demo_main_failed) by (split_and!; vm_compute; reflexivity).
refine (proj1 (connect_failure_never_quits "localhost" "8080" _ _ Hf _)).
apply star_one. apply main_iter; [done|lia].
Defined.

End Properties.

Section Overflow.

(** A pass of the [switch] in [kStageConnected] while fewer than 21
    messages have been received, with [rand() % 5 = 0]: one message. *)
Lemma switch_connected_one host port m :
stage m = kStageConnected -> (recvCount_ (session m) <= 20)%Z ->
main_switch host port 0 m =
mkMain (sendMessage (userMsg (messageNo m + 1)) (session m)) kStageConnected
       (messageNo m + 1) (canQuit m) (worker m).
Proof.
intros Hs Hr. unfold main_switch. rewrite Hs. simpl.
unfold getRecvCount. by rewrite (proj2 (Z.leb_le _ _) Hr).
Qed.

(** While the peer sends nothing back, [n] passes of the loop queue [n]
    more messages: [messageNo] and the queue grow without bound. *)
Lemma connected_passes host port n m :
stage m = kStageConnected -> canQuit m = false -> (recvCount_ (session m) <= 20)%Z ->
let m' := Nat.iter n (main_switch host port 0) m in
star (main_step host port) m m' /\ stage m' = kStageConnected /\ canQuit m' = false /\
messageNo m' = (messageNo m + Z.of_nat n)%Z /\ recvCount_ (session m') = recvCount_ (session m) /\
length (sendMessageQueue_ (session m')) = (length (sendMessageQueue_ (session m)) + n)%nat.
Proof.
intros Hs Hq Hr. induction n as [|n IH]; simpl; [split_and!; first [done|apply star_refl|lia]|].
destruct IH as (Hst & Hs' & Hq' & Hn & Hr' & Hl).
rewrite (switch_connected_one host port _ Hs' ltac:(by rewrite Hr')). simpl.
destruct (sendMessage_fields (session (Nat.iter n (main_switch host port 0) m))
            (userMsg (messageNo (Nat.iter n (main_switch host port 0) m) + 1))) as [Eq Er].
split_and!; try done.
- eapply star_right; [exact Hst|]. rewrite <-(switch_connected_one host port _ Hs' ltac:(by rewrite Hr')).
  apply main_iter; [done|lia].
- lia.
- by rewrite Er.
- rewrite Eq, length_app, Hl. simpl. lia.
Qed.

Lemma demo_m5_state :
stage demo_m5 = kStageConnected /\ canQuit demo_m5 = false /\ messageNo demo_m5 = 0%Z /\
recvCount_ (session demo_m5) = 0%Z /\ length (sendMessageQueue_ (session demo_m5)) = 0%nat.
Proof. vm_compute. auto. Qed.

(** C12: [++messageNo] (line 325) overflows: when the server accepts the
    handshake but never answers, [getRecvCount()] stays 0 and [main] keeps
    sending, so a reachable state has [messageNo = INT_MAX + 1], the
    signed overflow of the [int] counter (undefined behaviour). *)
Theorem messageNo_overflows :
exists m, star (main_step "localhost" "8080") client_main m /\
          stage m = kStageConnected /\ messageNo m = (INT_MAX + 1)%Z.
Proof.
destruct demo_m5_state as (Hs & Hq & Hn & Hr & _).
destruct (connected_passes "localhost" "8080" (Z.to_nat (INT_MAX + 1)) demo_m5 Hs Hq ltac:(lia))
  as (Hst & Hs' & _ & Hn' & _).
eexists. split_and!; [eapply star_trans; [exact demo_m5_reachable|exact Hst]|exact Hs'|].
rewrite Hn', Hn, Z2Nat.id; [lia|unfold INT_MAX; lia].
Qed.

(** C13: The outbound queue is unbounded: for every [k] there is a run in
    which [k] messages wait in [sendMessageQueue_] (only one write is ever
    in flight, but [main] keeps appending while the peer stays silent). *)
Theorem outbound_queue_unbounded k :
exists m, star (main_step "localhost" "8080") client_main m /\
          (k <= length (sendMessageQueue_ (session m)))%nat.
Proof.
destruct demo_m5_state as (Hs & Hq & Hn & Hr & Hl).
destruct (connected_passes "localhost" "8080" k demo_m5 Hs Hq ltac:(lia))
  as (Hst & _ & _ & _ & _ & Hl').
eexists. split; [eapply star_trans; [exact demo_m5_reachable|exact Hst]|]. rewrite Hl', Hl. lia.
Qed.

End Overflow.

