(* ===== verification/Server.v ===== *)
(** * The echo server's connection handler: [do_session]
    (src/beast_issue_server.cpp, lines 22-87)

    One handler runs per accepted connection, on its own thread: it accepts
    the WebSocket handshake, then loops: set the outgoing text/binary mode
    from the last message received, read a message, write it back, count it,
    and after the 11th message sleep 12 s once.  The "once" is the
    function-local [static bool hasSleep]: a single variable of the whole
    process, shared by every connection's thread.  An exception ends the
    handler; [websocket::error::closed] is not reported.

    The peer's behaviour is the input: the handshake's outcome and a finite
    script of [Incoming] events (a message whose echo is written with some
    outcome, or a read that fails).  When the script runs out the handler is
    blocked in [ws.read] ([Blocked]).  The loop is a [Fixpoint] over the
    script, so it terminates on every finite input; the process-wide
    [hasSleep] is threaded through it. *)

From stdpp Require Import base list sets strings.
From Stdlib Require Import ZArith Lia.
From S2P Require Import Prelude Net.
Local Open Scope beast_scope.

Module EchoServer.

(** The part of [websocket::stream<tcp::socket>] the handler sets or reads:
    [text()] (mode of the next write), [got_text()] (mode of the last message
    read), [read_message_max()] and the response decorator. *)
Record SrvStream := {
  srv_text : bool;
  srv_got_text : bool;
  srv_read_max : Z;
  srv_decorated : bool
}.

(** Beast's defaults for a new stream: text mode, 16 MiB read limit. *)
Definition srv_stream_init : SrvStream :=
  {| srv_text := true; srv_got_text := true; srv_read_max := 16 * 1024 * 1024;
     srv_decorated := false |}.

(** The configuration of lines 31-40: a 50 MiB limit and the decorator. *)
Definition configure (w : SrvStream) : SrvStream :=
  {| srv_text := srv_text w; srv_got_text := srv_got_text w;
     srv_read_max := 50 * 1024 * 1024; srv_decorated := true |}.

(** What the peer does next. *)
Inductive Incoming :=
| InMsg (f : Frame) (write_result : error_code)  (* a message; the echo's outcome *)
| InErr (ec : error_code).                      (* the read fails *)

(** What the handler does that can be observed. *)
Inductive SrvEvent :=
| SEcho (f : Frame)          (* ws.write(buffer.data()) completed *)
| SSleep (secs : Z)          (* sleep(12) *)
| SLogRecover                (* [recover<thread id>] *)
| SLogError (ec : error_code). (* [Boost sys Error: ...] on std::cerr *)

Inductive Outcome := Blocked | Ended.

(** The [catch] clauses (lines 77-86): a system error other than a graceful
    close is printed. *)
Definition on_exception (ec : error_code) : list SrvEvent :=
  if decide (ec = ec_closed) then [] else [SLogError ec].

(** [ws.text(ws.got_text())] (line 49). *)
Definition sync_text (w : SrvStream) : SrvStream :=
  {| srv_text := srv_got_text w; srv_got_text := srv_got_text w;
     srv_read_max := srv_read_max w; srv_decorated := srv_decorated w |}.

(** A successful [ws.read(buffer)] of [f] (line 54) records its mode. *)
Definition read_frame (w : SrvStream) (f : Frame) : SrvStream :=
  {| srv_text := srv_text w; srv_got_text := is_text f;
     srv_read_max := srv_read_max w; srv_decorated := srv_decorated w |}.

(** The [for(;;)] body of lines 46-75 and its repetition, over the peer's
    script.  [hasSleep] is the process-wide static; the result is its final
    value, the events and how the handler stopped.  [count] is the C++
    [int] kept as an unbounded [Z]: the loop only compares it with 10 while
    [hasSleep] is clear, when it stays at most 11; once the flag is set it
    grows without reset and overflows after [INT_MAX] messages, which
    [EchoThreads.handler_count_overflows] shows on the threaded model. *)
Fixpoint session_loop (hasSleep : bool) (count : Z) (w : SrvStream) (ins : list Incoming)
    : bool * list SrvEvent * Outcome :=
  match ins with
  | [] => (hasSleep, [], Blocked)
  | InErr ec :: _ => (hasSleep, on_exception ec, Ended)
  | InMsg f wr :: rest =>
      let w1 := sync_text w in
      (* ws.read(buffer): a message over read_message_max() throws *)
      if (srv_read_max w1 <? Z.of_nat (String.length (payload f)))%Z
      then (hasSleep, on_exception ec_message_too_big, Ended)
      else
        let w2 := read_frame w1 f in
        (* ws.write(buffer.data()), in the mode ws.text() *)
        if failed wr then (hasSleep, on_exception wr, Ended)
        else
          let echo := SEcho {| payload := payload f; is_text := srv_text w2 |} in
          let count1 := (count + 1)%Z in
          if (10 <? count1)%Z && negb hasSleep then
            let '(hs, evs, o) := session_loop true 0 w2 rest in
            (hs, echo :: SSleep 12 :: SLogRecover :: evs, o)
          else
            let '(hs, evs, o) := session_loop hasSleep count1 w2 rest in
            (hs, echo :: evs, o)
  end.

(** [do_session] (lines 22-87): the handshake ([ws.accept()]), then the
    loop from [count = 0]. *)
Definition do_session (hasSleep : bool) (accept_result : error_code) (ins : list Incoming)
    : bool * list SrvEvent * Outcome :=
  if failed accept_result then (hasSleep, on_exception accept_result, Ended)
  else session_loop hasSleep 0 (configure srv_stream_init) ins.

(** Handlers run one after another: each starts with the [hasSleep] the
    previous ones left.  (The threads of the real server overlap; this is
    the schedule in which each handler finishes before the next is
    accepted.) *)
Fixpoint serve (hasSleep : bool) (conns : list (error_code * list Incoming))
    : bool * list (list SrvEvent) :=
  match conns with
  | [] => (hasSleep, [])
  | (acc, ins) :: rest =>
      let '(hs, evs, _) := do_session hasSleep acc ins in
      let '(hs', evss) := serve hs rest in
      (hs', evs :: evss)
  end.

(** The stream after the loop has processed [fs]. *)
Fixpoint stream_after (w : SrvStream) (fs : list Frame) : SrvStream :=
  match fs with
  | [] => w
  | f :: fs' => stream_after (read_frame (sync_text w) f) fs'
  end.

(** Observations on event lists. *)
Definition echoes (evs : list SrvEvent) : list Frame :=
  omap (fun e => match e with SEcho f => Some f | _ => None end) evs.
Definition is_sleep (e : SrvEvent) : bool := match e with SSleep _ => true | _ => false end.

(** The peer sends [fs], every echo is written. *)
Definition msgs_ok (fs : list Frame) : list Incoming := map (fun f => InMsg f ec_success) fs.

Definition fits (max : Z) (f : Frame) : Prop := (Z.of_nat (String.length (payload f)) <= max)%Z.

(** The echoes of the loop, by their definition: each message comes back
    with its payload and the mode of the message before it. *)
Fixpoint lag_echo (t0 : bool) (fs : list Frame) : list Frame :=
  match fs with
  | [] => []
  | f :: fs' => {| payload := payload f; is_text := t0 |} :: lag_echo (is_text f) fs'
  end.

(** The mode of the last message of [fs], [t] if there is none. *)
Fixpoint last_mode (t : bool) (fs : list Frame) : bool :=
  match fs with [] => t | f :: fs' => last_mode (is_text f) fs' end.

(** A small text message, for the concrete runs. *)
Definition demo_frame : Frame := {| payload := "m"; is_text := true |}.

(** The limit [do_session] configures. *)
Definition server_read_max : Z := 50 * 1024 * 1024.

Section LoopLemmas.

Lemma fits_read_max w f :
  fits (srv_read_max w) f -> (srv_read_max w <? Z.of_nat (String.length (payload f)))%Z = false.
Proof. unfold fits. simpl. intros H. apply Z.ltb_ge. lia. Qed.

(** The loop on well-sized messages whose echoes are all written. *)
Lemma loop_echoes hs c w fs :
  Forall (fits (srv_read_max w)) fs ->
  let '(_, evs, o) := session_loop hs c w (msgs_ok fs) in
  echoes evs = lag_echo (srv_got_text w) fs /\ o = Blocked.
Proof.
  revert hs c w. induction fs as [|f fs IH]; intros hs c w Hfit; simpl; [done|].
  apply Forall_cons in Hfit as [Hf Hfs]. rewrite (fits_read_max _ _ Hf). simpl.
  destruct (_ && _);
    [specialize (IH true 0%Z (read_frame (sync_text w) f) Hfs)
    |specialize (IH hs (c + 1)%Z (read_frame (sync_text w) f) Hfs)];
    destruct (session_loop _ _ _ _) as [[hs' evs] o]; destruct IH as [He Ho]; simpl;
    by rewrite He.
Qed.

(** [hasSleep] is set exactly when the loop sleeps: the sleeps plus the
    initial flag make the final flag. *)
Lemma loop_sleeps hs c w ins :
  let '(hs', evs, _) := session_loop hs c w ins in
  (count_if is_sleep evs + (if hs then 1 else 0) = if hs' then 1 else 0)%nat.
Proof.
  revert hs c w. induction ins as [|[f wr|ec] ins IH]; intros hs c w; simpl.
  - done.
  - destruct (_ <? _)%Z; [unfold on_exception; case_decide; simpl; lia|].
    destruct (failed wr); [unfold on_exception; case_decide; simpl; lia|].
    destruct (10 <? c + 1)%Z eqn:E1, hs; simpl;
      [ specialize (IH true (c + 1)%Z (read_frame (sync_text w) f))
      | specialize (IH true 0%Z (read_frame (sync_text w) f))
      | specialize (IH true (c + 1)%Z (read_frame (sync_text w) f))
      | specialize (IH false (c + 1)%Z (read_frame (sync_text w) f)) ];
      destruct (session_loop _ _ _ _) as [[hs' evs] o]; simpl; lia.
  - unfold on_exception. case_decide; simpl; lia.
Qed.

Lemma on_exception_not_closed ec : SLogError ec_closed ∉ on_exception ec.
Proof.
  unfold on_exception. case_decide; [set_solver|].
  rewrite elem_of_cons. intros [Heq|Hin]; [congruence|set_solver].
Qed.

(** A graceful close is never reported by the loop. *)
Lemma loop_no_closed_error hs c w ins :
  let '(_, evs, _) := session_loop hs c w ins in SLogError ec_closed ∉ evs.
Proof.
  pose proof on_exception_not_closed as Hex.
  revert hs c w. induction ins as [|[f wr|ec] ins IH]; intros hs c w; simpl.
  - set_solver.
  - destruct (_ <? _)%Z; [apply Hex|]. destruct (failed wr); [apply Hex|].
    destruct (_ && _);
      [specialize (IH true 0%Z (read_frame (sync_text w) f))
      |specialize (IH hs (c + 1)%Z (read_frame (sync_text w) f))];
      destruct (session_loop _ _ _ _) as [[hs' evs] o]; intros Hc;
      repeat (apply elem_of_cons in Hc as [Hc|Hc]; [discriminate|]); by apply IH.
  - apply Hex.
Qed.

(** Below the threshold the loop only echoes: [pre] messages take the count
    from [c] to [c + length pre]. *)
Lemma loop_prefix hs c w pre rest :
  Forall (fits (srv_read_max w)) pre -> (c + Z.of_nat (length pre) <= 10)%Z ->
  session_loop hs c w (msgs_ok pre ++ rest) =
  let '(hs', evs, o) := session_loop hs (c + Z.of_nat (length pre)) (stream_after w pre) rest in
  (hs', map SEcho (lag_echo (srv_got_text w) pre) ++ evs, o).
Proof.
  revert c w. induction pre as [|f pre IH]; intros c w Hfit Hc; simpl.
  - rewrite Z.add_0_r. by destruct (session_loop _ _ _ _) as [[? ?] ?].
  - cbn [length] in *. rewrite Nat2Z.inj_succ in *.
    apply Forall_cons in Hfit as [Hf Hfs]. rewrite (fits_read_max _ _ Hf). simpl.
    replace ((10 <? c + 1)%Z) with false by (symmetry; apply Z.ltb_ge; lia). simpl.
    rewrite (IH (c + 1)%Z (read_frame (sync_text w) f) Hfs ltac:(lia)).
    replace (c + 1 + Z.of_nat (length pre))%Z with (c + Z.succ (Z.of_nat (length pre)))%Z by lia.
    by destruct (session_loop _ _ _ _) as [[? ?] ?].
Qed.

End LoopLemmas.

Section EchoLemmas.

Lemma lag_echo_payload t fs : map payload (lag_echo t fs) = map payload fs.
Proof. revert t. induction fs as [|f fs IH]; intros t; simpl; [done|]. by rewrite IH. Qed.

Lemma lag_echo_app t pre post :
  lag_echo t (pre ++ post) = lag_echo t pre ++ lag_echo (last_mode t pre) post.
Proof. revert t. induction pre as [|f pre IH]; intros t; simpl; [done|]. by rewrite IH. Qed.

Lemma stream_after_got w pre : srv_got_text (stream_after w pre) = last_mode (srv_got_text w) pre.
Proof. revert w. induction pre as [|f pre IH]; intros w; simpl; [done|]. by rewrite IH. Qed.

Lemma stream_after_max w pre : srv_read_max (stream_after w pre) = srv_read_max w.
Proof. revert w. induction pre as [|f pre IH]; intros w; simpl; [done|]. by rewrite IH. Qed.

Lemma do_session_ok hs ins :
  do_session hs ec_success ins = session_loop hs 0 (configure srv_stream_init) ins.
Proof. done. Qed.

Lemma do_session_sleeps hs acc ins :
  let '(hs', evs, _) := do_session hs acc ins in
  (count_if is_sleep evs + (if hs then 1 else 0) = if hs' then 1 else 0)%nat.
Proof.
  unfold do_session. destruct (failed acc); [|apply loop_sleeps].
  unfold on_exception. case_decide; simpl; lia.
Qed.

Lemma serve_sleeps hs conns :
  let '(hs', evss) := serve hs conns in
  (count_if is_sleep (concat evss) + (if hs then 1 else 0) = if hs' then 1 else 0)%nat.
Proof.
  revert hs. induction conns as [|[acc ins] conns IH]; intros hs; simpl; [done|].
  pose proof (do_session_sleeps hs acc ins) as Hd.
  destruct (do_session _ _ _) as [[hs1 evs] o]. specialize (IH hs1).
  destruct (serve hs1 conns) as [hs' evss]. simpl. rewrite count_if_app. lia.
Qed.

End EchoLemmas.

Section Properties.

(** C6: Echo integrity.  For messages within the 50 MiB limit whose echoes
    are written, the handler sends back exactly the payloads it received,
    in order, and is still serving (blocked in the next read). *)
Theorem echo_payload_identical hs fs :
  Forall (fits server_read_max) fs ->
  let '(_, evs, o) := do_session hs ec_success (msgs_ok fs) in
  map payload (echoes evs) = map payload fs /\ o = Blocked.
Proof.
  intros Hfit. rewrite do_session_ok.
  pose proof (loop_echoes hs 0 (configure srv_stream_init) fs Hfit) as He.
  destruct (session_loop _ _ _ _) as [[hs' evs] o]. destruct He as [-> ->].
  by rewrite lag_echo_payload.
Qed.

Lemma echo_payload_identical_witness :
  Forall (fits server_read_max) [{| payload := "hi"; is_text := true |}] /\
  map payload (echoes (do_session false ec_success (msgs_ok [{| payload := "hi"; is_text := true |}])).1.2)
  = ["hi"].
Proof.
  assert (Hf : Forall (fits server_read_max) [{| payload := "hi"; is_text := true |}])
    by (repeat constructor; unfold fits, server_read_max; simpl; lia).
  split; [exact Hf|].
  pose proof (echo_payload_identical false _ Hf) as H.
  destruct (do_session _ _ _) as [[hs evs] o]. exact (proj1 H).
Defined.

(** C19: Echo mode.  The echo of each message is written in the mode of the
    message received before it ([ws.text(ws.got_text())] runs before the
    read), the first one in the stream's initial text mode: the text/binary
    flag of the echo is the previous message's, not its own. *)
Theorem echo_mode_of_previous hs fs :
  Forall (fits server_read_max) fs ->
  let '(_, evs, _) := do_session hs ec_success (msgs_ok fs) in
  echoes evs = lag_echo true fs.
Proof.
  intros Hfit. rewrite do_session_ok.
  pose proof (loop_echoes hs 0 (configure srv_stream_init) fs Hfit) as He.
  destruct (session_loop _ _ _ _) as [[hs' evs] o]. by destruct He.
Qed.

Lemma echo_mode_of_previous_witness :
  echoes (do_session false ec_success
            (msgs_ok [{| payload := "a"; is_text := false |}; {| payload := "b"; is_text := true |}])).1.2
  = [{| payload := "a"; is_text := true |}; {| payload := "b"; is_text := false |}].
Proof.
  assert (Hf : Forall (fits server_read_max)
                 [{| payload := "a"; is_text := false |}; {| payload := "b"; is_text := true |}])
    by (repeat constructor; unfold fits, server_read_max; simpl; lia).
  pose proof (echo_mode_of_previous false _ Hf) as H.
  destruct (do_session _ _ _) as [[hs evs] o]. exact H.
Defined.

(** C20: The stall.  On a fresh process ([hasSleep] false), the handler
    echoes the first ten messages, and right after the echo of the 11th it
    sleeps 12 s (then prints "recover"); the process-wide flag is then set. *)
Theorem stall_after_eleventh pre f rest :
  length pre = 10%nat -> Forall (fits server_read_max) (pre ++ [f]) ->
  let '(hs, evs, _) := do_session false ec_success (msgs_ok (pre ++ [f]) ++ rest) in
  hs = true /\
  exists evs', evs = map SEcho (lag_echo true (pre ++ [f])) ++ SSleep 12 :: SLogRecover :: evs'.
Proof.
  intros Hl Hfit. rewrite do_session_ok. apply Forall_app in Hfit as [Hpre Hf].
  apply Forall_cons in Hf as [Hf _].
  replace (msgs_ok (pre ++ [f]) ++ rest) with (msgs_ok pre ++ (InMsg f ec_success :: rest))
    by (unfold msgs_ok; rewrite map_app, <-app_assoc; done).
  rewrite (loop_prefix false 0 (configure srv_stream_init) pre _ Hpre) by (rewrite Hl; lia).
  rewrite Hl. simpl.
  rewrite (fits_read_max (stream_after (configure srv_stream_init) pre) f);
    [|rewrite stream_after_max; exact Hf]. simpl.
  pose proof (loop_sleeps true 0 (read_frame (sync_text (stream_after (configure srv_stream_init) pre)) f) rest)
    as Hs.
  destruct (session_loop _ _ _ _) as [[hs' evs] o]. split; [by destruct hs'; simpl in Hs; lia|].
  exists evs. rewrite lag_echo_app, map_app, <-app_assoc. simpl.
  by rewrite stream_after_got.
Qed.

Lemma stall_after_eleventh_witness :
  length (repeat demo_frame 10) = 10%nat /\
  (do_session false ec_success (msgs_ok (repeat demo_frame 10 ++ [demo_frame]) ++ [])).1.1 = true.
Proof.
  assert (Hf : Forall (fits server_read_max) (repeat demo_frame 10 ++ [demo_frame]))
    by (repeat constructor; unfold fits, server_read_max; simpl; lia).
  split; [reflexivity|].
  pose proof (stall_after_eleventh (repeat demo_frame 10) demo_frame [] eq_refl Hf) as H.
  destruct (do_session _ _ _) as [[hs evs] o]. exact (proj1 H).
Defined.

(** Across all the connections a server process handles one after
    another, the stall happens at most once in total: [hasSleep] is one
    [static] of the process, not a per-connection flag. *)
Theorem serve_stalls_at_most_once conns :
  (count_if is_sleep (concat (serve false conns).2) <= 1)%nat.
Proof.
  pose proof (serve_sleeps false conns) as H. destruct (serve false conns) as [hs' evss].
  simpl. destruct hs'; lia.
Qed.

(** C21: Once any handler of the process has stalled, no handler ever
    stalls again, on any input: the stall is global-once, whereas §4.6 of
    the spec describes it per handler instance. *)
Theorem later_connection_never_stalls acc ins :
  count_if is_sleep (do_session true acc ins).1.2 = 0%nat.
Proof.
  pose proof (do_session_sleeps true acc ins) as H. destruct (do_session true acc ins) as [[hs' evs] o].
  simpl. destruct hs'; lia.
Qed.

(** C27: Scenario D on the server: a graceful close by the peer ends the
    handler without an error line, on every input. *)
Theorem server_graceful_close_not_logged hs acc ins :
  SLogError ec_closed ∉ (do_session hs acc ins).1.2.
Proof.
  unfold do_session. destruct (failed acc); [apply on_exception_not_closed|].
  pose proof (loop_no_closed_error hs 0 (configure srv_stream_init) ins) as H.
  destruct (session_loop _ _ _ _) as [[hs' evs] o]. exact H.
Qed.

End Properties.

End EchoServer.
