(* ===== verification/ServerThreads.v ===== *)
(** * The server's handler threads and the shared [hasSleep]
    (src/beast_issue_server.cpp, lines 22-87 and 114-126)

    The server's [main] accepts connections for ever and runs each
    [do_session] on a detached [std::thread]; the threads share the
    function-local [static bool hasSleep] (line 58) with no synchronisation.
    Here a thread is [do_session]'s loop cut at the points where another
    thread can observe or change [hasSleep]: [PcLoop] (read, echo, count),
    [PcTest] (about to evaluate [!hasSleep], line 64), [PcSet] (about to
    execute [hasSleep = true; count = 0; sleep(12)], lines 66-69), [PcDone]
    (an exception ended the handler).  A process is the flag and the list
    of threads; [proc_step] accepts a connection or lets any one thread make
    its next step, in any interleaving.

    [hasSleep_race] exhibits an interleaving of two connections in which
    both threads stall (the data race of the test and the set);
    [sleeps_per_thread_at_most_once] bounds the stalls by one per thread;
    [handler_count_overflows] runs one connection past the range of its
    [int count], which is never reset once [hasSleep] is set. *)

From stdpp Require Import base list sets strings.
From Stdlib Require Import ZArith Lia.
From S2P Require Import Prelude Net Server.
Local Open Scope beast_scope.

Module EchoThreads.
Import EchoServer.

Inductive Pc := PcLoop | PcTest | PcSet | PcDone.

#[export] Instance Pc_eq_dec : EqDecision Pc.
Proof. solve_decision. Defined.

(** A handler thread: where it is, its local [count] and stream, the rest of
    its peer's script and what it has done so far. *)
Record Thread := mkThread {
  pc : Pc;
  count : Z;
  stream : SrvStream;
  script : list Incoming;
  out : list SrvEvent
}.

(** The process: the shared static and the threads accepted so far. *)
Record Proc := mkProc { hasSleep : bool; threads : list Thread }.

(** A new thread for an accepted socket: [do_session] up to the loop. *)
Definition spawn (accept_result : error_code) (ins : list Incoming) : Thread :=
  if failed accept_result
  then mkThread PcDone 0 srv_stream_init [] (on_exception accept_result)
  else mkThread PcLoop 0 (configure srv_stream_init) ins [].

Definition ended (t : Thread) (evs : list SrvEvent) : Thread :=
  mkThread PcDone (count t) (stream t) [] (out t ++ evs).

(** The next step of one thread, reading and possibly writing the shared
    flag; [None] when the thread is blocked in a read or has ended. *)
Definition thread_step (hs : bool) (t : Thread) : option (bool * Thread) :=
  match pc t with
  | PcLoop =>
      match script t with
      | [] => None
      | InErr ec :: _ => Some (hs, ended t (on_exception ec))
      | InMsg f wr :: rest =>
          let w1 := sync_text (stream t) in
          if (srv_read_max w1 <? Z.of_nat (String.length (payload f)))%Z
          then Some (hs, ended t (on_exception ec_message_too_big))
          else
            let w2 := read_frame w1 f in
            if failed wr then Some (hs, ended t (on_exception wr))
            else
              let count1 := (count t + 1)%Z in
              Some (hs, mkThread (if (10 <? count1)%Z then PcTest else PcLoop) count1 w2 rest
                          (out t ++ [SEcho {| payload := payload f; is_text := srv_text w2 |}]))
      end
  | PcTest =>
      Some (hs, mkThread (if hs then PcLoop else PcSet) (count t) (stream t) (script t) (out t))
  | PcSet =>
      Some (true, mkThread PcLoop 0 (stream t) (script t) (out t ++ [SSleep 12; SLogRecover]))
  | PcDone => None
  end.

Inductive proc_step : Proc -> Proc -> Prop :=
| ps_thread p i t hs' t' :
    threads p !! i = Some t -> thread_step (hasSleep p) t = Some (hs', t') ->
    proc_step p (mkProc hs' (<[i := t']> (threads p)))
| ps_accept p acc ins :
    proc_step p (mkProc (hasSleep p) (threads p ++ [spawn acc ins])).

Definition proc_init : Proc := mkProc false [].

Definition sleeps (t : Thread) : nat := count_if is_sleep (out t).
Definition total_sleeps (p : Proc) : nat := sum_list (map sleeps (threads p)).

(** The whole server process after start-up: the accept loop runs until
    [acceptor.accept] throws; the exception reaches the [catch] of
    [main] (lines 128-132), which returns [EXIT_FAILURE] and so ends every
    detached handler thread with the process. *)
Inductive ServerProc := Running (p : Proc) | Exited (st : exit_status).

Inductive server_step : ServerProc -> ServerProc -> Prop :=
| srv_run p p' : proc_step p p' -> server_step (Running p) (Running p')
| srv_accept_error p : server_step (Running p) (Exited EXIT_FAILURE).

(** A scheduler for concrete runs: let the listed threads step in order
    (a thread that cannot step is skipped). *)
Definition run_thread (i : nat) (p : Proc) : Proc :=
  match threads p !! i with
  | Some t =>
      match thread_step (hasSleep p) t with
      | Some (hs', t') => mkProc hs' (<[i := t']> (threads p))
      | None => p
      end
  | None => p
  end.

Fixpoint schedule (l : list nat) (p : Proc) : Proc :=
  match l with [] => p | i :: l' => schedule l' (run_thread i p) end.

(** Two connections each sending eleven messages, accepted one after the
    other, scheduled so that both threads evaluate [!hasSleep] before either
    sets it. *)
Definition race_script : list Incoming := msgs_ok (repeat demo_frame 11).
Definition race_accepted : Proc :=
  mkProc false [spawn ec_success race_script; spawn ec_success race_script].
Definition race_schedule : list nat := repeat 0%nat 11 ++ repeat 1%nat 11 ++ [0; 1; 0; 1]%nat.

(** A process with the single thread [t]. *)
Definition solo (hs : bool) (t : Thread) : Proc := mkProc hs [t].

(** A thread has slept at most once, and only after setting the flag;
    a thread about to set the flag has not slept yet. *)
Definition thread_ok (hs : bool) (t : Thread) : Prop :=
  sleeps t = 0%nat \/ (sleeps t = 1%nat /\ hs = true /\ pc t <> PcSet).

Definition proc_ok (p : Proc) : Prop := Forall (thread_ok (hasSleep p)) (threads p).

Section Lemmas.

Lemma run_thread_star p i : star proc_step p (run_thread i p).
Proof.
  unfold run_thread. destruct (threads p !! i) as [t|] eqn:Ht; [|apply star_refl].
  destruct (thread_step (hasSleep p) t) as [[hs' t']|] eqn:Hs; [|apply star_refl].
  apply star_one. by eapply ps_thread.
Qed.

Lemma schedule_star l p : star proc_step p (schedule l p).
Proof.
  revert p. induction l as [|i l IH]; intros p; simpl; [apply star_refl|].
  eapply star_trans; [apply run_thread_star|apply IH].
Qed.

Lemma race_accepted_reachable : star proc_step proc_init race_accepted.
Proof.
  eapply star_step; [apply (ps_accept proc_init ec_success race_script)|].
  eapply star_step; [apply (ps_accept _ ec_success race_script)|]. apply star_refl.
Qed.

Lemma thread_step_flag hs t hs' t' : thread_step hs t = Some (hs', t') -> hs = true -> hs' = true.
Proof.
  unfold thread_step. intros Hs ->. repeat case_match; by simplify_eq.
Qed.

Lemma thread_ok_mono hs hs' t : thread_ok hs t -> (hs = true -> hs' = true) -> thread_ok hs' t.
Proof. intros [H0|(H1 & -> & Hpc)] Hm; [by left|right; auto]. Qed.

Lemma sleeps_app t evs : count_if is_sleep (out t ++ evs) = (sleeps t + count_if is_sleep evs)%nat.
Proof. unfold sleeps. apply count_if_app. Qed.

Lemma on_exception_no_sleep ec : count_if is_sleep (on_exception ec) = 0%nat.
Proof. unfold on_exception. by case_decide. Qed.

Lemma thread_ok_step hs t hs' t' :
  thread_ok hs t -> thread_step hs t = Some (hs', t') -> thread_ok hs' t'.
Proof.
  intros Hok Hs. pose proof (thread_step_flag hs t hs' t' Hs) as Hm.
  unfold thread_step in Hs. unfold thread_ok, sleeps in *.
  destruct (pc t) eqn:Epc; repeat case_match; simplify_eq; simpl;
    rewrite ?count_if_app, ?on_exception_no_sleep; simpl;
    destruct Hok as [Hz|(Hone & Hh & Hpc)]; try congruence;
    first [ left; lia | right; split_and!; auto; lia | idtac ].
Qed.

Lemma proc_ok_step p p' : proc_ok p -> proc_step p p' -> proc_ok p'.
Proof.
  intros Hok Hst. destruct Hst as [p i t hs' t' Hi Hs|p acc ins]; unfold proc_ok in *; simpl.
  - pose proof (thread_step_flag _ _ _ _ Hs) as Hm.
    apply Forall_insert.
    + eapply Forall_impl; [exact Hok|]. intros x Hx. eauto using thread_ok_mono.
    + eapply thread_ok_step; [|exact Hs]. by eapply Forall_lookup_1.
  - apply Forall_app; split; [done|]. apply Forall_singleton.
    left. unfold spawn, sleeps. case_match; simpl; [apply on_exception_no_sleep|done].
Qed.

Lemma total_sleeps_bound ts hs :
  Forall (thread_ok hs) ts -> (sum_list (map sleeps ts) <= length ts)%nat.
Proof.
  induction 1 as [|t ts [H0|(H1 & _)] _ IH]; simpl; lia.
Qed.

(** An exited server does nothing more: its threads are gone. *)
Lemma server_step_exited st x : ~ server_step (Exited st) x.
Proof. intros H. inversion H. Qed.

(** A step of the only thread is a step of the process. *)
Lemma solo_step hs t hs' t' :
  thread_step hs t = Some (hs', t') -> star proc_step (solo hs t) (solo hs' t').
Proof. intros H. apply star_one. exact (ps_thread (solo hs t) 0 t hs' t' eq_refl H). Qed.

(** The configured stream keeps its 50 MiB limit through the loop. *)
Definition max50 (w : SrvStream) : Prop := srv_read_max w = (50 * 1024 * 1024)%Z.

Lemma read_demo_frame w : max50 w -> max50 (read_frame (sync_text w) demo_frame).
Proof. done. Qed.

(** Once [hasSleep] is set, every message of the script adds one to
    [count], with no reset: past the threshold the test at line 64 finds the
    flag set and the loop goes on. *)
Lemma count_run_set k c w rest evs :
  max50 w ->
  exists w' evs', max50 w' /\
    star proc_step (solo true (mkThread PcLoop c w (msgs_ok (repeat demo_frame k) ++ rest) evs))
                   (solo true (mkThread PcLoop (c + Z.of_nat k) w' rest evs')).
Proof.
  revert c w evs. induction k as [|k IH]; intros c w evs Hw.
  - exists w, evs. split; [done|]. rewrite Z.add_0_r. apply star_refl.
  - pose proof (read_demo_frame w Hw) as Hw'.
    destruct (IH (c + 1)%Z _ (evs ++ [SEcho {| payload := payload demo_frame;
                                   is_text := srv_text (read_frame (sync_text w) demo_frame) |}]) Hw')
      as (w' & evs' & Hw'' & Hst).
    exists w', evs'. split; [done|]. replace (c + Z.of_nat (S k))%Z with (c + 1 + Z.of_nat k)%Z by lia.
    eapply star_trans; [|exact Hst].
    destruct (10 <? c + 1)%Z eqn:E10.
    + eapply star_trans; [apply solo_step; unfold thread_step; simpl; rewrite (Hw : srv_read_max w = _), E10; reflexivity|].
      apply solo_step. reflexivity.
    + apply solo_step. unfold thread_step; simpl. by rewrite (Hw : srv_read_max w = _), E10.
Qed.

(** Before the flag is set, the first ten messages only count. *)
Lemma count_run_clear k c w rest evs :
  max50 w -> (0 <= c)%Z -> (c + Z.of_nat k <= 10)%Z ->
  exists w' evs', max50 w' /\
    star proc_step (solo false (mkThread PcLoop c w (msgs_ok (repeat demo_frame k) ++ rest) evs))
                   (solo false (mkThread PcLoop (c + Z.of_nat k) w' rest evs')).
Proof.
  revert c w evs. induction k as [|k IH]; intros c w evs Hw Hc Hk.
  - exists w, evs. split; [done|]. rewrite Z.add_0_r. apply star_refl.
  - pose proof (read_demo_frame w Hw) as Hw'.
    destruct (IH (c + 1)%Z _ (evs ++ [SEcho {| payload := payload demo_frame;
                                   is_text := srv_text (read_frame (sync_text w) demo_frame) |}]) Hw')
      as (w' & evs' & Hw'' & Hst); [lia|lia|].
    exists w', evs'. split; [done|]. replace (c + Z.of_nat (S k))%Z with (c + 1 + Z.of_nat k)%Z by lia.
    eapply star_trans; [|exact Hst]. apply solo_step. unfold thread_step; simpl.
    rewrite (Hw : srv_read_max w = _). replace (10 <? c + 1)%Z with false by (symmetry; apply Z.ltb_ge; lia). reflexivity.
Qed.

(** One connection sending [11 + n] messages: the eleventh sets the flag
    and resets [count]; the [n] after it leave [count = n]. *)
Lemma count_reaches n :
  exists p t, star proc_step proc_init p /\ t ∈ threads p /\ hasSleep p = true /\
              count t = Z.of_nat n.
Proof.
  set (rest := msgs_ok (repeat demo_frame n)).
  destruct (count_run_clear 10 0 (configure srv_stream_init) (InMsg demo_frame ec_success :: rest) []
              eq_refl ltac:(lia) ltac:(simpl; lia)) as (w1 & evs1 & Hw1 & H1).
  pose proof (read_demo_frame w1 Hw1) as Hw2.
  set (w2 := read_frame (sync_text w1) demo_frame).
  set (t2 := mkThread PcLoop 0 w2 rest
               ((evs1 ++ [SEcho {| payload := payload demo_frame; is_text := srv_text w2 |}])
                  ++ [SSleep 12; SLogRecover])).
  assert (H2 : star proc_step proc_init (solo true t2)).
  { eapply star_step; [apply (ps_accept proc_init ec_success)|]. eapply star_trans; [exact H1|].
    eapply star_trans; [apply solo_step; unfold thread_step; simpl; rewrite (Hw1 : srv_read_max w1 = _); reflexivity|].
    eapply star_trans; [apply solo_step; reflexivity|]. apply solo_step; reflexivity. }
  destruct (count_run_set n 0 w2 [] (out t2) Hw2) as (w3 & evs3 & _ & H3).
  rewrite app_nil_r in H3.
  eexists (solo true _), _. split_and!;
    [eapply star_trans; [exact H2|exact H3]|by apply list_elem_of_singleton|reflexivity|reflexivity].
Qed.

End Lemmas.

Section Properties.

(** C31: The race on [hasSleep].  The process can reach a state in which
    two handlers have both slept 12 s: after each of two connections has
    delivered eleven messages, both threads evaluate [!hasSleep] before
    either sets it.  The "sleep once" of the code is not guaranteed once
    handlers run concurrently (and the unsynchronised accesses are a data
    race). *)
Theorem hasSleep_race :
  exists p, star proc_step proc_init p /\ total_sleeps p = 2%nat /\
    Forall (fun t => sleeps t = 1%nat) (threads p).
Proof.
  exists (schedule race_schedule race_accepted). split_and!.
  - eapply star_trans; [exact race_accepted_reachable|apply schedule_star].
  - vm_compute. reflexivity.
  - vm_compute. repeat constructor.
Qed.

(** C32: In every reachable state of the process each handler thread has
    slept at most once, so the stalls never outnumber the connections, and
    nothing has slept while [hasSleep] is clear. *)
Theorem sleeps_per_thread_at_most_once p :
  star proc_step proc_init p ->
  Forall (fun t => (sleeps t <= 1)%nat) (threads p) /\
  (total_sleeps p <= length (threads p))%nat /\
  (hasSleep p = false -> total_sleeps p = 0%nat).
Proof.
  intros Hr. assert (Hok : proc_ok p).
  { apply (star_invariant _ proc_ok proc_ok_step _ _ Hr). constructor. }
  unfold proc_ok, total_sleeps in *. split_and!.
  - eapply Forall_impl; [exact Hok|]. intros t [H0|(H1 & _)]; lia.
  - apply (total_sleeps_bound _ _ Hok).
  - intros Hf. induction Hok as [|t ts [H0|(_ & Hh & _)] _ IH]; simpl; [done| |congruence].
    rewrite H0, IH. done.
Qed.

Lemma sleeps_per_thread_at_most_once_witness :
  (total_sleeps (schedule race_schedule race_accepted) <=
   length (threads (schedule race_schedule race_accepted)))%nat.
Proof.
  refine (proj1 (proj2 (sleeps_per_thread_at_most_once _ _))).
  eapply star_trans; [exact race_accepted_reachable|apply schedule_star].
Defined.

(** C14: The handler's [int count] (line 45) is reset only by the thread
    that sets [hasSleep] (line 67); afterwards every message increments it
    (line 59) and nothing bounds it.  A single connection that keeps sending
    drives it to [INT_MAX + 1]: [++count] overflows a signed [int], which is
    undefined behaviour. *)
Theorem handler_count_overflows :
  exists p t, star proc_step proc_init p /\ t ∈ threads p /\ hasSleep p = true /\
              count t = (INT_MAX + 1)%Z.
Proof.
  destruct (count_reaches (Z.to_nat (INT_MAX + 1))) as (p & t & Hr & Ht & Hs & Hc).
  exists p, t. split_and!; [done|done|done|]. rewrite Hc. unfold INT_MAX. lia.
Qed.

End Properties.

End EchoThreads.
