(* ===== verification/CommandLine.v ===== *)
(** * The command lines of the two programs

    Both [main]s check their arguments before anything else.
    - The client (src/beast_issue_client.cpp, lines 264-275) needs at least
      [<host> <port>]: with fewer it prints its usage on [std::cerr] and
      returns [EXIT_FAILURE]; extra arguments are ignored.  Host and port
      are passed as strings to [WebsocketSession::run]; the port is never
      converted by the program (the resolver reads it).
    - The server (src/beast_issue_server.cpp, lines 93-113 and 128-132)
      needs exactly [<address> <port>].  It parses the address with
      [net::ip::make_address], which throws on a malformed address, reads
      the port with [std::atoi] and narrows it with
      [static_cast<unsigned short>], then binds the acceptor, which throws
      when the endpoint cannot be bound.  Every exception reaches the
      [catch] of line 128: a message and [EXIT_FAILURE].  Otherwise the
      accept loop runs for ever ([ServerThreads]).

    [atoi] is the C library's: leading white space, an optional sign, the
    longest run of decimal digits; a value outside [int] is undefined
    behaviour ([None]).  The address parser and the outcome of binding are
    the libraries' and are the [Context] of [Section ServerMain].  The
    theorems: the listening port is the argument modulo 2^16, a port with
    no digits listens on port 0, and the usage and error paths;
    [server_process] joins the start-up to the accept loop of
    [ServerThreads], whose only end is the [catch] of line 128. *)

From Stdlib Require Import ZArith Lia String Ascii List.
From S2P Require Import Prelude ServerThreads.
Import ListNotations.
Local Open Scope Z_scope.
Local Open Scope bool_scope.

(** ** [std::atoi] *)

(** [isspace] in the C locale: blank, and the codes 9 to 13
    (tab, newline, vertical tab, form feed, carriage return). *)
Definition is_space (c : ascii) : bool :=
  let n := nat_of_ascii c in ((n =? 32) || ((9 <=? n) && (n <=? 13)))%nat.

Definition is_digit (c : ascii) : bool :=
  let n := nat_of_ascii c in ((48 <=? n) && (n <=? 57))%nat.

Definition digit_value (c : ascii) : Z := Z.of_nat (nat_of_ascii c) - 48.

Fixpoint skip_space (s : string) : string :=
  match s with
  | String c s' => if is_space c then skip_space s' else s
  | EmptyString => EmptyString
  end.

(** The digits at the front of [s], accumulated onto [acc]; scanning stops
    at the first character that is not a digit. *)
Fixpoint accum_digits (acc : Z) (s : string) : Z :=
  match s with
  | String c s' => if is_digit c then accum_digits (10 * acc + digit_value c) s' else acc
  | EmptyString => acc
  end.

(** The value of the longest prefix of the form
    [space* (+|-)? digit*], as [strtol] computes it before any range
    check; 0 when there is no digit. *)
Definition decimal_prefix (s : string) : Z :=
  match skip_space s with
  | String c r =>
      if Ascii.eqb c "-"%char then - accum_digits 0 r
      else if Ascii.eqb c "+"%char then accum_digits 0 r
      else accum_digits 0 (String c r)
  | EmptyString => 0
  end.

(** [std::atoi(s)]: [None] when the value is not an [int] (undefined
    behaviour, ISO C 7.22.1). *)
Definition atoi (s : string) : option Z :=
  let v := decimal_prefix s in
  if (INT_MIN <=? v) && (v <=? INT_MAX) then Some v else None.

(** ** Narrowing to [unsigned short] *)

Definition USHRT_MAX : Z := 2 ^ 16 - 1.

(** [static_cast<unsigned short>(i)]: the value modulo 2^16 (C++
    [conv.integral]). *)
Definition to_ushort (i : Z) : Z := i mod (USHRT_MAX + 1).

(** ** The client's [main], lines 264-275 *)

Inductive ClientStart :=
| CliUsage                        (* usage on std::cerr, EXIT_FAILURE *)
| CliRun (host port : string).    (* the loop of [Driver] with argv[1], argv[2] *)

(** [argv] includes the program name, so [argc = length argv]. *)
Definition client_args (argv : list string) : ClientStart :=
  if (length argv <? 3)%nat then CliUsage
  else CliRun (nth 1 argv EmptyString) (nth 2 argv EmptyString).

Definition client_exit (c : ClientStart) : option exit_status :=
  match c with CliUsage => Some EXIT_FAILURE | CliRun _ _ => None end.

(** ** The server's [main], lines 93-113 and 128-132 *)

Section ServerMain.
(** [make_address] parses an IPv4 or IPv6 address or throws; [bind_ok]
    says whether the acceptor can be opened and bound at that endpoint. *)
Context {Addr : Type} (make_address : string -> option Addr) (bind_ok : Addr -> Z -> bool).

Inductive ServerStart :=
| SrvUsage                           (* usage on std::cerr, EXIT_FAILURE *)
| SrvError                           (* an exception caught at line 128, EXIT_FAILURE *)
| SrvUndefined                       (* atoi out of the range of int *)
| SrvListening (addr : Addr) (port : Z). (* the accept loop, for ever *)

Definition server_main (argv : list string) : ServerStart :=
  if negb (length argv =? 3)%nat then SrvUsage
  else
    match make_address (nth 1 argv EmptyString) with
    | None => SrvError
    | Some a =>
        match atoi (nth 2 argv EmptyString) with
        | None => SrvUndefined
        | Some p =>
            let port := to_ushort p in
            if bind_ok a port then SrvListening a port else SrvError
        end
    end.

Definition server_exit (r : ServerStart) : option exit_status :=
  match r with
  | SrvUsage | SrvError => Some EXIT_FAILURE
  | SrvUndefined | SrvListening _ _ => None
  end.
(** [main] of the server (lines 93-133) as a process: a return at start-up
    with its exit status, or the accept loop of [ServerThreads] from no
    connection; [None] is the undefined behaviour of an out-of-range
    [atoi]. *)
Definition server_process (argv : list string) : option EchoThreads.ServerProc :=
  let r := server_main argv in
  match server_exit r, r with
  | Some st, _ => Some (EchoThreads.Exited st)
  | None, SrvListening _ _ => Some (EchoThreads.Running EchoThreads.proc_init)
  | None, _ => None
  end.
End ServerMain.
Arguments SrvUsage {Addr}.
Arguments SrvError {Addr}.
Arguments SrvUndefined {Addr}.
Arguments SrvListening {Addr}.

(** ** Lemmas *)

Lemma to_ushort_range i : 0 <= to_ushort i <= USHRT_MAX.
Proof. unfold to_ushort, USHRT_MAX. pose proof (Z.mod_pos_bound i (2 ^ 16 - 1 + 1)). lia. Qed.

Lemma to_ushort_small i : 0 <= i <= USHRT_MAX -> to_ushort i = i.
Proof. unfold to_ushort, USHRT_MAX. intros. apply Z.mod_small. lia. Qed.

(** A string none of whose characters is a digit. *)
Definition no_digit (s : string) : Prop :=
  Forall (fun c => is_digit c = false) (list_ascii_of_string s).

Lemma no_digit_cons c s : no_digit (String c s) -> is_digit c = false /\ no_digit s.
Proof. intros H. inversion H; subst. split; assumption. Qed.

Lemma skip_space_no_digit s : no_digit s -> no_digit (skip_space s).
Proof.
  induction s as [|c s IH]; simpl; [trivial|]. intros H.
  destruct (is_space c); [apply IH|]; [apply (no_digit_cons _ _ H)|exact H].
Qed.

Lemma accum_digits_no_digit acc s : no_digit s -> accum_digits acc s = acc.
Proof. destruct s as [|c s]; simpl; [reflexivity|]. intros H. now rewrite (proj1 (no_digit_cons _ _ H)). Qed.

Lemma decimal_prefix_no_digit s : no_digit s -> decimal_prefix s = 0.
Proof.
  intros H. unfold decimal_prefix. pose proof (skip_space_no_digit s H) as H'.
  destruct (skip_space s) as [|c r]; [reflexivity|].
  destruct (no_digit_cons _ _ H') as [_ Hr].
  destruct (Ascii.eqb c "-"%char); [now rewrite (accum_digits_no_digit _ _ Hr)|].
  destruct (Ascii.eqb c "+"%char); [exact (accum_digits_no_digit _ _ Hr)|].
  exact (accum_digits_no_digit _ _ H').
Qed.

(** Once running, the server process can only end through the [catch] of
    [main], with [EXIT_FAILURE]. *)
Lemma server_run_exits_failure x y :
  star EchoThreads.server_step x y ->
  (forall st, x = EchoThreads.Exited st -> st = EXIT_FAILURE) ->
  forall st, y = EchoThreads.Exited st -> st = EXIT_FAILURE.
Proof.
  induction 1 as [a|a b c Hab Hbc IH]; [intros H; exact H|]. intros Ha. apply IH.
  destruct Hab as [p p' _|p]; [discriminate|]. intros st E. injection E as <-. reflexivity.
Qed.

Section ServerMainLemmas.
Context {Addr : Type} (make_address : string -> option Addr) (bind_ok : Addr -> Z -> bool).

Lemma server_main_listening argv a port :
  server_main make_address bind_ok argv = SrvListening a port ->
  length argv = 3%nat /\ make_address (nth 1 argv EmptyString) = Some a /\
  exists n, atoi (nth 2 argv EmptyString) = Some n /\ port = to_ushort n /\ bind_ok a port = true.
Proof.
  unfold server_main. destruct (negb _) eqn:E; [discriminate|].
  apply Bool.negb_false_iff, Nat.eqb_eq in E.
  destruct (make_address _) as [a'|]; [|discriminate].
  destruct (atoi _) as [n|]; [|discriminate].
  destruct (bind_ok a' (to_ushort n)) eqn:Eb; [|discriminate]. intros [= <- <-].
  repeat split; eauto.
Qed.
End ServerMainLemmas.

(** ** Properties *)

Section ServerMainProperties.
Context {Addr : Type} (make_address : string -> option Addr) (bind_ok : Addr -> Z -> bool).

(** C33: The server listens on the port argument reduced modulo 2^16: the
    port is always a valid [unsigned short], equal to the argument when the
    argument is in [0, 65535], and silently wrapped otherwise (65616 gives
    80, -1 gives 65535). *)
Theorem server_port_wraps argv a port :
  server_main make_address bind_ok argv = SrvListening a port ->
  0 <= port <= USHRT_MAX /\
  exists n, atoi (nth 2 argv EmptyString) = Some n /\ port = n mod 2 ^ 16 /\
            (0 <= n <= USHRT_MAX -> port = n).
Proof.
  intros H. destruct (server_main_listening _ _ _ _ _ H) as (_ & _ & n & Hn & -> & _).
  split; [apply to_ushort_range|]. exists n. split; [exact Hn|]. split; [reflexivity|].
  apply to_ushort_small.
Qed.

(** The start-up of the server's [main] stops with [EXIT_FAILURE] exactly
    when the argument count is not 2, the address does not parse, or the
    acceptor cannot be bound at the (narrowed) port. *)
Lemma server_exit_startup argv :
  server_exit (server_main make_address bind_ok argv) = Some EXIT_FAILURE <->
  length argv <> 3%nat \/
  (length argv = 3%nat /\
   (make_address (nth 1 argv EmptyString) = None \/
    exists a n, make_address (nth 1 argv EmptyString) = Some a /\
                atoi (nth 2 argv EmptyString) = Some n /\ bind_ok a (to_ushort n) = false)).
Proof.
  unfold server_main. destruct (length argv =? 3)%nat eqn:E; simpl.
  - apply Nat.eqb_eq in E. destruct (make_address _) as [a|] eqn:Ea.
    + destruct (atoi _) as [n|] eqn:En.
      * destruct (bind_ok a (to_ushort n)) eqn:Eb; simpl.
        -- split; [discriminate|]. intros [H|[_ [H|(a' & n' & Ha & Hn & Hb)]]];
             [contradiction|discriminate|congruence].
        -- split; [intros _; right; split; [exact E|right; exists a, n; auto]|reflexivity].
      * simpl. split; [discriminate|]. intros [H|[_ [H|(a' & n' & Ha & Hn & Hb)]]];
          [contradiction|discriminate|congruence].
    + simpl. split; [intros _; right; split; [exact E|left; reflexivity]|reflexivity].
  - apply Nat.eqb_neq in E. split; [intros _; left; exact E|reflexivity].
Qed.

(** C34: The server's [main] returns at start-up, with [EXIT_FAILURE],
    exactly when the argument count is not 2, the address does not parse,
    or the acceptor cannot be bound at the (narrowed) port.  Otherwise it
    enters the accept loop with no connection, and every later way the
    process ends (an exception of [acceptor.accept]) returns [EXIT_FAILURE]
    as well: the server never returns [EXIT_SUCCESS]. *)
Theorem server_exit_failure_iff argv x :
  server_process make_address bind_ok argv = Some x ->
  (x = EchoThreads.Exited EXIT_FAILURE <->
   length argv <> 3%nat \/
   (length argv = 3%nat /\
    (make_address (nth 1 argv EmptyString) = None \/
     exists a n, make_address (nth 1 argv EmptyString) = Some a /\
                 atoi (nth 2 argv EmptyString) = Some n /\ bind_ok a (to_ushort n) = false))) /\
  (x <> EchoThreads.Exited EXIT_FAILURE -> x = EchoThreads.Running EchoThreads.proc_init) /\
  (forall y st, star EchoThreads.server_step x y -> y = EchoThreads.Exited st -> st = EXIT_FAILURE).
Proof.
  intros Hx. pose proof (server_exit_startup argv) as Hiff. unfold server_process in Hx.
  destruct (server_exit (server_main make_address bind_ok argv)) as [st|] eqn:Ee.
  - injection Hx as <-. assert (st = EXIT_FAILURE) as ->.
    { revert Ee. unfold server_exit. destruct (server_main _ _ _); congruence. }
    split; [split; [intros _; apply Hiff; reflexivity|intros _; reflexivity]|].
    split; [intros H; contradiction H; reflexivity|].
    intros y st' Hs. apply (server_run_exits_failure _ _ Hs). intros st'' E. injection E as E. congruence.
  - destruct (server_main make_address bind_ok argv) eqn:Em; try discriminate. injection Hx as <-.
    split; [split; [discriminate|intros H; apply Hiff in H; discriminate H]|].
    split; [intros _; reflexivity|].
    intros y st' Hs. apply (server_run_exits_failure _ _ Hs). discriminate.
Qed.

(** C35: A port argument with no decimal digit at all ("http", an empty
    string) is read as 0: the server does not report it but listens on port
    0, an ephemeral port chosen by the system. *)
Theorem server_port_without_digits prog addr p a :
  make_address addr = Some a -> bind_ok a 0 = true -> no_digit p ->
  server_main make_address bind_ok [prog; addr; p] = SrvListening a 0.
Proof.
  intros Ha Hb Hp. unfold server_main, atoi. simpl. rewrite Ha, (decimal_prefix_no_digit p Hp).
  change ((INT_MIN <=? 0) && (0 <=? INT_MAX)) with true. cbv iota beta. change (to_ushort 0) with 0.
  rewrite Hb. reflexivity.
Qed.

(** C36: The two programs' usage checks differ: with more than two
    arguments the client runs with the first two while the server prints
    its usage and fails. *)
Theorem usage_contracts_differ argv :
  (4 <= length argv)%nat ->
  client_args argv = CliRun (nth 1 argv EmptyString) (nth 2 argv EmptyString) /\
  client_exit (client_args argv) = None /\
  server_main make_address bind_ok argv = SrvUsage.
Proof.
  intros H. unfold client_args, server_main.
  destruct (length argv <? 3)%nat eqn:E1; [apply Nat.ltb_lt in E1; lia|].
  destruct (length argv =? 3)%nat eqn:E2; [apply Nat.eqb_eq in E2; lia|].
  repeat split.
Qed.
End ServerMainProperties.

(** Concrete inputs: an address parser and a binder that accept everything. *)
Definition any_address (s : string) : option unit := Some tt.
Definition bind_any (a : unit) (port : Z) : bool := true.

Lemma server_port_wraps_witness :
  server_main any_address bind_any ["websocket-server-sync"; "0.0.0.0"; "65616"]%string
    = SrvListening tt 80 /\ 0 <= 80 <= USHRT_MAX.
Proof.
  assert (H : server_main any_address bind_any ["websocket-server-sync"; "0.0.0.0"; "65616"]%string
                = SrvListening tt 80) by reflexivity.
  split; [exact H|exact (proj1 (server_port_wraps _ _ _ _ _ H))].
Defined.

Lemma server_port_without_digits_witness :
  server_main any_address bind_any ["websocket-server-sync"; "0.0.0.0"; "http"]%string
    = SrvListening tt 0.
Proof.
  apply (server_port_without_digits any_address bind_any); [reflexivity|reflexivity|].
  repeat constructor.
Defined.

Lemma usage_contracts_differ_witness :
  server_main any_address bind_any ["ws"; "0.0.0.0"; "8080"; "x"]%string = SrvUsage.
Proof.
  exact (proj2 (proj2 (usage_contracts_differ any_address bind_any
                         ["ws"; "0.0.0.0"; "8080"; "x"]%string ltac:(simpl; lia)))).
Defined.

Lemma server_exit_failure_iff_witness :
  server_process any_address bind_any ["websocket-server-sync"; "0.0.0.0"; "8080"]%string =
    Some (EchoThreads.Running EchoThreads.proc_init) /\
  (forall y st, star EchoThreads.server_step (EchoThreads.Running EchoThreads.proc_init) y ->
                y = EchoThreads.Exited st -> st = EXIT_FAILURE).
Proof.
  split; [reflexivity|].
  exact (proj2 (proj2 (server_exit_failure_iff any_address bind_any
    ["websocket-server-sync"; "0.0.0.0"; "8080"]%string (EchoThreads.Running EchoThreads.proc_init)
    eq_refl))).
Defined.
