(* ===== verification/System.v ===== *)
(** * Client and server connected: the whole echo system

    The data path of the repository runs client -> wire -> server -> wire
    -> client: [sendMessage]/[on_write] put the client's messages on the
    connection, one handler thread of the server ([do_session], here
    [EchoThreads.thread_step]) reads and echoes them, and the client's read
    loop ([on_read]) prints what comes back.  This file composes the two
    models over one connection.

    - [lcomplete] labels the session's completions with what they exchange
      over the connection: a write that completed successfully puts its
      message on the wire ([WSent]), a successful read takes data off it
      ([WRecv]); every other completion is local.  [lcomplete] is the
      session's [complete] relation with labels
      ([lcomplete_iff_complete]).
    - [Sys] is the client session, the server's [hasSleep] and handler
      thread, the echoes on the way back ([s2c]) and, as ghost state, the
      messages whose write completed ([sent]).  A delivered message joins
      the thread's script as a text frame whose echo is written
      successfully; an echo joins [s2c]; the client reads the head of
      [s2c].
    - [sys_step]: a call of [main], a local completion, a delivery, a read
      of the next echo, or a step of the server thread, in any order.

    The theorem [client_receives_own_messages] is the end-to-end property:
    what the client prints is a prefix of what reached the server, which
    is, in order, a selection of what the client wrote. *)

From stdpp Require Import base list sets strings.
From Stdlib Require Import ZArith Lia.
From S2P Require Import Prelude Net Session ReadLoop Server ServerThreads.
Local Open Scope beast_scope.

Import WebsocketSession EchoServer EchoThreads.

(** What a completion exchanges over the connection. *)
Inductive wire_event := WSent (m : string) | WRecv (d : string).

(** The completions of [complete], labelled. *)
Inductive lcomplete : Session -> option wire_event -> Session -> Prop :=
| lc_resolve s h p ec :
    OpResolve h p ∈ pending s ->
    lcomplete s None (on_resolve ec (retire (OpResolve h p) s))
| lc_connect s ec :
    OpConnect ∈ pending s ->
    lcomplete s None (on_connect ec (retire OpConnect s))
| lc_handshake s h t ec :
    OpHandshake h t ∈ pending s ->
    lcomplete s None (on_handshake ec
                        (set_open (negb (failed ec) || ws_open (ws_ s))
                           (retire (OpHandshake h t) s)))
| lc_read_ok s d :
    OpRead ∈ pending s ->
    lcomplete s (Some (WRecv d))
      (on_read ec_success (set_buffer (buffer_ s +:+ d) (retire OpRead s)))
| lc_read_err s ec :
    OpRead ∈ pending s -> failed ec = true ->
    lcomplete s None (on_read ec (retire OpRead s))
| lc_write s m ec s' :
    OpWrite m ∈ pending s ->
    on_write ec (retire (OpWrite m) s) = Some s' ->
    lcomplete s (if failed ec then None else Some (WSent m)) s'
| lc_close s c ec :
    OpClose c ∈ pending s ->
    lcomplete s None (on_close ec (set_open false (retire (OpClose c) s)))
| lc_teardown s :
    lcomplete s None (set_open false s).

(** The system over one connection. *)
Record Sys := mkSys {
  cli : Session;           (* the client's [WebsocketSession] *)
  srv_hasSleep : bool;     (* the server's [static bool hasSleep] *)
  srv : Thread;            (* the server's handler thread of this connection *)
  s2c : list string;       (* echoes written by the server, not yet read *)
  sent : list string       (* ghost: messages whose write completed *)
}.

(** The client writes text frames ([ws_.text(true)] in [on_connect]). *)
Definition text_frame (m : string) : Frame := {| payload := m; is_text := true |}.

(** A message reaches the server: the thread's script gets one more
    message, whose echo is written successfully. *)
Definition deliver (m : string) (t : Thread) : Thread :=
  mkThread (pc t) (count t) (stream t) (script t ++ [InMsg (text_frame m) ec_success]) (out t).

(** The payloads the thread echoed in a step from [t] to [t']. *)
Definition new_echoes (t t' : Thread) : list string :=
  map payload (echoes (drop (length (out t)) (out t'))).

Inductive sys_step : Sys -> Sys -> Prop :=
| sys_call x c' :
    api_call (cli x) c' ->
    sys_step x (mkSys c' (srv_hasSleep x) (srv x) (s2c x) (sent x))
| sys_local x c' :
    lcomplete (cli x) None c' ->
    sys_step x (mkSys c' (srv_hasSleep x) (srv x) (s2c x) (sent x))
| sys_deliver x m c' :
    lcomplete (cli x) (Some (WSent m)) c' ->
    sys_step x (mkSys c' (srv_hasSleep x) (deliver m (srv x)) (s2c x) (sent x ++ [m]))
| sys_receive x d rest c' :
    s2c x = d :: rest -> lcomplete (cli x) (Some (WRecv d)) c' ->
    sys_step x (mkSys c' (srv_hasSleep x) (srv x) rest (sent x))
| sys_server x hs' t' :
    thread_step (srv_hasSleep x) (srv x) = Some (hs', t') ->
    sys_step x (mkSys (cli x) hs' t' (s2c x ++ new_echoes (srv x) t') (sent x)).

(** A fresh client and a fresh server process whose handler has accepted
    the connection. *)
Definition sys_init : Sys := mkSys create false (spawn ec_success []) [] [].

(** The messages still to be read by the live server thread. *)
Definition incoming_payload (i : Incoming) : option string :=
  match i with InMsg f _ => Some (payload f) | InErr _ => None end.
Definition in_server (t : Thread) : list string :=
  if decide (pc t = PcDone) then [] else omap incoming_payload (script t).

(** The invariant of the system: while the server thread is alive, the
    messages printed, then the echoes in transit, then those the server
    still has to read are exactly the messages that reached the server (a
    dead thread drops the rest); those, followed by the write in flight,
    are in order among the client's writes. *)
Definition sys_inv (x : Sys) : Prop :=
  reachable (cli x) /\
  (pc (srv x) <> PcDone -> received (cli x) ++ s2c x ++ in_server (srv x) = sent x) /\
  received (cli x) ++ s2c x `prefix_of` sent x /\
  sent x ++ writes_of (pending (cli x)) `sublist_of` writes_of (issued (cli x)).

(** A concrete exchange: connect, send userMsg:1, deliver it, echo it, read
    the echo. *)
Definition demo_x (c : Session) (t : Thread) (back sent : list string) : Sys :=
  mkSys c false t back sent.
Definition demo_t0 : Thread := spawn ec_success [].
Definition demo_w1 : Session :=
  match on_write ec_success (retire (OpWrite "userMsg:1") demo_sent1) with
  | Some s => s | None => demo_sent1 end.
Definition demo_t1 : Thread := deliver "userMsg:1" demo_t0.
Definition demo_t2 : Thread :=
  match thread_step false demo_t1 with Some (_, t) => t | None => demo_t1 end.
Definition demo_r1 : Session :=
  on_read ec_success (set_buffer (buffer_ demo_w1 +:+ "userMsg:1") (retire OpRead demo_w1)).
Definition demo_y (c : Session) : Sys := demo_x c demo_t0 [] [].
Definition demo_delivered : Sys := demo_x demo_w1 demo_t1 [] ["userMsg:1"].
Definition demo_in_transit : Sys :=
  demo_x demo_w1 demo_t2 ([] ++ new_echoes demo_t1 demo_t2) ["userMsg:1"].
Definition demo_echoed : Sys := demo_x demo_r1 demo_t2 [] ["userMsg:1"].

(** ** The labelled completions are the session's completions *)

Section Labels.

Lemma lcomplete_complete s l s' : lcomplete s l s' -> complete s s'.
Proof.
  destruct 1; [eapply cpl_resolve|eapply cpl_connect|eapply cpl_handshake|eapply cpl_read_ok
              |eapply cpl_read_err|eapply cpl_write|eapply cpl_close|eapply env_teardown]; eauto.
Qed.

Lemma complete_lcomplete s s' : complete s s' -> exists l, lcomplete s l s'.
Proof.
  destruct 1; eexists; [eapply lc_resolve|eapply lc_connect|eapply lc_handshake|eapply lc_read_ok
                       |eapply lc_read_err|eapply lc_write|eapply lc_close|eapply lc_teardown]; eauto.
Qed.

Lemma lcomplete_sent s m s' :
  lcomplete s (Some (WSent m)) s' ->
  exists ec, OpWrite m ∈ pending s /\ on_write ec (retire (OpWrite m) s) = Some s'.
Proof.
  intros H. remember (Some (WSent m)) as l eqn:El. destruct H; try discriminate.
  destruct (failed ec); [discriminate|]. injection El as <-. eauto.
Qed.

Lemma lcomplete_recv s d s' :
  lcomplete s (Some (WRecv d)) s' ->
  OpRead ∈ pending s /\
  s' = on_read ec_success (set_buffer (buffer_ s +:+ d) (retire OpRead s)).
Proof.
  intros H. remember (Some (WRecv d)) as l eqn:El. destruct H; try discriminate.
  - by injection El as <-.
  - by destruct (failed ec).
Qed.

End Labels.

(** ** The client's writes *)

Section Writes.

Lemma writes_of_cons_non_write o l : is_write o = false -> writes_of (o :: l) = writes_of l.
Proof. by destruct o. Qed.

Lemma writes_of_remove_non_write o l :
  is_write o = false -> writes_of (remove_one o l) = writes_of l.
Proof.
  intros Ho. induction l as [|o' l IH]; simpl; [done|].
  case_decide; [subst; symmetry; by apply writes_of_cons_non_write|].
  destruct o'; simpl; by rewrite IH.
Qed.

Lemma writes_of_no_write l : count_if is_write l = 0 -> writes_of l = [].
Proof. induction l as [|[] l IH]; simpl; intros H; try lia; auto. Qed.

(** With at most one write pending, it is the one write of the list. *)
Lemma writes_of_single l m :
  count_if is_write l <= 1 -> OpWrite m ∈ l ->
  writes_of l = [m] /\ writes_of (remove_one (OpWrite m) l) = [].
Proof.
  intros Hc Hin. pose proof (count_if_remove_one is_write _ _ Hin) as E. simpl in E.
  assert (H0 : count_if is_write (remove_one (OpWrite m) l) = 0) by lia.
  split; [|by apply writes_of_no_write].
  clear E. induction l as [|o l IH]; [by apply elem_of_nil in Hin|].
  simpl in H0. case_decide as Ho; [subst; simpl; by rewrite writes_of_no_write|].
  apply elem_of_cons in Hin as [E|Hin]; [congruence|].
  destruct o; simpl in *; try lia; auto.
Qed.

(** A step that leaves the client's writes alone: the same write in
    flight and the same writes submitted. *)
Definition wframe (s s' : Session) : Prop :=
  writes_of (pending s') = writes_of (pending s) /\ writes_of (issued s') = writes_of (issued s).

Lemma wframe_refl s : wframe s s.
Proof. done. Qed.

Lemma wframe_trans s1 s2 s3 : wframe s1 s2 -> wframe s2 s3 -> wframe s1 s3.
Proof. intros [] []. split; congruence. Qed.

Lemma wframe_issue s o : is_write o = false -> wframe s (issue o s).
Proof.
  intros Ho. unfold issue. split; simpl; [by destruct o|by rewrite writes_of_non_write].
Qed.

Lemma wframe_retire s o : is_write o = false -> wframe s (retire o s).
Proof. intros Ho. unfold retire. split; simpl; [by rewrite writes_of_remove_non_write|done]. Qed.

Local Ltac wf_tac :=
  repeat first
    [ apply wframe_refl
    | (eapply wframe_trans; [|apply wframe_issue; done])
    | (eapply wframe_trans; [|apply wframe_retire; done])
    | (split; by unfold_session) ].

Lemma wframe_run s h p : wframe s (run h p s).
Proof. unfold run. wf_tac. Qed.
Lemma wframe_close s : wframe s (close s).
Proof. unfold close. case_match; wf_tac. Qed.
Lemma wframe_on_read s ec : wframe s (on_read ec s).
Proof. unfold on_read. repeat (case_match || case_decide); wf_tac. Qed.

Lemma wframe_on_resolve s ec : wframe s (on_resolve ec s).
Proof. unfold on_resolve, fail. case_match; wf_tac. Qed.
Lemma wframe_on_connect s ec : wframe s (on_connect ec s).
Proof. unfold on_connect, fail. case_match; wf_tac. Qed.
Lemma wframe_on_handshake s ec : wframe s (on_handshake ec s).
Proof. unfold on_handshake, fail. case_match; wf_tac. Qed.
Lemma wframe_on_close s ec : wframe s (on_close ec s).
Proof. unfold on_close, fail. case_match; wf_tac. Qed.
Lemma wframe_set_open s b : wframe s (set_open b s).
Proof. wf_tac. Qed.
Lemma wframe_set_buffer s b : wframe s (set_buffer b s).
Proof. wf_tac. Qed.

Lemma wframe_sublist (sent : list string) s s' :
  wframe s s' ->
  sent ++ writes_of (pending s) `sublist_of` writes_of (issued s) ->
  sent ++ writes_of (pending s') `sublist_of` writes_of (issued s').
Proof. intros [-> ->]. done. Qed.

(** The completion of the write in flight: it was the only pending write,
    and the writes it starts ([nw], the next front or nothing) are both in
    flight and submitted. *)
Lemma on_write_writes s m ec s' :
  inv s -> OpWrite m ∈ pending s -> on_write ec (retire (OpWrite m) s) = Some s' ->
  writes_of (pending s) = [m] /\
  exists nw, writes_of (pending s') = nw /\ writes_of (issued s') = writes_of (issued s) ++ nw.
Proof.
  intros Hs Hin Hw. destruct (writes_of_single _ m (inv_write _ Hs) Hin) as [H1 H0].
  split; [exact H1|].
  pose proof (inv_write_front _ Hs m Hin) as Hhd.
  destruct (sendMessageQueue_ s) as [|m0 q] eqn:Hq; [discriminate|]. injection Hhd as ->.
  destruct (on_write_cons (retire (OpWrite m) s) ec m q Hq) as (s2 & _ & Hp2 & Hi2 & Hw2 & Hw').
  rewrite Hw in Hw'. injection Hw' as ->.
  destruct q as [|m' q]; [exists []; rewrite Hp2, Hi2, app_nil_r; split; [exact H0|done]|].
  unfold doSend. destruct (negb _).
  - exists []. rewrite Hp2, Hi2, app_nil_r. split; [exact H0|done].
  - exists [m']. unfold issue; simpl. rewrite Hp2, Hi2, writes_of_app. unfold retire; simpl.
    rewrite H0. done.
Qed.

Lemma sendMessage_writes s m :
  inv s ->
  exists nw, writes_of (pending (sendMessage m s)) = writes_of (pending s) ++ nw /\
             writes_of (issued (sendMessage m s)) = writes_of (issued s) ++ nw.
Proof.
  intros Hs. destruct (sendMessageQueue_ s) as [|x q] eqn:Hq.
  - rewrite (sendMessage_empty s m Hq). unfold doSend, set_queue; simpl.
    assert (Hnw : writes_of (pending s) = []).
    { apply writes_of_no_write, count_if_no_write. intros m' Hm'.
      pose proof (inv_write_front _ Hs m' Hm') as Hh. by rewrite Hq in Hh. }
    destruct (negb _); [exists []; by rewrite !app_nil_r|].
    exists [m]. unfold issue; simpl. by rewrite Hnw, writes_of_app.
  - rewrite (sendMessage_nonempty s m ltac:(by rewrite Hq)). exists []. by rewrite !app_nil_r.
Qed.

Lemma sub_drop_last (sent w : list string) m : sent ++ [m] `sublist_of` w -> sent `sublist_of` w.
Proof. intros H. etransitivity; [|exact H]. by apply sublist_inserts_r. Qed.

End Writes.

#[export] Hint Resolve wframe_refl wframe_run wframe_close wframe_on_read wframe_on_resolve
  wframe_on_connect wframe_on_handshake wframe_on_close wframe_set_open wframe_set_buffer : beast.

(** ** The client's side of each system step *)

Section ClientSide.

Lemma wframe_after_retire s o s' : is_write o = false -> wframe (retire o s) s' -> wframe s s'.
Proof. intros Ho. apply wframe_trans, wframe_retire, Ho. Qed.

(** A local completion keeps the printed messages, and the writes in
    flight followed by [sent] stay among the submitted ones. *)
Lemma lcomplete_local s s' (sent : list string) :
  inv s -> lcomplete s None s' ->
  sent ++ writes_of (pending s) `sublist_of` writes_of (issued s) ->
  received s' = received s /\
  sent ++ writes_of (pending s') `sublist_of` writes_of (issued s').
Proof.
  intros Hs H Hsub. remember None as l eqn:El.
  destruct H as [s h p ec Hin|s ec Hin|s h t ec Hin|s d Hin|s ec Hin Hfe
                |s m ec s' Hin Hw|s c ec Hin|s]; try discriminate.
  - split; [apply read_frame_trans with (retire (OpResolve h p) s); auto with beast|].
    eapply wframe_sublist; [|exact Hsub].
    apply (wframe_after_retire _ (OpResolve h p)); [done|auto with beast].
  - split; [apply read_frame_trans with (retire OpConnect s); auto with beast|].
    eapply wframe_sublist; [|exact Hsub].
    apply (wframe_after_retire _ OpConnect); [done|auto with beast].
  - split.
    + unfold on_handshake, received. case_match; unfold_session; rewrite ?omap_app; simpl;
        by rewrite ?app_nil_r.
    + eapply wframe_sublist; [|exact Hsub].
      eapply wframe_trans; [|apply wframe_on_handshake].
      eapply wframe_trans; [|apply wframe_set_open]. by apply wframe_retire.
  - destruct (on_read_read_side (retire OpRead s) ec (retire_read_none _ Hs Hin)) as (_ & Hr & _).
    rewrite Hfe, app_nil_r in Hr. split; [exact Hr|].
    eapply wframe_sublist; [|exact Hsub].
    apply (wframe_after_retire _ OpRead); [done|auto with beast].
  - destruct (on_write_writes s m ec s' Hs Hin Hw) as [H1 (nw & Hp & Hi)].
    split; [apply read_frame_trans with (retire (OpWrite m) s); [auto with beast|by eapply read_frame_on_write]|].
    rewrite Hp, Hi. rewrite H1 in Hsub. apply sublist_app; [exact (sub_drop_last _ _ _ Hsub)|done].
  - split; [apply (read_frame_after_open _ (OpClose c) false); auto with beast|].
    eapply wframe_sublist; [|exact Hsub].
    eapply wframe_trans; [|apply wframe_on_close].
    eapply wframe_trans; [|apply wframe_set_open]. by apply wframe_retire.
  - split; [apply read_frame_set_open|]. eapply wframe_sublist; [|exact Hsub]. auto with beast.
Qed.

End ClientSide.

(** ** The server's side *)

Section ServerSide.

Lemma in_server_deliver m t :
  in_server (deliver m t) = in_server t ++ (if decide (pc t = PcDone) then [] else [m]).
Proof. unfold in_server, deliver; simpl. case_decide; [done|]. by rewrite omap_app. Qed.

Lemma echoes_on_exception ec : echoes (on_exception ec) = [].
Proof. unfold on_exception. by case_decide. Qed.

(** A step of the handler thread echoes the next message it reads, if any,
    and removes it from what it still has to read. *)
Lemma thread_step_echoes hs t hs' t' :
  thread_step hs t = Some (hs', t') ->
  (pc t' <> PcDone -> new_echoes t t' ++ in_server t' = in_server t) /\
  new_echoes t t' `prefix_of` in_server t.
Proof.
  unfold thread_step. intros H.
  destruct (pc t) eqn:Epc; repeat case_match; simplify_eq;
    unfold new_echoes, in_server, ended; simpl; rewrite ?Epc, ?drop_app_length, ?drop_all;
    simpl.
  all: rewrite ?echoes_on_exception; simpl;
    repeat match goal with E : script _ = _ |- _ => rewrite E; clear E end; simpl;
    split; [intros Hne; first [done|congruence]
           |first [apply prefix_nil|by apply prefix_cons, prefix_nil]].
Qed.

End ServerSide.

(** ** The invariant *)

Section Invariant.

Lemma api_call_client s s' (sent : list string) :
  inv s -> api_call s s' ->
  sent ++ writes_of (pending s) `sublist_of` writes_of (issued s) ->
  received s' = received s /\
  sent ++ writes_of (pending s') `sublist_of` writes_of (issued s').
Proof.
  intros Hs Hc Hsub. destruct Hc as [s h p _|s m|s].
  - split; [apply read_frame_run|]. eapply wframe_sublist; [apply wframe_run|exact Hsub].
  - split; [apply read_frame_sendMessage|].
    destruct (sendMessage_writes s m Hs) as (nw & -> & ->).
    rewrite app_assoc. by apply sublist_app.
  - split; [apply read_frame_close|]. eapply wframe_sublist; [apply wframe_close|exact Hsub].
Qed.

Lemma thread_step_alive hs t r : thread_step hs t = Some r -> pc t <> PcDone.
Proof. unfold thread_step. intros H E. by rewrite E in H. Qed.

Lemma sys_inv_init : sys_inv sys_init.
Proof. split_and!; [apply star_refl|done|apply prefix_nil|apply sublist_nil_l]. Qed.

Lemma sys_inv_step x y : sys_inv x -> sys_step x y -> sys_inv y.
Proof.
  intros (Hr & Heq & Hpre & Hsub) Hst. pose proof (reachable_inv _ Hr) as Hs.
  destruct Hst as [x c' Hc|x c' Hc|x m c' Hc|x d rest c' Hd Hc|x hs' t' Ht];
    unfold sys_inv; simpl in *.
  - destruct (api_call_client _ _ _ Hs Hc Hsub) as [Hrc Hsub'].
    split_and!; [eapply star_right; [exact Hr|by left]|by rewrite Hrc|by rewrite Hrc|exact Hsub'].
  - destruct (lcomplete_local _ _ _ Hs Hc Hsub) as [Hrc Hsub'].
    split_and!; [eapply star_right; [exact Hr|right; by eapply lcomplete_complete]
                |by rewrite Hrc|by rewrite Hrc|exact Hsub'].
  - destruct (lcomplete_sent _ _ _ Hc) as (ec & Hin & Hw).
    destruct (on_write_writes _ _ _ _ Hs Hin Hw) as [H1 (nw & Hp & Hi)].
    assert (Hrc : received c' = received (cli x)).
    { apply (read_frame_trans _ (retire (OpWrite m) (cli x))); [apply read_frame_retire|].
      by eapply read_frame_on_write. }
    split_and!.
    + eapply star_right; [exact Hr|right; by eapply lcomplete_complete].
    + intros Hne. rewrite Hrc, in_server_deliver. unfold deliver in Hne; simpl in Hne.
      case_decide; [done|]. rewrite <-(Heq Hne), <-!app_assoc. done.
    + rewrite Hrc. by apply prefix_app_r.
    + rewrite Hp, Hi. rewrite H1 in Hsub. by apply sublist_app.
  - destruct (lcomplete_recv _ _ _ Hc) as [Hin ->].
    destruct (read_inv_reachable _ Hr) as [Hb _].
    destruct (on_read_read_side (set_buffer (buffer_ (cli x) +:+ d) (retire OpRead (cli x)))
                ec_success (retire_read_none _ Hs Hin)) as (_ & Hrc & _).
    simpl in Hrc.
    assert (Hw : wframe (cli x)
              (on_read ec_success (set_buffer (buffer_ (cli x) +:+ d) (retire OpRead (cli x))))).
    { apply (wframe_after_retire _ OpRead); [done|].
      eapply wframe_trans; [apply wframe_set_buffer|apply wframe_on_read]. }
    change (received (set_buffer (buffer_ (cli x) +:+ d) (retire OpRead (cli x))))
      with (received (cli x)) in Hrc.
    assert (Hrc2 : received (on_read ec_success (set_buffer (buffer_ (cli x) +:+ d)
                                                   (retire OpRead (cli x))))
                   = received (cli x) ++ [d]) by (rewrite Hrc, (Hb Hin); reflexivity).
    clear Hrc. rename Hrc2 into Hrc.
    split_and!.
    + eapply star_right; [exact Hr|right; by eapply lcomplete_complete].
    + intros Hne. rewrite Hrc, <-app_assoc, <-(Heq Hne), Hd. done.
    + rewrite Hrc, <-app_assoc. simpl. by rewrite <-Hd.
    + exact (wframe_sublist _ _ _ Hw Hsub).
  - pose proof (thread_step_alive _ _ _ Ht) as Halive.
    destruct (thread_step_echoes _ _ _ _ Ht) as [He Hp].
    split_and!; [exact Hr| | |exact Hsub].
    + intros Hne. rewrite <-(Heq Halive), <-(He Hne), <-!app_assoc. done.
    + rewrite <-(Heq Halive). by apply prefix_app, prefix_app.
Qed.

Lemma sys_inv_reachable x : star sys_step sys_init x -> sys_inv x.
Proof. intros Hr. exact (star_invariant _ sys_inv sys_inv_step _ _ Hr sys_inv_init). Qed.

End Invariant.

Lemma lcomplete_iff_complete s s' : complete s s' <-> exists l, lcomplete s l s'.
Proof.
  split; [apply complete_lcomplete|]. intros [l H]. by eapply lcomplete_complete.
Qed.

Section Demo.

Lemma demo_echoed_reachable : star sys_step sys_init demo_echoed.
Proof.
  apply (star_step _ _ (demo_y demo_run)); [exact (sys_call sys_init _ (call_run create "localhost" "8080" eq_refl))|].
  apply (star_step _ _ (demo_y demo_resolved));
    [exact (sys_local (demo_y demo_run) _ (lc_resolve demo_run "localhost" "8080" ec_success ltac:(in_list)))|].
  apply (star_step _ _ (demo_y demo_connected));
    [exact (sys_local (demo_y demo_resolved) _ (lc_connect demo_resolved ec_success ltac:(in_list)))|].
  apply (star_step _ _ (demo_y demo_open));
    [exact (sys_local (demo_y demo_connected) _
              (lc_handshake demo_connected "localhost" "/" ec_success ltac:(in_list)))|].
  apply (star_step _ _ (demo_y demo_sent1));
    [exact (sys_call (demo_y demo_open) _ (call_send _ "userMsg:1"))|].
  apply (star_step _ _ demo_delivered);
    [exact (sys_deliver (demo_y demo_sent1) "userMsg:1" demo_w1
              (lc_write demo_sent1 "userMsg:1" ec_success demo_w1 ltac:(in_list) ltac:(vm_compute; reflexivity)))|].
  apply (star_step _ _ demo_in_transit);
    [exact (sys_server demo_delivered false demo_t2 ltac:(vm_compute; reflexivity))|].
  apply star_one.
  exact (sys_receive demo_in_transit "userMsg:1" [] demo_r1 ltac:(vm_compute; reflexivity)
           (lc_read_ok demo_w1 "userMsg:1" ltac:(in_list))).
Qed.

Lemma demo_echoed_state :
  received (cli demo_echoed) = ["userMsg:1"] /\ recvCount_ (cli demo_echoed) = 1%Z.
Proof. vm_compute. auto. Qed.

End Demo.

(** C3: End to end, the client prints only echoes of its own messages, in
    order: in every state of the connected system the messages printed by
    [on_read] are a prefix of the messages that reached the server, and
    those are, in order, among the messages the client submitted to the
    transport (a write that failed may be missing, none is reordered or
    duplicated). *)
Theorem client_receives_own_messages x :
  star sys_step sys_init x ->
  received (cli x) `prefix_of` sent x /\ sent x `sublist_of` writes_of (issued (cli x)).
Proof.
  intros Hr. destruct (sys_inv_reachable x Hr) as (_ & _ & Hpre & Hsub). split.
  - by eapply prefix_app_l.
  - etransitivity; [|exact Hsub]. by apply sublist_inserts_r.
Qed.

Lemma client_receives_own_messages_witness :
  received (cli demo_echoed) `prefix_of` sent demo_echoed.
Proof. exact (proj1 (client_receives_own_messages _ demo_echoed_reachable)). Defined.

(** C17: The receive counter is bounded by the client's own traffic: in the
    connected system [recvCount_] never exceeds the number of messages the
    client has submitted, so it cannot overflow before [messageNo] does. *)
Theorem recvCount_bounded_by_writes x :
  star sys_step sys_init x ->
  (0 <= recvCount_ (cli x) <= Z.of_nat (length (writes_of (issued (cli x)))))%Z.
Proof.
  intros Hr. destruct (sys_inv_reachable x Hr) as (Hc & _ & Hpre & Hsub).
  destruct (read_inv_reachable _ Hc) as [_ Hn]. rewrite Hn.
  pose proof (prefix_length _ _ (prefix_app_l _ _ _ Hpre)).
  pose proof (sublist_length _ _ Hsub). rewrite length_app in *. lia.
Qed.

Lemma recvCount_bounded_by_writes_witness :
  (recvCount_ (cli demo_echoed) <= Z.of_nat (length (writes_of (issued (cli demo_echoed)))))%Z.
Proof. exact (proj2 (recvCount_bounded_by_writes _ demo_echoed_reachable)). Defined.
