(* ===== verification/Logging.v ===== *)
(** * What the two programs print: timestamps and log lines

    The client stamps its diagnostics with [show_current_time()]
    (src/beast_issue_client.cpp, lines 29-38): the wall clock converted by
    [std::localtime] and printed with [std::put_time(.., "%F %T")], i.e.
    [YYYY-MM-DD HH:MM:SS].  The clock and [localtime] are the C library's:
    the broken-down time [tm] is the input of the model.  Each [LogLine] of
    the session model is printed by one output statement of the code; the
    server prints its own lines (src/beast_issue_server.cpp, lines 69 and
    81) with the thread id and no time.  [std::endl] and ["\n"] end every
    line and are left out of the texts.

    [leading_timestamp] is how a reader of the logs recovers the time in
    front of a line.  The theorems: the timestamp parses back to the clock
    reading, in front of every client diagnostic and of no other client
    line ([client_diagnostics_timestamped]); it is 19 characters wide for
    four-digit years ([timestamp_width]); and no error line of the server
    carries one ([server_errors_untimestamped]), against the spec's "every
    error is logged locally with a timestamp". *)

From stdpp Require Import base list strings.
From Stdlib Require Import ZArith Lia String Ascii Decimal DecimalString.
From S2P Require Import Prelude Net Format Session Server CommandLine.

Import WebsocketSession EchoServer.

(** [struct tm] of [<ctime>], the fields [%F %T] prints. *)
Record tm := mk_tm {
  tm_sec : Z;    (* [0, 60] *)
  tm_min : Z;    (* [0, 59] *)
  tm_hour : Z;   (* [0, 23] *)
  tm_mday : Z;   (* [1, 31] *)
  tm_mon : Z;    (* months since January, [0, 11] *)
  tm_year : Z    (* years since 1900 *)
}.

(** What [std::localtime] returns, with a year of the common era. *)
Definition valid_tm (t : tm) : Prop :=
  (0 <= tm_sec t <= 60 /\ 0 <= tm_min t <= 59 /\ 0 <= tm_hour t <= 23 /\
   1 <= tm_mday t <= 31 /\ 0 <= tm_mon t <= 11 /\ 0 <= tm_year t + 1900)%Z.

(** A two-digit field of [strftime] ([%m], [%d], [%H], [%M], [%S]):
    zero-padded decimal. *)
Definition two_digits (z : Z) : string :=
  if (z <? 10)%Z then "0" +:+ int_to_string z else int_to_string z.

(** [std::put_time(tm, "%F %T")]: [%F] is [%Y-%m-%d], [%T] is
    [%H:%M:%S]; [%Y] is the full year in decimal. *)
Definition put_time_F_T (t : tm) : string :=
  int_to_string (tm_year t + 1900) +:+ "-" +:+ two_digits (tm_mon t + 1) +:+ "-" +:+
  two_digits (tm_mday t) +:+ " " +:+ two_digits (tm_hour t) +:+ ":" +:+
  two_digits (tm_min t) +:+ ":" +:+ two_digits (tm_sec t).

(** [show_current_time()] (lines 29-38), [local] being
    [*std::localtime(&time)] of the current time. *)
Definition show_current_time (local : tm) : string := put_time_F_T local.

(** The stream a line goes to. *)
Inductive Stream := Cout | Cerr.

Section Lines.
(** [ec.message()] and [ec.value()] of [boost::system::error_code]. *)
Context (message : error_code -> string) (value : error_code -> Z).

(** ** The client's output statements *)

(** [fail] (line 44), on [std::cerr]. *)
Definition fail_text (now : tm) (what : string) (ec : error_code) : string :=
  show_current_time now +:+ "|" +:+ what +:+ ": " +:+ message ec.
(** [run] (line 78). *)
Definition run_start_text : string := "run start".
(** [on_read] (line 152). *)
Definition idle_read_text (now : tm) : string :=
  show_current_time now +:+ "|idle timeout when read".
(** [on_read] (lines 158-159): the buffer printed as is
    ([make_printable]) and the new [recvCount_]. *)
Definition recv_text (now : tm) (msg : string) (total : Z) : string :=
  show_current_time now +:+ "|" +:+ "recv:" +:+ msg +:+ " |total recv:" +:+ int_to_string total.
(** [on_write] (line 202). *)
Definition idle_write_text (now : tm) : string :=
  show_current_time now +:+ "| idle timeout when write".
(** [~WebsocketSession] (line 226). *)
Definition destruct_text : string := "WebsocketSession de construct".
(** [on_close] (line 249). *)
Definition close_text : string := "close websocket".

(** The line printed for each event of the session's [log], at the local
    time [now]. *)
Definition client_line (now : tm) (l : LogLine) : Stream * string :=
  match l with
  | LogRunStart => (Cout, run_start_text)
  | LogFail what ec => (Cerr, fail_text now what ec)
  | LogIdleTimeoutRead => (Cout, idle_read_text now)
  | LogRecv m n => (Cout, recv_text now m n)
  | LogIdleTimeoutWrite => (Cout, idle_write_text now)
  | LogCloseDone => (Cout, close_text)
  | LogDestruct => (Cout, destruct_text)
  end.

(** The client lines whose statement prints [show_current_time()]. *)
Definition timestamped (l : LogLine) : bool :=
  match l with
  | LogFail _ _ | LogIdleTimeoutRead | LogRecv _ _ | LogIdleTimeoutWrite => true
  | LogRunStart | LogCloseDone | LogDestruct => false
  end.

(** ** The server's output statements *)

(** [std::this_thread::get_id()] printed by [operator<<]: libstdc++ prints
    the native thread handle in decimal. *)
Definition thread_id_text (tid : Z) : string := int_to_string tid.

(** [do_session] (line 69), after the stall. *)
Definition recover_text (tid : Z) : string := "recover" +:+ thread_id_text tid.
(** [do_session]'s [catch] (line 81), on [std::cerr]. *)
Definition sys_error_text (tid : Z) (ec : error_code) : string :=
  thread_id_text tid +:+ "Boost sys Error: " +:+ message ec +:+ "  val:" +:+
  int_to_string (value ec).

(** The line printed for an event of a handler thread, if any. *)
Definition server_line (tid : Z) (e : SrvEvent) : option (Stream * string) :=
  match e with
  | SLogRecover => Some (Cout, recover_text tid)
  | SLogError ec => Some (Cerr, sys_error_text tid ec)
  | SEcho _ | SSleep _ => None
  end.

End Lines.

(** ** Reading a timestamp back *)

Definition all_digits (s : string) : bool :=
  forallb is_digit (String.list_ascii_of_string s).

Fixpoint span_digits (s : string) : string * string :=
  match s with
  | String c s' => if is_digit c then let '(d, r) := span_digits s' in (String c d, r)
                   else (EmptyString, s)
  | EmptyString => (EmptyString, EmptyString)
  end.

(** The decimal number at the front of [s] and what follows it. *)
Definition read_field (s : string) : option (Z * string) :=
  let '(d, r) := span_digits s in
  v ← string_to_int d; Some (v, r).

Definition expect (c : ascii) (s : string) : option string :=
  match s with
  | String c' r => if Ascii.eqb c c' then Some r else None
  | EmptyString => None
  end.

(** The time in front of a log line, read as [Y-m-d H:M:S], and the rest of
    the line. *)
Definition leading_timestamp (s : string) : option (tm * string) :=
  '(y, r) ← read_field s; r ← expect "-"%char r;
  '(mo, r) ← read_field r; r ← expect "-"%char r;
  '(d, r) ← read_field r; r ← expect " "%char r;
  '(h, r) ← read_field r; r ← expect ":"%char r;
  '(mi, r) ← read_field r; r ← expect ":"%char r;
  '(se, r) ← read_field r;
  Some (mk_tm se mi h d (mo - 1) (y - 1900), r).

(** [r] does not continue a number. *)
Definition starts_non_digit (r : string) : bool :=
  match r with String c _ => negb (is_digit c) | EmptyString => true end.

(** The readings of the fields: every two-digit field and every four-digit
    year, checked once over their ranges. *)
Definition two_digits_ok (z : Z) : bool :=
  all_digits (two_digits z) && bool_decide (string_to_int (two_digits z) = Some z) &&
  (String.length (two_digits z) =? 2)%nat.
Definition four_digits_ok (y : Z) : bool := (String.length (int_to_string y) =? 4)%nat.

Section Lemmas.

Lemma str_app_assoc (a b c : string) : (a +:+ b) +:+ c = a +:+ (b +:+ c).
Proof.
  induction a as [|x a IH]; [reflexivity|].
  change (String x ((a +:+ b) +:+ c) = String x (a +:+ (b +:+ c))). by rewrite IH.
Qed.

Lemma str_length_app (a b : string) : String.length (a +:+ b) = (String.length a + String.length b)%nat.
Proof.
  induction a as [|x a IH]; [reflexivity|].
  change (S (String.length (a +:+ b)) = S (String.length a + String.length b))%nat. by rewrite IH.
Qed.

Lemma forallb_seqZ (f : Z -> bool) m n z :
  forallb f (seqZ m n) = true -> (m <= z < m + n)%Z -> f z = true.
Proof.
  intros H Hz. apply forallb_forall with (x := z) in H; [exact H|].
  apply list_elem_of_In, elem_of_seqZ. exact Hz.
Qed.

Lemma two_digits_range z :
  (0 <= z <= 99)%Z ->
  all_digits (two_digits z) = true /\ string_to_int (two_digits z) = Some z /\
  String.length (two_digits z) = 2%nat.
Proof.
  intros Hz. assert (H : two_digits_ok z = true).
  { apply (forallb_seqZ _ 0 100); [vm_compute; reflexivity|lia]. }
  unfold two_digits_ok in H. apply andb_prop in H as [H H3]. apply andb_prop in H as [H1 H2].
  apply bool_decide_eq_true in H2. apply Nat.eqb_eq in H3. auto.
Qed.

Lemma four_digit_year y : (1000 <= y <= 9999)%Z -> String.length (int_to_string y) = 4%nat.
Proof.
  intros Hy. apply Nat.eqb_eq, (forallb_seqZ four_digits_ok 1000 9000); [vm_compute; reflexivity|lia].
Qed.

Lemma all_digits_uint u : all_digits (NilEmpty.string_of_uint u) = true.
Proof.
  induction u; unfold all_digits in *; cbn [NilEmpty.string_of_uint String.list_ascii_of_string forallb];
    rewrite ?IHu; reflexivity.
Qed.

Lemma all_digits_int z : (0 <= z)%Z -> all_digits (int_to_string z) = true.
Proof.
  intros Hz. destruct z as [|p|p]; [reflexivity| |lia].
  unfold int_to_string. simpl. destruct (Pos.to_uint p); first [reflexivity|apply all_digits_uint].
Qed.

Lemma span_digits_app f r :
  all_digits f = true -> starts_non_digit r = true -> span_digits (f +:+ r) = (f, r).
Proof.
  unfold all_digits. induction f as [|c f IH]; simpl.
  - intros _. destruct r as [|c r]; simpl; [done|]. by destruct (is_digit c).
  - intros [Hc Hf]%andb_prop Hr. rewrite Hc, IH; done.
Qed.

Lemma str_app_nil_l r : EmptyString +:+ r = r.
Proof. reflexivity. Qed.

Lemma read_field_app f r :
  all_digits f = true -> starts_non_digit r = true ->
  read_field (f +:+ r) = (v ← string_to_int f; Some (v, r)).
Proof. intros Hf Hr. unfold read_field. by rewrite span_digits_app. Qed.

(** The timestamp in front of a line reads back as the clock reading. *)
Lemma leading_timestamp_show t r :
  valid_tm t -> starts_non_digit r = true ->
  leading_timestamp (show_current_time t +:+ r) = Some (t, r).
Proof.
  intros (Hs & Hmi & Hh & Hd & Hmo & Hy) Hr.
  destruct (two_digits_range (tm_mon t + 1)) as (Dmo & Vmo & _); [lia|].
  destruct (two_digits_range (tm_mday t)) as (Dd & Vd & _); [lia|].
  destruct (two_digits_range (tm_hour t)) as (Dh & Vh & _); [lia|].
  destruct (two_digits_range (tm_min t)) as (Dmi & Vmi & _); [lia|].
  destruct (two_digits_range (tm_sec t)) as (Dse & Vse & _); [lia|].
  unfold show_current_time, put_time_F_T, leading_timestamp. rewrite !str_app_assoc.
  repeat (rewrite ?str_app_nil_l, read_field_app by (assumption || reflexivity || by apply all_digits_int);
          rewrite ?int_to_string_roundtrip, ?Vmo, ?Vd, ?Vh, ?Vmi, ?Vse; simpl).
  destruct t; simpl in *. do 3 f_equal; lia.
Qed.

End Lemmas.

(** A clock reading: 2026-11-09 08:25:00. *)
Definition demo_time : tm := mk_tm 0 25 8 9 10 126.

Lemma demo_time_valid : valid_tm demo_time.
Proof. unfold valid_tm; simpl; lia. Qed.

(** C37: Every diagnostic the client prints (the [fail] lines on
    [std::cerr], the idle-timeout lines, the [recv:] lines) starts with the
    time of the clock, which a reader parses back exactly, followed by
    [|]; the other lines ([run start], [close websocket], the destructor's)
    carry no timestamp. *)
Theorem client_diagnostics_timestamped message t l :
  valid_tm t ->
  (timestamped l = true ->
   exists rest, leading_timestamp (client_line message t l).2 = Some (t, "|" +:+ rest)) /\
  (timestamped l = false -> leading_timestamp (client_line message t l).2 = None).
Proof.
  intros Ht. destruct l; simpl; split; intros H; try discriminate; try reflexivity;
    eexists; apply leading_timestamp_show; done.
Qed.

Lemma client_diagnostics_timestamped_witness :
  valid_tm demo_time /\
  exists rest, leading_timestamp (client_line (fun _ => "Operation timed out") demo_time
                                    (LogFail "read" ec_timeout)).2 = Some (demo_time, "|" +:+ rest).
Proof.
  split; [exact demo_time_valid|].
  exact (proj1 (client_diagnostics_timestamped (fun _ => "Operation timed out") demo_time
                  (LogFail "read" ec_timeout) demo_time_valid) eq_refl).
Defined.

(** C28: The error lines of the server carry no timestamp: for every
    system error other than a graceful close, [do_session]'s handler prints
    a line on [std::cerr] that starts with the thread id, and no time can
    be read in front of it; the spec says every error is logged with a
    timestamp. *)
Theorem server_errors_untimestamped message value tid ec :
  (0 <= tid)%Z -> ec <> ec_closed ->
  on_exception ec = [SLogError ec] /\
  exists line, server_line message value tid (SLogError ec) = Some (Cerr, line) /\
               leading_timestamp line = None.
Proof.
  intros Htid Hec. split; [unfold on_exception; by case_decide|].
  eexists; split; [reflexivity|]. unfold sys_error_text, thread_id_text, leading_timestamp.
  rewrite read_field_app by (reflexivity || by apply all_digits_int).
  by rewrite int_to_string_roundtrip.
Qed.

Lemma server_errors_untimestamped_witness :
  (0 <= 140234)%Z /\ ec_timeout <> ec_closed /\
  on_exception ec_timeout = [SLogError ec_timeout] /\
  exists line, server_line (fun _ => "Operation timed out") (fun _ => 110%Z) 140234
                 (SLogError ec_timeout) = Some (Cerr, line) /\ leading_timestamp line = None.
Proof.
  split; [lia|]. split; [discriminate|].
  exact (server_errors_untimestamped (fun _ => "Operation timed out") (fun _ => 110%Z)
           140234 ec_timeout ltac:(lia) ltac:(discriminate)).
Defined.

(** C38: The timestamp is 19 characters wide, [YYYY-MM-DD HH:MM:SS], for
    every clock reading of a four-digit year (it widens after 9999). *)
Theorem timestamp_width t :
  valid_tm t -> (tm_year t + 1900 <= 9999)%Z -> (1000 <= tm_year t + 1900)%Z ->
  String.length (show_current_time t) = 19%nat.
Proof.
  intros (Hs & Hmi & Hh & Hd & Hmo & Hy) Hy1 Hy2.
  unfold show_current_time, put_time_F_T. rewrite !str_length_app.
  rewrite four_digit_year by lia.
  rewrite (proj2 (proj2 (two_digits_range (tm_mon t + 1) ltac:(lia)))),
    (proj2 (proj2 (two_digits_range (tm_mday t) ltac:(lia)))),
    (proj2 (proj2 (two_digits_range (tm_hour t) ltac:(lia)))),
    (proj2 (proj2 (two_digits_range (tm_min t) ltac:(lia)))),
    (proj2 (proj2 (two_digits_range (tm_sec t) ltac:(lia)))).
  reflexivity.
Qed.

Lemma timestamp_width_witness :
  show_current_time demo_time = "2026-11-09 08:25:00" /\
  String.length (show_current_time demo_time) = 19%nat.
Proof.
  split; [vm_compute; reflexivity|].
  exact (timestamp_width demo_time demo_time_valid ltac:(simpl; lia) ltac:(simpl; lia)).
Defined.
